(** * Earthquake evacuation system: the route engine and its session manager

    A shallow embedding of [backend/core/route-engine.js] (class
    [RouteCalculationEngine]), of the session and socket handling of
    [backend/server.js], of the merging, processing and queries of
    [backend/services/usgs-api.js] and of the class
    [HazardReportingService].

    Conventions of the embedding.
    - JavaScript numbers are exact rationals ([Q]); [Infinity], used only as
      the initial value of a running minimum, is [None]. Where the code can
      make NaN of numbers (the risk of an event, and with it the weight of
      an edge) the number is an [option Q] and NaN is [None].
    - A JavaScript [Map] whose iteration order matters ([cityGraph],
      [activeSessions]) is an association list in insertion order, read with
      the first binding of a key; a [Map] that is only read with [get] is a
      [gmap]. Every key of [cityGraph] holds an object of its own.
    - A thrown exception is an [Err] result; state written before the throw
      is kept, as it is in the mutable original.
    - A search that reads a number where the object has none, or a weight
      that is NaN, goes on with NaN in JavaScript, and the order in which
      the open set then gives out priorities that are NaN is the package's
      own; it ends here with the error [NotANumber]. This happens only on
      graphs that keep a node where an edge is looked up, or a node under a
      key that is not its identifier, and on edges whose weight an event
      has made NaN.
    - [turf.distance] and [Math.log10] are functions of external libraries;
      they are the fields of the class [Geo], [Math.log10] for the positive
      numbers only. [turf.point] throws on a coordinate that is not a
      number: the error [InvalidCoordinates], at an object that lacks the
      coordinates it is asked for. [Math.pow] is the field of the class
      [Exponential].
    - The constructor [PriorityQueue] is what line 1 of the engine takes
      from the package [heap]; the open set is modelled from the operations
      the search uses (see [pq_pop]). The statements about a search are
      about what it returns when it returns.
    - A handler runs to its end before the next message is taken: the
      promises it awaits are settled when it awaits them. The clock is read
      once per handler. *)

From Stdlib Require Import QArith Qminmax Qround Qabs Lqa.
From stdpp Require Import gmap strings list pretty.

Local Open Scope Q_scope.

(** ** Numbers *)

Definition Qltb (x y : Q) : bool := negb (Qle_bool y x).

(** ** Results of a call that may throw *)

Inductive Error :=
| NoSafeZonesAvailable   (* Error('No safe zones available') *)
| NoPathFound            (* Error('No path found to safe zone') *)
| TypeError              (* a property read on undefined or null, a call of undefined *)
| InvalidCoordinates     (* Error('coordinates must contain numbers'), of turf.point *)
| NotANumber             (* a number read where there is none *)
| OutOfFuel.             (* the bound of a loop of the embedding was reached *)

Inductive Result (A : Type) :=
| Ok (a : A)
| Err (e : Error).
Arguments Ok {A} a.
Arguments Err {A} e.

#[global] Instance Result_ret : MRet Result := fun A a => Ok a.
#[global] Instance Result_bind : MBind Result := fun A B k r =>
  match r with
  | Ok a => k a
  | Err e => Err e
  end.
#[global] Instance Result_fmap : FMap Result := fun A B f r =>
  match r with
  | Ok a => Ok (f a)
  | Err e => Err e
  end.

(** ** Data model *)

Record LatLng := { lat : Q; lng : Q }.

(** An entry of [cityGraph] of the type 'node', by the fields that the
    engine reads. The loop of [updateEdgeWeights] leaves a [weight] on a
    node too; it is NaN, as the missing field is to every reader, and is
    not kept here. *)
Record Node := {
  node_id : string;
  node_lat : Q;
  node_lng : Q;
  neighbors : list string
}.

Record Edge := {
  edge_id : string;
  startLat : Q;
  startLng : Q;
  baseDistance : Q;
  weight : option Q    (* NaN, or not written yet, is [None] *)
}.

(** The entries of [cityGraph]: [node.type === 'node'] or an edge. *)
Inductive Entry :=
| NodeEntry (n : Node)
| EdgeEntry (e : Edge).

Record SafeZone := { zone_id : string; zone_lat : Q; zone_lng : Q }.

Record Earthquake := {
  eq_lng : Q;          (* geometry.coordinates[0] *)
  eq_lat : Q;          (* geometry.coordinates[1] *)
  eq_depth : Q;        (* geometry.coordinates[2] *)
  mag : Q;             (* properties.mag *)
  time : Z             (* properties.time, milliseconds *)
}.

(** A GeoJSON feature collection; [features] may be missing. *)
Record SeismicData := { features : option (list Earthquake) }.

Record Hazard := { hazard_type : string }.

Record StructuralData := {
  averageAge : Q;
  constructionType : string;
  previousDamage : bool
}.

Definition Graph := list (string * Entry).

Record Engine := {
  cityGraph : Graph;
  safeZones : list SafeZone;
  hazardMap : gmap string (list Hazard);
  crowdDensityMap : gmap string Q;
  structuralRiskMap : gmap string StructuralData;
  seismicData : option SeismicData
}.

Inductive RiskLevel := LOW | MODERATE | HIGH | CRITICAL.

Record RouteResult := {
  route : list Node;
  estimatedTime : Z;
  riskLevel : RiskLevel;
  alternativeRoutes : list (list Node)
}.

(** ** External numeric functions *)

Class Geo := {
  (** [turf.distance(p, q, { units: 'kilometers' })] *)
  turf_distance : LatLng -> LatLng -> Q;
  (** [Math.log10], read at positive numbers only *)
  log10 : Q -> Q
}.

Definition kilometers `{Geo} (p q : LatLng) : Q := turf_distance p q.
Definition meters `{Geo} (p q : LatLng) : Q := 1000 * turf_distance p q.

(** ** Risk model *)

Section RiskModel.
Context `{Geo}.

(** [Math.log10(distance + depth)] is NaN below 0, and then so are the
    intensity and what [Math.min] and [Math.max] make of it; at 0 it is
    [-Infinity], the intensity is [Infinity] and the clamp gives 7. *)
Definition calculateShindoIntensity (magnitude distance depth : Q) : option Q :=
  if Qltb (distance + depth) 0 then None
  else if Qeq_bool (distance + depth) 0 then Some 7
  else
    let attenuationFactor := log10 (distance + depth) in
    let intensity := magnitude - 3 * attenuationFactor + 3 in
    Some (Qmax 0 (Qmin 7 intensity)).

(** The risk of one event in the loop of [calculateSeismicRisk]. *)
Definition earthquakeRisk (edge : Edge) (earthquake : Earthquake) : option Q :=
  let distance :=
    kilometers {| lat := startLat edge; lng := startLng edge |}
               {| lat := eq_lat earthquake; lng := eq_lng earthquake |} in
  intensity ← calculateShindoIntensity (mag earthquake) distance (eq_depth earthquake);
  Some (Qmin (intensity / 7) 1).

(** [Math.max(maxRisk, risk)]: NaN when either is. *)
Definition mathMax (x y : option Q) : option Q :=
  match x, y with
  | Some a, Some b => Some (Qmax a b)
  | _, _ => None
  end.

Definition calculateSeismicRisk (edge : Edge) (data : option SeismicData) : option Q :=
  match data with
  | None => Some 0.1
  | Some d =>
    match features d with
    | None => Some 0.1
    | Some fs =>
      fold_left (fun maxRisk earthquake => mathMax maxRisk (earthquakeRisk edge earthquake))
                fs (Some 0)
    end
  end.

(** [calculateSeismicRisk] on an entry that is a node: it has no [startLng]
    and no [startLat], and [turf.point([undefined, undefined])] throws in
    the first turn of the loop over the features. Without a feature the
    loop body is not run. *)
Definition nodeSeismicRisk (data : option SeismicData) : Result Q :=
  match data with
  | None => Ok 0.1
  | Some d =>
    match features d with
    | None => Ok 0.1
    | Some [] => Ok 0
    | Some (_ :: _) => Err InvalidCoordinates
    end
  end.

Definition calculateStructuralRisk (e : Engine) (edge : Edge) : Q :=
  match structuralRiskMap e !! edge_id edge with
  | None => 0.2
  | Some structuralData =>
    let ageRisk := if Qltb 50 (averageAge structuralData) then 0.7 else 0.3 in
    let constructionRisk :=
      if String.eqb (constructionType structuralData) "unreinforced_masonry"
      then 0.9 else 0.2 in
    let damageRisk := if previousDamage structuralData then 0.8 else 0.1 in
    Qmin ((ageRisk + constructionRisk + damageRisk) / 3) 1
  end.

Definition getCrowdDensity (e : Engine) (edge : Edge) : Q :=
  let density := default 0 (crowdDensityMap e !! edge_id edge) in
  Qmin (density / 1000) 1.

Definition hazardScore (h : Hazard) : Q :=
  if String.eqb (hazard_type h) "building_collapse" then 0.9
  else if String.eqb (hazard_type h) "fire" then 0.7
  else if String.eqb (hazard_type h) "debris" then 0.5
  else if String.eqb (hazard_type h) "gas_leak" then 0.8
  else 0.3.

Definition getHazardReports (e : Engine) (edge : Edge) : Q :=
  let hazards := default [] (hazardMap e !! edge_id edge) in
  let riskScore := fold_left (fun riskScore hazard => riskScore + hazardScore hazard) hazards 0 in
  Qmin riskScore 1.

(** The weighted blend, before the distance term and the penalty. *)
Definition riskBlend (seismicRisk structuralRisk crowdDensity hazardReports : Q) : Q :=
  0.4 * seismicRisk + 0.3 * structuralRisk
  + 0.2 * crowdDensity + 0.1 * hazardReports.

(** The value [updateEdgeWeights] stores in [edge.weight]; it is NaN when
    the seismic risk is. *)
Definition edgeWeight (e : Engine) (edge : Edge) : option Q :=
  seismicRisk ← calculateSeismicRisk edge (seismicData e);
  let structuralRisk := calculateStructuralRisk e edge in
  let crowdDensity := getCrowdDensity e edge in
  let hazardReports := getHazardReports e edge in
  let w := riskBlend seismicRisk structuralRisk crowdDensity hazardReports in
  let w := w + baseDistance edge * 0.1 in
  Some (if Qltb 0.8 seismicRisk || Qltb 0.9 structuralRisk then w * 3 else w).

Definition setWeight (w : option Q) (edge : Edge) : Edge :=
  {| edge_id := edge_id edge; startLat := startLat edge; startLng := startLng edge;
     baseDistance := baseDistance edge; weight := w |}.

(** The body of the loop of [updateEdgeWeights], on one entry of the graph.
    On a node the seismic risk throws when the snapshot has a feature;
    without one the body writes [weight = NaN] on the node, which changes
    nothing for what reads it (the weight of a node is no number either
    way). *)
Definition updateEntry (e : Engine) (en : Entry) : Result Entry :=
  match en with
  | EdgeEntry edge => Ok (EdgeEntry (setWeight (edgeWeight e edge) edge))
  | NodeEntry n => _ ← nodeSeismicRisk (seismicData e); Ok (NodeEntry n)
  end.

Definition setGraph (g : Graph) (e : Engine) : Engine :=
  {| cityGraph := g; safeZones := safeZones e; hazardMap := hazardMap e;
     crowdDensityMap := crowdDensityMap e; structuralRiskMap := structuralRiskMap e;
     seismicData := seismicData e |}.

(** [for (const [edgeId, edge] of graph.entries()) edge.weight = ...] over
    every entry of the graph, nodes and edges, in the order of the Map. The
    entries before the one that throws have their new weight, the others
    keep what they had. *)
Fixpoint updateEntries (e : Engine) (g : Graph) : Graph * Result unit :=
  match g with
  | [] => ([], Ok tt)
  | (k, en) :: g' =>
    match updateEntry e en with
    | Err x => ((k, en) :: g', Err x)
    | Ok en' =>
      let r := updateEntries e g' in
      ((k, en') :: fst r, snd r)
    end
  end.

(** [updateEdgeWeights(graph)]; the graph is [this.cityGraph] itself
    ([loadCityGraph] returns it), so the weights are written into the
    engine. *)
Definition updateEdgeWeights (e : Engine) : Engine * Result unit :=
  let r := updateEntries e (cityGraph e) in
  (setGraph (fst r) e, snd r).

End RiskModel.

(** ** Road graph store *)

Fixpoint graph_get (g : Graph) (k : string) : option Entry :=
  match g with
  | [] => None
  | (k', en) :: g' => if String.eqb k k' then Some en else graph_get g' k
  end.

(** In-place update of the object bound to [k]. *)
Fixpoint graph_alter (f : Entry -> Entry) (k : string) (g : Graph) : Graph :=
  match g with
  | [] => []
  | (k', en) :: g' =>
    if String.eqb k k' then (k', f en) :: g' else (k', en) :: graph_alter f k g'
  end.

Definition edgeKey (fromId toId : string) : string := fromId +:+ "-" +:+ toId.

Definition getNode (e : Engine) (nodeId : string) : option Entry :=
  graph_get (cityGraph e) nodeId.

(** [this.cityGraph.get(`${fromId}-${toId}`) || this.cityGraph.get(`${toId}-${fromId}`)] *)
Definition getEdge (e : Engine) (fromId toId : string) : option Entry :=
  match graph_get (cityGraph e) (edgeKey fromId toId) with
  | Some en => Some en
  | None => graph_get (cityGraph e) (edgeKey toId fromId)
  end.

(** The object is used as a node: its coordinates are given to
    [turf.point], and its neighbours are read. An edge has no [lng] and no
    [lat]. *)
Definition asNode (o : option Entry) : Result Node :=
  match o with
  | None => Err TypeError
  | Some (NodeEntry n) => Ok n
  | Some (EdgeEntry _) => Err InvalidCoordinates
  end.

(** [edge.weight] *)
Definition weightOf (o : option Entry) : Result Q :=
  match o with
  | None => Err TypeError
  | Some (EdgeEntry edge) =>
    match weight edge with
    | Some w => Ok w
    | None => Err NotANumber
    end
  | Some (NodeEntry _) => Err NotANumber
  end.

Definition nodesOf (g : Graph) : list Node :=
  omap (fun kv => match snd kv with NodeEntry n => Some n | EdgeEntry _ => None end) g.

(** [distance < minDistance], where [minDistance] starts at [Infinity]. *)
Definition belowMin (distance : Q) (minDistance : option Q) : bool :=
  match minDistance with
  | None => true
  | Some m => Qltb distance m
  end.

(** The scan shared by [findNearestNode] and [findNearestSafeZone]: the
    first element at the least distance. *)
Definition nearestBy {A} (d : A -> Q) (l : list A) : option A :=
  fst (fold_left
         (fun acc x =>
            let distance := d x in
            if belowMin distance (snd acc) then (Some x, Some distance) else acc)
         l (None, None)).

Definition nodePoint (n : Node) : LatLng := {| lat := node_lat n; lng := node_lng n |}.
Definition zonePoint (z : SafeZone) : LatLng := {| lat := zone_lat z; lng := zone_lng z |}.

Section PathSearch.
Context `{Geo}.

Definition findNearestNode (e : Engine) (location : LatLng) : option Node :=
  nearestBy (fun n => meters location (nodePoint n)) (nodesOf (cityGraph e)).

Definition findNearestSafeZone (e : Engine) (userLocation : LatLng) : option SafeZone :=
  nearestBy (fun z => kilometers userLocation (zonePoint z)) (safeZones e).

Definition heuristic (nodeA nodeB : Node) : Q :=
  kilometers (nodePoint nodeA) (nodePoint nodeB).

(** *** The open set *)

(** An entry of the open set; it keeps the [fScore] it was pushed with. *)
Record Item := { item_node : Node; item_fScore : Q }.

Definition pq_push (x : Item) (q : list Item) : list Item := q ++ [x].

(** Modelled from the spec: [PriorityQueue] comes from the package [heap],
    which is not part of the repository. The engine builds it with the
    comparator [a.fScore - b.fScore] and uses [push], [pop], [length] and
    [some]; section 4.3 of the specification fixes the order among equal
    priorities: first in, first out. [pq_pop] takes the first entry of
    least [fScore]. Version 0.2.7 of the package, the one [package.json]
    names, exports the class [Heap] and no [PriorityQueue]: with it the
    constructor call that opens [aStarAlgorithm] throws a TypeError, and no
    search returns. *)
Fixpoint pq_pop (q : list Item) : option (Item * list Item) :=
  match q with
  | [] => None
  | x :: q' =>
    match pq_pop q' with
    | None => Some (x, [])
    | Some (y, r) =>
      if Qle_bool (item_fScore x) (item_fScore y) then Some (x, q')
      else Some (y, x :: r)
    end
  end.

Definition pq_some (nodeId : string) (q : list Item) : bool :=
  existsb (fun item => String.eqb (node_id (item_node item)) nodeId) q.

(** *** A* *)

Record AStar := {
  openSet : list Item;
  closedSet : list string;         (* a Set, in insertion order *)
  gScore : gmap string Q;
  fScore : gmap string Q;
  cameFrom : gmap string string
}.

Definition set_has (x : string) (s : list string) : bool := existsb (String.eqb x) s.
Definition set_add (x : string) (s : list string) : list string :=
  if set_has x s then s else s ++ [x].

(** The body of [for (const neighborId of current.neighbors)]. *)
Definition relax (e : Engine) (goalNode current : Node) (st : AStar) (neighborId : string)
  : Result AStar :=
  if set_has neighborId (closedSet st) then Ok st
  else
    let neighbor := getNode e neighborId in
    w ← weightOf (getEdge e (node_id current) neighborId);
    match gScore st !! node_id current with
    | None => Err NotANumber
    | Some g =>
      let tentativeGScore := g + w in
      let better :=
        match gScore st !! neighborId with
        | None => true
        | Some old => Qltb tentativeGScore old
        end in
      if better then
        nb ← asNode neighbor;
        let f := tentativeGScore + heuristic nb goalNode in
        let st' := {| openSet := openSet st; closedSet := closedSet st;
                      gScore := <[neighborId := tentativeGScore]> (gScore st);
                      fScore := <[neighborId := f]> (fScore st);
                      cameFrom := <[neighborId := node_id current]> (cameFrom st) |} in
        if pq_some neighborId (openSet st) then Ok st'
        else Ok {| openSet := pq_push {| item_node := nb; item_fScore := f |} (openSet st');
                   closedSet := closedSet st'; gScore := gScore st';
                   fScore := fScore st'; cameFrom := cameFrom st' |}
      else Ok st
    end.

Fixpoint relaxAll (e : Engine) (goalNode current : Node) (st : AStar) (ns : list string)
  : Result AStar :=
  match ns with
  | [] => Ok st
  | n :: ns' => st' ← relax e goalNode current st n; relaxAll e goalNode current st' ns'
  end.

(** [reconstructPath]: [path] holds the nodes from [current] on. *)
Fixpoint reconstructPath (fuel : nat) (e : Engine) (from : gmap string string)
    (current : Node) (path : list Node) : Result (list Node) :=
  match from !! node_id current with
  | None => Ok path
  | Some p =>
    match fuel with
    | O => Err OutOfFuel
    | S fuel' =>
      n ← asNode (getNode e p);
      reconstructPath fuel' e from n (n :: path)
    end
  end.

(** [while (openSet.length > 0)] *)
Fixpoint aStarLoop (fuel : nat) (e : Engine) (goalNode : Node) (st : AStar)
  : Result (list Node) :=
  match fuel with
  | O => Err OutOfFuel
  | S fuel' =>
    match pq_pop (openSet st) with
    | None => Err NoPathFound
    | Some (item, rest) =>
      let current := item_node item in
      if String.eqb (node_id current) (node_id goalNode)
      then reconstructPath (length (cityGraph e)) e (cameFrom st) current [current]
      else
        let st1 := {| openSet := rest;
                      closedSet := set_add (node_id current) (closedSet st);
                      gScore := gScore st; fScore := fScore st;
                      cameFrom := cameFrom st |} in
        st2 ← relaxAll e goalNode current st1 (neighbors current);
        aStarLoop fuel' e goalNode st2
    end
  end.

Definition aStarInit (startNode goalNode : Node) : AStar :=
  let f := heuristic startNode goalNode in
  {| openSet := pq_push {| item_node := startNode; item_fScore := f |} [];
     closedSet := [];
     gScore := {[ node_id startNode := 0 ]};
     fScore := {[ node_id startNode := f ]};
     cameFrom := ∅ |}.

(** [aStarAlgorithm(start, goal, graph)]; the graph it reads is
    [this.cityGraph]. On a graph that stores every node under its
    identifier a node enters the open set at most once, so the loop runs at
    most once per entry of the graph (see [aStar_terminates]). *)
Definition aStarAlgorithm (e : Engine) (start goal : LatLng) : Result (list Node) :=
  match findNearestNode e start, findNearestNode e goal with
  | Some startNode, Some goalNode =>
    aStarLoop (S (length (cityGraph e))) e goalNode (aStarInit startNode goalNode)
  | _, _ => Err TypeError
  end.

End PathSearch.

(** ** Route summary, alternatives and the entry point *)

(** The pairs [(route[i], route[i + 1])]. *)
Fixpoint segments (route : list Node) : list (Node * Node) :=
  match route with
  | a :: (b :: _) as rest => (a, b) :: segments rest
  | _ => []
  end.

Section RouteEngine.
Context `{Geo}.

Definition calculateEstimatedTime (route : list Node) : Z :=
  let walkingSpeed := 1.4 in
  let totalTime :=
    fold_left
      (fun totalTime s =>
         let distance := meters (nodePoint (fst s)) (nodePoint (snd s)) in
         totalTime + distance / walkingSpeed)
      (segments route) 0 in
  Qceiling (totalTime / 60).

(** [totalRisk] is [None] once an entry without a weight has been added
    (NaN), and then no threshold comparison succeeds. *)
Definition calculateRouteRiskLevel (e : Engine) (route : list Node) : RiskLevel :=
  let acc :=
    fold_left
      (fun acc s =>
         match graph_get (cityGraph e) (edgeKey (node_id (fst s)) (node_id (snd s))) with
         | None => acc
         | Some (EdgeEntry edge) =>
           (match fst acc, weight edge with
            | Some t, Some w => Some (t + w)
            | _, _ => None
            end,
            S (snd acc))
         | Some (NodeEntry _) => (None, S (snd acc))
         end)
      (segments route) (Some 0, O) in
  let averageRisk :=
    match snd acc with
    | O => Some 0.5
    | S _ => match fst acc with
             | Some t => Some (t / inject_Z (Z.of_nat (snd acc)))
             | None => None
             end
    end in
  match averageRisk with
  | None => CRITICAL
  | Some r =>
    if Qltb r 0.3 then LOW
    else if Qltb r 0.6 then MODERATE
    else if Qltb r 0.8 then HIGH
    else CRITICAL
  end.

(** [edge.weight *= 2.0] *)
Definition doubleWeight (en : Entry) : Entry :=
  match en with
  | EdgeEntry edge => EdgeEntry (setWeight ((fun w => w * 2) <$> weight edge) edge)
  | NodeEntry n => NodeEntry n
  end.

Definition penalizeRoute (g : Graph) (route : list Node) : Graph :=
  fold_left
    (fun g s => graph_alter doubleWeight (edgeKey (node_id (fst s)) (node_id (snd s))) g)
    (segments route) g.

Definition penalizePreviousRoutes (e : Engine) (routes : list (list Node)) : Engine :=
  setGraph (fold_left penalizeRoute routes (cityGraph e)) e.

(** The loop of [generateAlternativeRoutes]; any exception ends it. *)
Fixpoint alternativesLoop (count : nat) (e : Engine) (start goal : LatLng)
    (primaryRoute : list Node) (alternatives : list (list Node))
  : Engine * list (list Node) :=
  match count with
  | O => (e, alternatives)
  | S count' =>
    let e' := penalizePreviousRoutes e (primaryRoute :: alternatives) in
    match aStarAlgorithm e' start goal with
    | Ok altRoute =>
      alternativesLoop count' e' start goal primaryRoute (alternatives ++ [altRoute])
    | Err _ => (e', alternatives)
    end
  end.

Definition generateAlternativeRoutes (e : Engine) (start goal : LatLng) (count : nat)
  : Engine * Result (list (list Node)) :=
  match aStarAlgorithm e start goal with
  | Err x => (e, Err x)
  | Ok primaryRoute =>
    let r := alternativesLoop count e start goal primaryRoute [] in
    (fst r, Ok (snd r))
  end.

Definition setInputs (seismic : option SeismicData) (hazards : gmap string (list Hazard))
    (e : Engine) : Engine :=
  {| cityGraph := cityGraph e; safeZones := safeZones e; hazardMap := hazards;
     crowdDensityMap := crowdDensityMap e; structuralRiskMap := structuralRiskMap e;
     seismicData := seismic |}.

(** [calculateSafeRoute(userLocation, seismicData, hazardMap)]: the engine
    after the call and what the call returns or throws. *)
Definition calculateSafeRoute (e : Engine) (userLocation : LatLng)
    (seismic : option SeismicData) (hazards : gmap string (list Hazard))
  : Engine * Result RouteResult :=
  let updated := updateEdgeWeights (setInputs seismic hazards e) in
  let e1 := fst updated in
  match snd updated with
  | Err x => (e1, Err x)
  | Ok _ =>
    match findNearestSafeZone e1 userLocation with
    | None => (e1, Err NoSafeZonesAvailable)
    | Some targetSafeZone =>
      match aStarAlgorithm e1 userLocation (zonePoint targetSafeZone) with
      | Err x => (e1, Err x)
      | Ok r =>
        let t := calculateEstimatedTime r in
        let level := calculateRouteRiskLevel e1 r in
        let alt := generateAlternativeRoutes e1 userLocation (zonePoint targetSafeZone) 2 in
        match snd alt with
        | Err x => (fst alt, Err x)
        | Ok alternatives =>
          (fst alt, Ok {| route := r; estimatedTime := t; riskLevel := level;
                          alternativeRoutes := alternatives |})
        end
      end
    end
  end.

End RouteEngine.

(** ** Session manager ([backend/server.js]) *)

Record Session := {
  session_id : string;
  startLocation : LatLng;
  currentLocation : LatLng;
  session_route : RouteResult;
  startTime : Z;
  lastUpdate : Z;
  status : string
}.

(** What a handler lets out: socket messages and console lines. *)
Inductive Event :=
| Calculating (userLocation : LatLng)
    (* console.log('Calculating safe route for location:', userLocation) *)
| RouteUpdated (sessionId : string) (newRoute : RouteResult) (reason : string)
    (* io.to(sessionId).emit('route_updated', ...) *)
| LoggedFailure (sessionId : string) (error : Error)
    (* console.error(`Failed to recalculate route for session ...`, error) *)
| EarthquakeBroadcast (earthquakeData : list Earthquake).
    (* io.emit('earthquake_update', earthquakeData) *)

Inductive Response :=
| NotFound404                      (* { error: 'Session not found' } *)
| Failed500                        (* { error: 'Failed to update route' } *)
| SessionJson (id : string) (location : LatLng) (r : RouteResult) (st : string).

(** The collaborators of the server that are outside the route engine. *)
Class Services := {
  HazardReport : Type;
  (** [hazardService.reportHazard]: the hazard store after the report, or
      the exception of an invalid report. *)
  reportHazard : HazardReport -> gmap string (list Hazard) -> Result (gmap string (list Hazard))
}.

Record Server := {
  routeEngine : Engine;
  (** [usgsService.cache.get('current_earthquakes')]: unset, or the features
      of the collection that [processEarthquakeData] built. *)
  usgsCache : option (list Earthquake);
  (** [hazardService.getCurrentHazards()], as the engine reads it: the
      hazards found under an edge identifier. *)
  currentHazards : gmap string (list Hazard);
  activeSessions : list (string * Session)
}.

Definition collection (fs : list Earthquake) : SeismicData := {| features := Some fs |}.

(** [getRecentEarthquakes(hoursBack)] of the USGS service, at time [now]. *)
Definition getRecentEarthquakes (cache : option (list Earthquake)) (now hoursBack : Z)
  : list Earthquake :=
  match cache with
  | None => []
  | Some fs =>
    let cutoffTime := (now - hoursBack * 60 * 60 * 1000)%Z in
    filter (fun feature => (cutoffTime <= time feature)%Z) fs
  end.

Fixpoint sessions_get (ss : list (string * Session)) (k : string) : option Session :=
  match ss with
  | [] => None
  | (k', s) :: ss' => if String.eqb k k' then Some s else sessions_get ss' k
  end.

Fixpoint sessions_set (k : string) (s : Session) (ss : list (string * Session))
  : list (string * Session) :=
  match ss with
  | [] => []
  | (k', s') :: ss' =>
    if String.eqb k k' then (k', s) :: ss' else (k', s') :: sessions_set k s ss'
  end.

Definition moveSession (location : LatLng) (now : Z) (s : Session) : Session :=
  {| session_id := session_id s; startLocation := startLocation s;
     currentLocation := location; session_route := session_route s;
     startTime := startTime s; lastUpdate := now; status := status s |}.

Definition rerouteSession (r : RouteResult) (s : Session) : Session :=
  {| session_id := session_id s; startLocation := startLocation s;
     currentLocation := currentLocation s; session_route := r;
     startTime := startTime s; lastUpdate := lastUpdate s; status := status s |}.

Definition touchSession (now : Z) (s : Session) : Session :=
  {| session_id := session_id s; startLocation := startLocation s;
     currentLocation := currentLocation s; session_route := session_route s;
     startTime := startTime s; lastUpdate := now; status := status s |}.

(** [this.routeEngine.checkRouteForHazards]: the class
    [RouteCalculationEngine] defines no method of this name, so the property
    is [undefined]. *)
Definition checkRouteForHazards
  : option (Engine -> list Node -> gmap string (list Hazard) -> bool) := None.

Section SessionManager.
Context `{Geo} `{Services}.

Definition significant (earthquake : Earthquake) : bool := Qle_bool 5 (mag earthquake).

(** [checkRouteRecalculation(session)] at time [now]. Its first statement
    calls [checkRouteForHazards]; the call of [undefined] throws a
    TypeError, before the cache of the feed is read. *)
Definition checkRouteRecalculation (e : Engine) (cache : option (list Earthquake))
    (hazards : gmap string (list Hazard)) (now : Z) (session : Session) : Result bool :=
  routeHasNewHazards ←
    match checkRouteForHazards with
    | Some method => Ok (method e (route (session_route session)) hazards)
    | None => Err TypeError
    end;
  let recentEarthquakes := getRecentEarthquakes cache now 1 in
  let hasSignificantActivity := existsb significant recentEarthquakes in
  Ok (routeHasNewHazards || hasSignificantActivity).

(** [for (const hazard of reportedHazards) await reportHazard(hazard)]: the
    hazard store after the loop, and the exception that ended it, if any. *)
Fixpoint reportAll (reports : list HazardReport) (hazards : gmap string (list Hazard))
  : gmap string (list Hazard) * option Error :=
  match reports with
  | [] => (hazards, None)
  | r :: reports' =>
    match reportHazard r hazards with
    | Ok h => reportAll reports' h
    | Err x => (hazards, Some x)
    end
  end.

Definition setSessions (ss : list (string * Session)) (srv : Server) : Server :=
  {| routeEngine := routeEngine srv; usgsCache := usgsCache srv;
     currentHazards := currentHazards srv; activeSessions := ss |}.

Definition setHazards (h : gmap string (list Hazard)) (srv : Server) : Server :=
  {| routeEngine := routeEngine srv; usgsCache := usgsCache srv;
     currentHazards := h; activeSessions := activeSessions srv |}.

Definition setEngine (e : Engine) (srv : Server) : Server :=
  {| routeEngine := e; usgsCache := usgsCache srv;
     currentHazards := currentHazards srv; activeSessions := activeSessions srv |}.

(** [POST /api/route/update/:sessionId] at time [now]. Every exception of
    the handler is caught and answered with the status 500. *)
Definition routeUpdate (srv : Server) (now : Z) (sessionId : string)
    (location : LatLng) (reportedHazards : list HazardReport)
  : Server * Response * list Event :=
  match sessions_get (activeSessions srv) sessionId with
  | None => (srv, NotFound404, [])
  | Some session0 =>
    let session := moveSession location now session0 in
    let srv1 := setSessions (sessions_set sessionId session (activeSessions srv)) srv in
    match reportAll reportedHazards (currentHazards srv1) with
    | (h, Some _) => (setHazards h srv1, Failed500, [])
    | (h, None) =>
      let srv2 := setHazards h srv1 in
      match checkRouteRecalculation (routeEngine srv2) (usgsCache srv2) h now session with
      | Err _ => (srv2, Failed500, [])
      | Ok needsRecalculation =>
        if needsRecalculation then
          let r := calculateSafeRoute (routeEngine srv2) location
                     (collection <$> usgsCache srv2) h in
          let srv3 := setEngine (fst r) srv2 in
          match snd r with
          | Err _ => (srv3, Failed500, [Calculating location])
          | Ok newRoute =>
            let session' := rerouteSession newRoute session in
            (setSessions (sessions_set sessionId session' (activeSessions srv3)) srv3,
             SessionJson sessionId (currentLocation session') newRoute (status session'),
             [Calculating location; RouteUpdated sessionId newRoute "hazard_detected"])
          end
        else
          (srv2,
           SessionJson sessionId (currentLocation session) (session_route session)
                       (status session),
           [])
      end
    end
  end.

(** One turn of the loop of [checkAllRoutesForRecalculation]: the engine and
    the session after it, and what it lets out. The call of
    [checkRouteRecalculation] is outside the [try] of the turn: its
    exception ends the loop. *)
Definition sweepSession (now : Z) (earthquakeData : list Earthquake)
    (cache : option (list Earthquake)) (hazards : gmap string (list Hazard))
    (e : Engine) (sessionId : string) (session : Session)
  : Result (Engine * Session * list Event) :=
  if String.eqb (status session) "active" then
    needsRecalc ← checkRouteRecalculation e cache hazards now session;
    if needsRecalc : bool then
      let r := calculateSafeRoute e (currentLocation session)
                 (Some (collection earthquakeData)) hazards in
      match snd r with
      | Ok newRoute =>
        Ok (fst r, touchSession now (rerouteSession newRoute session),
            [Calculating (currentLocation session);
             RouteUpdated sessionId newRoute "earthquake_activity"])
      | Err x =>
        Ok (fst r, session,
            [Calculating (currentLocation session); LoggedFailure sessionId x])
      end
    else Ok (e, session, [])
  else Ok (e, session, []).

(** The loop over the sessions: the engine, the sessions and what was let
    out when it ends, and the exception that ended it, if any. *)
Fixpoint sweepSessions (now : Z) (earthquakeData : list Earthquake)
    (cache : option (list Earthquake)) (hazards : gmap string (list Hazard))
    (e : Engine) (ss : list (string * Session))
  : Engine * list (string * Session) * list Event * Result unit :=
  match ss with
  | [] => (e, [], [], Ok tt)
  | (sessionId, session) :: ss' =>
    match sweepSession now earthquakeData cache hazards e sessionId session with
    | Err x => (e, (sessionId, session) :: ss', [], Err x)
    | Ok (e1, session', ev) =>
      let '(e2, ss'', ev', r) := sweepSessions now earthquakeData cache hazards e1 ss' in
      (e2, (sessionId, session') :: ss'', ev ++ ev', r)
    end
  end.

(** [checkAllRoutesForRecalculation(earthquakeData)] at time [now]: the
    server after it, what it lets out, and whether its promise is rejected.
    The subscriber that calls it does not wait for the promise. *)
Definition checkAllRoutesForRecalculation (srv : Server) (now : Z)
    (earthquakeData : list Earthquake) : Server * list Event * Result unit :=
  let '(e, ss, ev, r) :=
    sweepSessions now earthquakeData (usgsCache srv) (currentHazards srv)
                  (routeEngine srv) (activeSessions srv) in
  (setSessions ss (setEngine e srv), ev, r).

End SessionManager.

(** ** Predicates of the statements *)

(** Densities are counts of people: the recorded ones are not negative. *)
Definition densitiesNonNegative (e : Engine) : Prop :=
  forall k d, crowdDensityMap e !! k = Some d -> 0 <= d.

(** The cost formula of section 4.1 of the specification, before the
    penalty. *)
Definition specCost (seismicRisk structuralRisk densityRisk hazardRisk baseDistance : Q) : Q :=
  0.4 * seismicRisk + 0.3 * structuralRisk + 0.2 * densityRisk + 0.1 * hazardRisk
  + 0.1 * baseDistance.

Definition unitInterval (x : Q) : Prop := 0 <= x <= 1.

(** The events of a snapshot: none when it is null or has no [features]. *)
Definition eventsOf (data : option SeismicData) : list Earthquake :=
  match data with
  | Some d => default [] (features d)
  | None => []
  end.

Definition hasFeature (data : option SeismicData) : bool :=
  match eventsOf data with
  | [] => false
  | _ :: _ => true
  end.

(** The event lies higher above the datum than it is far from the start of
    the edge: [distance + depth] is negative, and its logarithm NaN. *)
Definition attenuationNaN `{Geo} (edge : Edge) (earthquake : Earthquake) : Prop :=
  kilometers {| lat := startLat edge; lng := startLng edge |}
             {| lat := eq_lat earthquake; lng := eq_lng earthquake |}
  + eq_depth earthquake < 0.

(** What the body of the loop of [updateEdgeWeights] leaves of an entry
    when it does not throw. *)
Definition writeWeight `{Geo} (e : Engine) (en : Entry) : Entry :=
  match en with
  | EdgeEntry edge => EdgeEntry (setWeight (edgeWeight e edge) edge)
  | NodeEntry n => NodeEntry n
  end.

(** The base distance recorded under each key of the graph. *)
Definition baseDistances (g : Graph) : list (string * option Q) :=
  map (fun kv => (fst kv, match snd kv with
                          | EdgeEntry edge => Some (baseDistance edge)
                          | NodeEntry _ => None
                          end)) g.

(** An entry without its mutable field. *)
Definition baseEntry (en : Entry) : Entry :=
  match en with
  | EdgeEntry edge => EdgeEntry (setWeight None edge)
  | NodeEntry n => NodeEntry n
  end.

Definition baseGraph (g : Graph) : Graph := map (fun kv => (fst kv, baseEntry (snd kv))) g.

(** Two engines that differ at most in what a calculation writes: the
    weights of the edges and the two fields [seismicData] and [hazardMap]. *)
Definition sameBase (e1 e2 : Engine) : Prop :=
  baseGraph (cityGraph e1) = baseGraph (cityGraph e2) /\
  safeZones e1 = safeZones e2 /\
  crowdDensityMap e1 = crowdDensityMap e2 /\
  structuralRiskMap e1 = structuralRiskMap e2.

(** The inputs of one invocation of [calculateSafeRoute]. *)
Record Call := {
  call_location : LatLng;
  call_seismic : option SeismicData;
  call_hazards : gmap string (list Hazard)
}.

(** The engine after a sequence of invocations. *)
Definition runCalls `{Geo} (e : Engine) (calls : list Call) : Engine :=
  fold_left
    (fun e c =>
       fst (calculateSafeRoute e (call_location c) (call_seismic c) (call_hazards c)))
    calls e.

(** Every node is stored under its own identifier. *)
Definition nodesKeyed (g : Graph) : Prop :=
  forall k n, (k, NodeEntry n) ∈ g -> node_id n = k.

Definition itemIds (q : list Item) : list string :=
  map (fun item => node_id (item_node item)) q.

(** The invariant of the loop of [aStarAlgorithm], at the loop test:
    settled nodes are distinct nodes of the graph; the open set holds
    distinct nodes, none of them settled; a predecessor is a settled node,
    settled before the node it leads to. *)
Record aStarInv (e : Engine) (st : AStar) : Prop := {
  inv_closed_nodup : NoDup (closedSet st);
  inv_closed_keys : forall x, x ∈ closedSet st -> x ∈ map fst (cityGraph e);
  inv_open_nodup : NoDup (itemIds (openSet st));
  inv_open_new : forall x, x ∈ itemIds (openSet st) -> x ∉ closedSet st;
  inv_open_keys : forall x, x ∈ itemIds (openSet st) -> x ∈ map fst (cityGraph e);
  inv_from : forall n p, cameFrom st !! n = Some p ->
    exists i, closedSet st !! i = Some p /\
              forall j, closedSet st !! j = Some n -> (i < j)%nat
}.

(** The cost of a route: the sum of the weights of its edges. *)
Definition pathCost (e : Engine) (path : list Node) : Result Q :=
  fold_left
    (fun acc s =>
       c ← acc;
       w ← weightOf (getEdge e (node_id (fst s)) (node_id (snd s)));
       Ok (c + w))
    (segments path) (Ok 0).

(** No edge of the graph has a negative weight. *)
Definition weightsNonNegative (e : Engine) : bool :=
  forallb (fun kv => match snd kv with
                     | EdgeEntry edge =>
                       match weight edge with
                       | Some w => Qle_bool 0 w
                       | None => true
                       end
                     | NodeEntry _ => true
                     end) (cityGraph e).

(** The heuristic is consistent towards [goalNode]: it is 0 at the goal
    and, along every edge, falls by no more than the weight of the edge.
    A consistent heuristic never overestimates the remaining cost. *)
Definition consistentHeuristic `{Geo} (e : Engine) (goalNode : Node) : bool :=
  Qle_bool (heuristic goalNode goalNode) 0 &&
  forallb
    (fun n =>
       forallb
         (fun m =>
            match asNode (getNode e m), weightOf (getEdge e (node_id n) m) with
            | Ok nb, Ok w => Qle_bool (heuristic n goalNode) (w + heuristic nb goalNode)
            | _, _ => false
            end)
         (neighbors n))
    (nodesOf (cityGraph e)).

(** Condition (ii) of the trigger of section 4.4 of the specification: the
    cache of the feed holds an event of magnitude 5.0 or more within the
    hour before [now]. *)
Definition significantActivity (cache : option (list Earthquake)) (now : Z) : Prop :=
  exists q, q ∈ default [] cache /\ (now - 3600000 <= time q)%Z /\ 5 <= mag q.

(** The engine after [k] rounds of [penalizePreviousRoutes] in
    [generateAlternativeRoutes]: round [k] doubles the weights along the
    primary route and along the alternatives found before it. Alternative
    number [k], counted from 0, is searched after round [k + 1]. *)
Fixpoint engineAt (e : Engine) (primaryRoute : list Node) (alternatives : list (list Node))
    (k : nat) : Engine :=
  match k with
  | O => e
  | S k' =>
    penalizePreviousRoutes (engineAt e primaryRoute alternatives k')
                           (primaryRoute :: take k' alternatives)
  end.

(** ** A planar stand-in for the external functions, to run the engine *)

Definition planar_distance (p q : LatLng) : Q :=
  Qabs (lat p - lat q) + Qabs (lng p - lng q).

(** A coarse integer approximation of the decimal logarithm. *)
Definition digits_log10 (x : Q) : Q :=
  inject_Z (Z.log2 (Qfloor x) * 3 / 10).

Definition planar : Geo := {| turf_distance := planar_distance; log10 := digits_log10 |}.

(** ** Small maps to run the engine on

    All points lie on the parallel of 35 degrees, at longitude 139 and a
    few thousandths more. *)

Definition mkNode (i : string) (x : Q) (ns : list string) : string * Entry :=
  (i, NodeEntry {| node_id := i; node_lat := 35; node_lng := x; neighbors := ns |}).

Definition mkEdge (a b : string) (x d w : Q) : string * Entry :=
  (edgeKey a b,
   EdgeEntry {| edge_id := edgeKey a b; startLat := 35; startLng := x;
                baseDistance := d; weight := Some w |}).

Definition mkEngine (g : Graph) (zones : list SafeZone) : Engine :=
  {| cityGraph := g; safeZones := zones; hazardMap := ∅; crowdDensityMap := ∅;
     structuralRiskMap := ∅; seismicData := None |}.

Definition origin : LatLng := {| lat := 35; lng := 139 |}.

(** An event of magnitude [m] at time [t], 10 km deep under [origin]. *)
Definition quake (m : Q) (t : Z) : Earthquake :=
  {| eq_lng := 139; eq_lat := 35; eq_depth := 10; mag := m; time := t |}.

(** One road: A - B, the safe zone at B. *)
Definition roadAB : Edge :=
  {| edge_id := "A-B"; startLat := 35; startLng := 139; baseDistance := 1;
     weight := Some 0.2 |}.

Definition singleRoad : Engine :=
  mkEngine [ mkNode "A" 139 ["B"]; mkNode "B" 139.001 ["A"]; ("A-B", EdgeEntry roadAB) ]
           [ {| zone_id := "Z"; zone_lat := 35; zone_lng := 139.001 |} ].

(** The only route of the one-road map, and where it leads. *)
Definition roadRoute : list Node :=
  omap (fun i => match graph_get (cityGraph singleRoad) i with
                 | Some (NodeEntry n) => Some n
                 | _ => None
                 end) ["A"; "B"].

Definition roadGoal : LatLng := {| lat := 35; lng := 139.001 |}.

(** No road at all between A and the safe zone at B. *)
Definition blocked : Engine :=
  mkEngine [ mkNode "A" 139 []; mkNode "B" 139.001 [] ]
           [ {| zone_id := "Z"; zone_lat := 35; zone_lng := 139.001 |} ].

(** A direct road S - w - G, and a cheaper one S - a - v - w - G that
    reaches v, and through it w, at a lower cost than the roads S - v and
    S - w. The nodes lie within 0.004 of each other, every road costs at
    least 1. *)
Definition detour : Engine :=
  mkEngine
    [ mkNode "S" 139 ["v"; "a"; "w"];
      mkNode "a" 139.001 ["S"; "v"];
      mkNode "v" 139.002 ["S"; "a"; "w"];
      mkNode "w" 139.003 ["S"; "v"; "G"];
      mkNode "G" 139.004 ["w"];
      mkEdge "S" "v" 139 99 0; mkEdge "S" "a" 139 9 0; mkEdge "a" "v" 139.001 9 0;
      mkEdge "v" "w" 139.002 9 0; mkEdge "S" "w" 139 49 0; mkEdge "w" "G" 139.003 9 0 ]
    [ {| zone_id := "Z"; zone_lat := 35; zone_lng := 139.004 |} ].

(** The cheaper route of the map [detour]. *)
Definition detourRoute : list Node :=
  omap (fun i => match graph_get (cityGraph detour) i with
                 | Some (NodeEntry n) => Some n
                 | _ => None
                 end) ["S"; "a"; "v"; "w"; "G"].

Definition detourGoal : LatLng := {| lat := 35; lng := 139.004 |}.

(** The one-road map with a crowd, a fire and old masonry on the road, and
    an event of magnitude 6 nearby. *)
Definition crowded : Engine :=
  {| cityGraph := cityGraph singleRoad; safeZones := safeZones singleRoad;
     hazardMap := {[ "A-B" := [ {| hazard_type := "fire" |} ] ]};
     crowdDensityMap := {[ "A-B" := 500 ]};
     structuralRiskMap :=
       {[ "A-B" := {| averageAge := 60; constructionType := "unreinforced_masonry";
                      previousDamage := false |} ]};
     seismicData := Some (collection [quake 6 1000]) |}.

(** The one-road map without any safe zone. *)
Definition noZones : Engine := mkEngine (cityGraph singleRoad) [].

(** An event of magnitude 6 right at [origin], 5 km above the datum. *)
Definition shallowQuake : Earthquake :=
  {| eq_lng := 139; eq_lat := 35; eq_depth := -5; mag := 6; time := 1000 |}.

(** The one-road map with a density below zero recorded for the road. *)
Definition miscounted : Engine :=
  {| cityGraph := cityGraph singleRoad; safeZones := safeZones singleRoad;
     hazardMap := ∅; crowdDensityMap := {[ "A-B" := -20000 ]};
     structuralRiskMap := ∅; seismicData := None |}.

(** The road A - B with a base distance below zero. *)
Definition roadDown : Edge :=
  {| edge_id := "A-B"; startLat := 35; startLng := 139; baseDistance := -10;
     weight := Some 0.2 |}.


(** The map of [crowded], the road stored before the two nodes and a second
    road B - A after them, holding a weight of 5. *)
Definition roadFirst : Engine :=
  {| cityGraph :=
       [ ("A-B", EdgeEntry roadAB); mkNode "A" 139 ["B"]; mkNode "B" 139.001 ["A"];
         mkEdge "B" "A" 139.001 1 5 ];
     safeZones := safeZones crowded; hazardMap := hazardMap crowded;
     crowdDensityMap := crowdDensityMap crowded;
     structuralRiskMap := structuralRiskMap crowded;
     seismicData := seismicData crowded |}.

(** A hazard service to run the server with: a report names an edge and a
    hazard. *)
Definition sampleServices : Services :=
  {| HazardReport := string * Hazard;
     reportHazard := fun r h => Ok (<[fst r := default [] (h !! fst r) ++ [snd r]]> h) |}.

Definition nodeA : Node := {| node_id := "A"; node_lat := 35; node_lng := 139; neighbors := [] |}.

Definition sampleRoute : RouteResult :=
  {| route := [nodeA]; estimatedTime := 0; riskLevel := LOW; alternativeRoutes := [] |}.

Definition sampleSession : Session :=
  {| session_id := "evac_1"; startLocation := origin; currentLocation := origin;
     session_route := sampleRoute; startTime := 0; lastUpdate := 0; status := "active" |}.

(** A server over the map without roads, one active session, and a cached
    event of magnitude 6 at time 1000. *)
Definition sampleServer : Server :=
  {| routeEngine := blocked; usgsCache := Some [quake 6 1000];
     currentHazards := ∅; activeSessions := [("evac_1", sampleSession)] |}.

(** ** Predicates of the further properties *)

(** The keys under which [penalizePreviousRoutes] looks for the edges of
    the routes, in the order of the loop. *)
Definition segmentKeys (routes : list (list Node)) : list string :=
  concat (map (fun r => map (fun s => edgeKey (node_id (fst s)) (node_id (snd s)))
                            (segments r)) routes).

Definition occurrences (k : string) (keys : list string) : nat :=
  length (filter (fun k' => String.eqb k' k = true) keys).

(** The walking time of a route in seconds, at 1.4 m/s. *)
Definition walkingSeconds `{Geo} (route : list Node) : Q :=
  fold_right (fun s t => t + meters (nodePoint (fst s)) (nodePoint (snd s)) / 1.4)
             0 (segments route).

(** Every step of the route goes from a node to one of its neighbours,
    along an edge that the graph holds in one direction or the other. *)
Definition validWalk (e : Engine) (path : list Node) : Prop :=
  forall a b, (a, b) ∈ segments path ->
    node_id b ∈ neighbors a /\
    exists w, weightOf (getEdge e (node_id a) (node_id b)) = Ok w.

(** No edge of the graph holds a negative weight, or has a negative base
    distance. *)
Definition weightsAtLeastZero (g : Graph) : Prop :=
  forall k edge w, (k, EdgeEntry edge) ∈ g -> weight edge = Some w -> 0 <= w.

Definition distancesAtLeastZero (g : Graph) : Prop :=
  forall k edge, (k, EdgeEntry edge) ∈ g -> 0 <= baseDistance edge.

(** [x] is the first element of [l] at the least value of [d]. *)
Definition firstClosest {A} (d : A -> Q) (l : list A) (x : A) : Prop :=
  exists l1 l2, l = l1 ++ x :: l2 /\
    (forall y, y ∈ l1 -> d x < d y) /\ (forall y, y ∈ l2 -> d x <= d y).

(** One road A - B, stored under the key of the direction B to A. *)
Definition reversedRoad : Engine :=
  mkEngine [ mkNode "A" 139 ["B"]; mkNode "B" 139.001 ["A"]; mkEdge "B" "A" 139.001 1 0.2 ]
           [ {| zone_id := "Z"; zone_lat := 35; zone_lng := 139.001 |} ].

(** What the loop of [aStarAlgorithm] keeps of the predecessors it records,
    [s] being the start node: a predecessor is a graph node that has the
    node among its neighbours, over an edge of the graph; the start node
    has no predecessor, every other node that was reached has one; the
    start node is settled first; an entry of the open set holds the node
    that the graph keeps under its identifier. *)
Record aStarWalkInv (e : Engine) (s : Node) (st : AStar) : Prop := {
  walk_from : forall n p, cameFrom st !! n = Some p ->
    exists pn, getNode e p = Some (NodeEntry pn) /\ n ∈ neighbors pn /\
               exists w, weightOf (getEdge e p n) = Ok w;
  walk_start : cameFrom st !! node_id s = None;
  walk_reached : forall x, x ∈ closedSet st \/ x ∈ itemIds (openSet st) ->
    x = node_id s \/ is_Some (cameFrom st !! x);
  walk_started : node_id s ∈ closedSet st \/ itemIds (openSet st) = [node_id s];
  walk_open : forall item, item ∈ openSet st ->
    getNode e (node_id (item_node item)) = Some (NodeEntry (item_node item))
}.

(** ** The rest of the server ([backend/server.js]) *)

(** [activeSessions.set(k, s)]: the binding of a known key is replaced in
    place, a new key goes to the end. *)
Fixpoint sessions_put (k : string) (s : Session) (ss : list (string * Session))
  : list (string * Session) :=
  match ss with
  | [] => [(k, s)]
  | (k', s') :: ss' =>
    if String.eqb k k' then (k', s) :: ss' else (k', s') :: sessions_put k s ss'
  end.

(** [cleanupOldSessions()] at time [now]: sessions that started more than
    24 hours ago are deleted. *)
Definition cleanupOldSessions (now : Z) (ss : list (string * Session))
  : list (string * Session) :=
  let cutoffTime := (now - 24 * 60 * 60 * 1000)%Z in
  filter (fun kv => ~ (startTime (snd kv) < cutoffTime)%Z) ss.

(** The identifier [`evac_${Date.now()}_${...}`]; [suffix] is the random
    part, [Math.random().toString(36).substr(2, 9)]. *)
Definition newSessionId (now : Z) (suffix : string) : string :=
  "evac_" +:+ pretty now +:+ "_" +:+ suffix.

(** [createEvacuationSession(userLocation, routeResult)] at time [now]. *)
Definition createEvacuationSession (srv : Server) (now : Z) (suffix : string)
    (userLocation : LatLng) (routeResult : RouteResult) : Server * string :=
  let sessionId := newSessionId now suffix in
  let session :=
    {| session_id := sessionId; startLocation := userLocation;
       currentLocation := userLocation; session_route := routeResult;
       startTime := now; lastUpdate := now; status := "active" |} in
  ({| routeEngine := routeEngine srv; usgsCache := usgsCache srv;
      currentHazards := currentHazards srv;
      activeSessions :=
        cleanupOldSessions now (sessions_put sessionId session (activeSessions srv)) |},
   sessionId).

Inductive CalculateResponse :=
| InvalidLocation400               (* { error: 'Invalid user location' } *)
| CalculateFailed500               (* { error: 'Failed to calculate route' } *)
| RouteJson (sessionId : string) (r : RouteResult).

(** [!x] for a number [x]. *)
Definition falsyNumber (x : Q) : bool := Qeq_bool x 0.

(** A socket of [connectedClients]; the socket object itself is its key. *)
Record Client := {
  connectedAt : Z;
  client_location : option LatLng;
  client_sessionId : option string
}.

(** The server with its sockets. [disconnectedAt] holds the field of that
    name that the disconnect handler adds to a session. *)
Record Hub := {
  hub_server : Server;
  connectedClients : list (string * Client);
  disconnectedAt : gmap string Z
}.

Fixpoint clients_get (cs : list (string * Client)) (k : string) : option Client :=
  match cs with
  | [] => None
  | (k', c) :: cs' => if String.eqb k k' then Some c else clients_get cs' k
  end.

Fixpoint clients_put (k : string) (c : Client) (cs : list (string * Client))
  : list (string * Client) :=
  match cs with
  | [] => [(k, c)]
  | (k', c') :: cs' =>
    if String.eqb k k' then (k', c) :: cs' else (k', c') :: clients_put k c cs'
  end.

Definition clients_delete (k : string) (cs : list (string * Client))
  : list (string * Client) :=
  filter (fun kv => fst kv <> k) cs.

(** [client && client.sessionId]: the session the socket has joined. *)
Definition joinedSession (hub : Hub) (socketId : string) : option string :=
  match clients_get (connectedClients hub) socketId with
  | Some client =>
    match client_sessionId client with
    | Some sessionId => if String.eqb sessionId "" then None else Some sessionId
    | None => None
    end
  | None => None
  end.

Definition setServer (srv : Server) (hub : Hub) : Hub :=
  {| hub_server := srv; connectedClients := connectedClients hub;
     disconnectedAt := disconnectedAt hub |}.

Definition setClients (cs : list (string * Client)) (hub : Hub) : Hub :=
  {| hub_server := hub_server hub; connectedClients := cs;
     disconnectedAt := disconnectedAt hub |}.

Definition disconnectSession (s : Session) : Session :=
  {| session_id := session_id s; startLocation := startLocation s;
     currentLocation := currentLocation s; session_route := session_route s;
     startTime := startTime s; lastUpdate := lastUpdate s; status := "disconnected" |}.

(** [io.on('connection', ...)] *)
Definition onConnection (hub : Hub) (socketId : string) (now : Z) : Hub :=
  setClients
    (clients_put socketId
       {| connectedAt := now; client_location := None; client_sessionId := None |}
       (connectedClients hub))
    hub.

(** [socket.on('join_evacuation', ...)]; the message may lack either
    field. The room that the socket joins is kept by the socket library. *)
Definition onJoinEvacuation (hub : Hub) (socketId : string) (sessionId : option string)
    (location : option LatLng) : Hub :=
  match clients_get (connectedClients hub) socketId with
  | Some client =>
    setClients
      (clients_put socketId
         {| connectedAt := connectedAt client; client_location := location;
            client_sessionId := sessionId |}
         (connectedClients hub))
      hub
  | None => hub
  end.

(** [socket.on('location_update', ...)] at time [now]: the hub after it, and
    the call of [emergencyService.updateEvacueeLocation] it makes, if any. *)
Definition onLocationUpdate (hub : Hub) (socketId : string) (location : LatLng) (now : Z)
  : Hub * option (string * LatLng) :=
  match joinedSession hub socketId with
  | Some sessionId =>
    match sessions_get (activeSessions (hub_server hub)) sessionId with
    | Some session =>
      (setServer
         {| routeEngine := routeEngine (hub_server hub);
            usgsCache := usgsCache (hub_server hub);
            currentHazards := currentHazards (hub_server hub);
            activeSessions :=
              sessions_set sessionId (moveSession location now session)
                           (activeSessions (hub_server hub)) |}
         hub,
       Some (sessionId, location))
    | None => (hub, None)
    end
  | None => (hub, None)
  end.

(** [socket.on('disconnect', ...)] at time [now]. *)
Definition onDisconnect (hub : Hub) (socketId : string) (now : Z) : Hub :=
  let hub1 :=
    match joinedSession hub socketId with
    | Some sessionId =>
      match sessions_get (activeSessions (hub_server hub)) sessionId with
      | Some session =>
        {| hub_server :=
             {| routeEngine := routeEngine (hub_server hub);
                usgsCache := usgsCache (hub_server hub);
                currentHazards := currentHazards (hub_server hub);
                activeSessions :=
                  sessions_set sessionId (disconnectSession session)
                               (activeSessions (hub_server hub)) |};
           connectedClients := connectedClients hub;
           disconnectedAt := <[sessionId := now]> (disconnectedAt hub) |}
      | None => hub
      end
    | None => hub
    end in
  setClients (clients_delete socketId (connectedClients hub1)) hub1.

Section Requests.
Context `{Geo} `{Services}.

(** [POST /api/route/calculate] at time [now]. *)
Definition routeCalculate (srv : Server) (now : Z) (suffix : string)
    (userLocation : option LatLng) : Server * CalculateResponse * list Event :=
  match userLocation with
  | None => (srv, InvalidLocation400, [])
  | Some location =>
    if falsyNumber (lat location) || falsyNumber (lng location)
    then (srv, InvalidLocation400, [])
    else
      let r := calculateSafeRoute (routeEngine srv) location
                 (collection <$> usgsCache srv) (currentHazards srv) in
      let srv1 := setEngine (fst r) srv in
      match snd r with
      | Err _ => (srv1, CalculateFailed500, [Calculating location])
      | Ok routeResult =>
        let created := createEvacuationSession srv1 now suffix location routeResult in
        (fst created, RouteJson (snd created) routeResult, [Calculating location])
      end
  end.

(** What reaches the server and writes its sessions, its sockets, the
    engine or the hazards: the two route requests, a hazard report (over
    HTTP or a socket, as it is handed to the hazard service), the
    earthquake data that the USGS service hands to its subscriber, and the
    socket messages about connection and location. *)
Inductive Request :=
| PostCalculate (now : Z) (suffix : string) (userLocation : option LatLng)
| PostUpdate (now : Z) (sessionId : string) (location : LatLng)
             (reports : list HazardReport)
| ReportHazard (report : HazardReport)
| EarthquakeUpdate (now : Z) (earthquakeData : list Earthquake)
| Connection (socketId : string) (now : Z)
| JoinEvacuation (socketId : string) (sessionId : option string) (location : option LatLng)
| LocationUpdate (socketId : string) (location : LatLng) (now : Z)
| Disconnect (socketId : string) (now : Z).

(** The hub after a request. *)
Definition handle (hub : Hub) (request : Request) : Hub :=
  match request with
  | PostCalculate now suffix userLocation =>
    setServer (fst (fst (routeCalculate (hub_server hub) now suffix userLocation))) hub
  | PostUpdate now sessionId location reports =>
    setServer (fst (fst (routeUpdate (hub_server hub) now sessionId location reports))) hub
  | ReportHazard report =>
    match reportHazard report (currentHazards (hub_server hub)) with
    | Ok hazards => setServer (setHazards hazards (hub_server hub)) hub
    | Err _ => hub
    end
  | EarthquakeUpdate now earthquakeData =>
    setServer (fst (fst (checkAllRoutesForRecalculation (hub_server hub) now earthquakeData)))
              hub
  | Connection socketId now => onConnection hub socketId now
  | JoinEvacuation socketId sessionId location =>
    onJoinEvacuation hub socketId sessionId location
  | LocationUpdate socketId location now => fst (onLocationUpdate hub socketId location now)
  | Disconnect socketId now => onDisconnect hub socketId now
  end.

(** The identifier of the session that a request may create. *)
Definition createdId (request : Request) : option string :=
  match request with
  | PostCalculate now suffix _ => Some (newSessionId now suffix)
  | _ => None
  end.

End Requests.

(** The sessions of a hub, and the property of a Map: no key twice. *)
Definition sessionsOf (hub : Hub) : list (string * Session) :=
  activeSessions (hub_server hub).

Definition uniqueKeys {V} (m : list (string * V)) : Prop := NoDup (map fst m).


(** The hub after a sequence of requests. *)
Definition serve `{Geo} `{Services} (hub : Hub) (requests : list Request) : Hub :=
  fold_left handle requests hub.

(** The requests that may write the route of session [k], [s] being the
    session before the request: an update for [k], and the sweep when [s]
    is active. *)
Definition updatesRoute `{Services} (request : Request) (k : string) (s : Session) : Prop :=
  match request with
  | PostUpdate _ sessionId _ _ => sessionId = k
  | EarthquakeUpdate _ _ => status s = "active"
  | _ => False
  end.

(** What a request may do to a session [s] kept under [k]. *)
Definition sessionStep `{Services} (request : Request) (k : string) (s s' : Session) : Prop :=
  session_id s' = session_id s /\
  startLocation s' = startLocation s /\
  startTime s' = startTime s /\
  (status s' = status s \/ status s' = "disconnected") /\
  (session_route s' = session_route s \/ updatesRoute request k s).


(** The sessions [ss'] after a request that creates none: the same keys in
    the same order, each session a step from the one before. *)
Definition sessionsStep `{Services} (request : Request)
    (ss ss' : list (string * Session)) : Prop :=
  map fst ss' = map fst ss /\
  forall k,
    match sessions_get ss k with
    | None => sessions_get ss' k = None
    | Some s => exists s', sessions_get ss' k = Some s' /\ sessionStep request k s s'
    end.

(** A session of the sample kind that a socket has left. *)
Definition leftSession : Session :=
  {| session_id := "evac_1"; startLocation := origin; currentLocation := origin;
     session_route := sampleRoute; startTime := 0; lastUpdate := 0;
     status := "disconnected" |}.

(** A hub over the one-road map: one session, joined by the socket "s1". *)
Definition sampleHub : Hub :=
  {| hub_server :=
       {| routeEngine := singleRoad; usgsCache := Some [quake 6 1000];
          currentHazards := ∅; activeSessions := [("evac_1", sampleSession)] |};
     connectedClients :=
       [("s1", {| connectedAt := 0; client_location := Some origin;
                  client_sessionId := Some "evac_1" |})];
     disconnectedAt := ∅ |}.


(** The sample hub before the feed was polled: its cache is unset. *)
Definition quietHub : Hub :=
  {| hub_server :=
       {| routeEngine := singleRoad; usgsCache := None;
          currentHazards := ∅; activeSessions := [("evac_1", sampleSession)] |};
     connectedClients := connectedClients sampleHub;
     disconnectedAt := ∅ |}.


(** ** Hazard reports (class [HazardReportingService])

    The tables of the class are object literals; a type or severity that
    names a property of [Object.prototype] is outside the model. *)

(** A report as it comes in; every field may be missing. *)
Record Report := {
  report_type : option string;
  report_location : option LatLng;
  report_severity : option string;
  report_description : option string;
  report_reporterId : option string;
  report_timestamp : option Z;
  report_imageUrl : option string;
  report_confidence : option Q
}.

(** An element of [hazard.reports]. *)
Record ReportEntry := {
  entry_reporterId : option string;
  entry_timestamp : Z;
  entry_description : string;
  entry_imageUrl : option string;
  entry_confidence : Q;
  entry_severity : option string;
  entry_location : option LatLng
}.

(** [`${type}_${lat}_${lng}`] with the coordinates rounded to four
    decimals: the type and the two rounded coordinates, times 10000. *)
Definition HazardId : Type := string * Z * Z.

Record HazardEntry := {
  hz_id : HazardId;
  hz_type : option string;
  hz_location : option LatLng;
  hz_severity : string;
  hz_description : string;
  hz_reports : list ReportEntry;
  firstReported : Z;
  lastUpdated : Z;
  hz_confidence : Q;
  hz_status : string;
  affectedRadius : Q;
  verificationLevel : string;
  evacuationRecommendation : string;
  emergencyServicesNeeded : list string;
  estimatedResolutionTime : Z;
  priorityLevel : string;
  resolvedAt : option Z;
  resolutionNote : option string
}.

Inductive HazardError :=
| InvalidHazardReport    (* Error('Invalid hazard report: missing required fields') *)
| HazardNotFound.        (* Error('Hazard not found') *)

(** What [reportHazard] returns; the hazard is what the subscribers and the
    listeners of [hazard_created] or [hazard_updated] are handed. *)
Inductive ReportOutcome :=
| HazardCreated (hazardId : HazardId) (hazard : HazardEntry)
| HazardUpdated (hazardId : HazardId) (reportCount : nat) (hazard : HazardEntry).

(** [x || ...] for a string, a number and a time. *)
Definition truthyString (o : option string) : option string :=
  match o with
  | Some s => if String.eqb s "" then None else Some s
  | None => None
  end.

Definition truthyNumber (o : option Q) : option Q :=
  match o with
  | Some x => if Qeq_bool x 0 then None else Some x
  | None => None
  end.

Definition truthyTime (o : option Z) : option Z :=
  match o with
  | Some t => if (t =? 0)%Z then None else Some t
  | None => None
  end.

(** [table[key]] for an object literal. *)
Fixpoint table_get {V} (table : list (string * V)) (key : string) : option V :=
  match table with
  | [] => None
  | (k, v) :: table' => if String.eqb key k then Some v else table_get table' key
  end.

(** [Math.round] *)
Definition mathRound (x : Q) : Z := Qfloor (x + 0.5).

Definition generateHazardId (type : string) (location : LatLng) : HazardId :=
  (type, mathRound (lat location * 10000), mathRound (lng location * 10000)).

Definition createReportEntry (hazardReport : Report) (now : Z) : ReportEntry :=
  {| entry_reporterId := report_reporterId hazardReport;
     entry_timestamp := default now (truthyTime (report_timestamp hazardReport));
     entry_description := default "" (truthyString (report_description hazardReport));
     entry_imageUrl := report_imageUrl hazardReport;
     entry_confidence := default 0.7 (truthyNumber (report_confidence hazardReport));
     entry_severity := report_severity hazardReport;
     entry_location := report_location hazardReport |}.

Definition severityMap : list (string * string) :=
  [ ("building_collapse", "critical"); ("fire", "high"); ("gas_leak", "high");
    ("electrical_hazard", "high"); ("debris", "moderate"); ("flooding", "moderate");
    ("road_damage", "moderate"); ("traffic_accident", "low"); ("other", "low") ].

Definition calculateSeverity (hazardReport : Report) : string :=
  match truthyString (report_severity hazardReport) with
  | Some severity => severity
  | None => default "moderate" (report_type hazardReport ≫= table_get severityMap)
  end.

Definition getSeverityLevel (severity : string) : Z :=
  default 2%Z (table_get [("low", 1%Z); ("moderate", 2%Z); ("high", 3%Z); ("critical", 4%Z)]
                         severity).

Definition radiusMap : list (string * Q) :=
  [ ("building_collapse", 0.5); ("fire", 1.0); ("gas_leak", 2.0);
    ("electrical_hazard", 0.3); ("debris", 0.2); ("flooding", 3.0);
    ("road_damage", 0.1); ("traffic_accident", 0.1); ("other", 0.5) ].

Definition calculateAffectedRadius (hazardReport : Report) : Q :=
  default 0.5 (report_type hazardReport ≫= table_get radiusMap).

(** [reports.reduce((sum, report, index) => ..., 0)], from [index] on. *)
Fixpoint weightedSum (reports : list ReportEntry) (index : nat) (sum : Q) : Q :=
  match reports with
  | [] => sum
  | report :: reports' =>
    let timeWeight := 1 / inject_Z (Z.of_nat index + 1) in
    weightedSum reports' (S index) (sum + entry_confidence report * timeWeight)
  end.

Definition calculateAggregateConfidence (reports : list ReportEntry) : Q :=
  match reports with
  | [] => 0
  | [report] => entry_confidence report
  | _ =>
    let totalWeight := inject_Z (Z.of_nat (length reports)) in
    Qmin (weightedSum reports 0 0 / totalWeight * 1.2) 1.0
  end.

Definition calculateVerificationLevel (reports : list ReportEntry) : string :=
  let reportCount := length reports in
  let avgConfidence := calculateAggregateConfidence reports in
  if (5 <=? reportCount)%nat && Qle_bool 0.8 avgConfidence then "verified"
  else if (3 <=? reportCount)%nat && Qle_bool 0.7 avgConfidence then "likely"
  else if (2 <=? reportCount)%nat && Qle_bool 0.6 avgConfidence then "possible"
  else "unverified".

Definition getEvacuationRecommendation (type : option string) : string :=
  default "exercise_caution"
    (type ≫= table_get
       [ ("building_collapse", "immediate_evacuation"); ("fire", "immediate_evacuation");
         ("gas_leak", "immediate_evacuation"); ("electrical_hazard", "avoid_area");
         ("debris", "find_alternate_route"); ("flooding", "seek_higher_ground");
         ("road_damage", "find_alternate_route"); ("traffic_accident", "find_alternate_route");
         ("other", "exercise_caution") ]).

Definition getRequiredEmergencyServices (type : option string) : list string :=
  default ["police"]
    (type ≫= table_get
       [ ("building_collapse", ["search_rescue"; "medical"; "structural_engineers"]);
         ("fire", ["fire_department"; "medical"; "police"]);
         ("gas_leak", ["gas_company"; "fire_department"; "hazmat"]);
         ("electrical_hazard", ["electrical_utility"; "fire_department"]);
         ("debris", ["public_works"; "cleanup_crew"]);
         ("flooding", ["public_works"; "rescue_services"]);
         ("road_damage", ["public_works"; "traffic_control"]);
         ("traffic_accident", ["police"; "medical"; "tow_services"]);
         ("other", ["police"]) ]).

Definition estimateResolutionTime (type : option string) : Z :=
  default 4%Z
    (type ≫= table_get
       [ ("building_collapse", 48%Z); ("fire", 6%Z); ("gas_leak", 4%Z);
         ("electrical_hazard", 8%Z); ("debris", 2%Z); ("flooding", 12%Z);
         ("road_damage", 24%Z); ("traffic_accident", 1%Z); ("other", 4%Z) ]).

Definition calculatePriorityLevel (type : option string) (severity : string) (confidence : Q)
  : string :=
  let severityWeight := inject_Z (getSeverityLevel severity) in
  let confidenceWeight := confidence in
  let typeWeight :=
    match type with
    | Some t =>
      if String.eqb t "building_collapse" || String.eqb t "fire" || String.eqb t "gas_leak"
      then 2 else 1
    | None => 1
    end in
  let priority := severityWeight * confidenceWeight * typeWeight in
  if Qle_bool 6 priority then "critical"
  else if Qle_bool 4 priority then "high"
  else if Qle_bool 2 priority then "medium"
  else "low".

(** [createNewHazard(hazardId, hazardReport)] at time [now]: the hazard it
    stores, [enhanceHazardData] applied. The verification level is
    computed from the report itself; with one report it does not depend on
    the confidence. *)
Definition createNewHazard (hazardId : HazardId) (hazardReport : Report) (now : Z)
  : HazardEntry :=
  let severity := calculateSeverity hazardReport in
  let confidence := default 0.7 (truthyNumber (report_confidence hazardReport)) in
  {| hz_id := hazardId;
     hz_type := report_type hazardReport;
     hz_location := report_location hazardReport;
     hz_severity := severity;
     hz_description := default "" (truthyString (report_description hazardReport));
     hz_reports := [createReportEntry hazardReport now];
     firstReported := default now (truthyTime (report_timestamp hazardReport));
     lastUpdated := now;
     hz_confidence := confidence;
     hz_status := "active";
     affectedRadius := calculateAffectedRadius hazardReport;
     verificationLevel := calculateVerificationLevel [createReportEntry hazardReport now];
     evacuationRecommendation := getEvacuationRecommendation (report_type hazardReport);
     emergencyServicesNeeded := getRequiredEmergencyServices (report_type hazardReport);
     estimatedResolutionTime := estimateResolutionTime (report_type hazardReport);
     priorityLevel := calculatePriorityLevel (report_type hazardReport) severity confidence;
     resolvedAt := None;
     resolutionNote := None |}.

(** [updateExistingHazard(existingHazard, hazardReport)] at time [now]. *)
Definition updateExistingHazard (existingHazard : HazardEntry) (hazardReport : Report)
    (now : Z) : HazardEntry :=
  let reports := hz_reports existingHazard ++ [createReportEntry hazardReport now] in
  let newSeverity := calculateSeverity hazardReport in
  let newRadius := calculateAffectedRadius hazardReport in
  {| hz_id := hz_id existingHazard;
     hz_type := hz_type existingHazard;
     hz_location := hz_location existingHazard;
     hz_severity :=
       if (getSeverityLevel (hz_severity existingHazard) <? getSeverityLevel newSeverity)%Z
       then newSeverity else hz_severity existingHazard;
     hz_description := hz_description existingHazard;
     hz_reports := reports;
     firstReported := firstReported existingHazard;
     lastUpdated := now;
     hz_confidence := calculateAggregateConfidence reports;
     hz_status := hz_status existingHazard;
     affectedRadius := Qmax (affectedRadius existingHazard) newRadius;
     verificationLevel := calculateVerificationLevel reports;
     evacuationRecommendation := evacuationRecommendation existingHazard;
     emergencyServicesNeeded := emergencyServicesNeeded existingHazard;
     estimatedResolutionTime := estimatedResolutionTime existingHazard;
     priorityLevel := priorityLevel existingHazard;
     resolvedAt := resolvedAt existingHazard;
     resolutionNote := resolutionNote existingHazard |}.

(** [reportHazard(hazardReport)] at time [now]: the hazards after the call,
    and what it returns or throws. *)
Definition reportHazardEntry (hazards : gmap HazardId HazardEntry) (hazardReport : Report)
    (now : Z) : gmap HazardId HazardEntry * (HazardError + ReportOutcome) :=
  match truthyString (report_type hazardReport), report_location hazardReport with
  | Some type, Some location =>
    if Qeq_bool (lat location) 0 || Qeq_bool (lng location) 0
    then (hazards, inl InvalidHazardReport)
    else
      let hazardId := generateHazardId type location in
      match hazards !! hazardId with
      | Some existingHazard =>
        let hazard := updateExistingHazard existingHazard hazardReport now in
        (<[hazardId := hazard]> hazards,
         inr (HazardUpdated (hz_id existingHazard) (length (hz_reports hazard)) hazard))
      | None =>
        let hazard := createNewHazard hazardId hazardReport now in
        (<[hazardId := hazard]> hazards, inr (HazardCreated hazardId hazard))
      end
  | _, _ => (hazards, inl InvalidHazardReport)
  end.

(** [resolveHazard(hazardId, resolutionNote)] at time [now]. *)
Definition resolveHazard (hazards : gmap HazardId HazardEntry) (hazardId : HazardId)
    (note : string) (now : Z) : gmap HazardId HazardEntry * (HazardError + HazardEntry) :=
  match hazards !! hazardId with
  | None => (hazards, inl HazardNotFound)
  | Some hazard =>
    let resolved :=
      {| hz_id := hz_id hazard; hz_type := hz_type hazard; hz_location := hz_location hazard;
         hz_severity := hz_severity hazard; hz_description := hz_description hazard;
         hz_reports := hz_reports hazard; firstReported := firstReported hazard;
         lastUpdated := lastUpdated hazard; hz_confidence := hz_confidence hazard;
         hz_status := "resolved"; affectedRadius := affectedRadius hazard;
         verificationLevel := verificationLevel hazard;
         evacuationRecommendation := evacuationRecommendation hazard;
         emergencyServicesNeeded := emergencyServicesNeeded hazard;
         estimatedResolutionTime := estimatedResolutionTime hazard;
         priorityLevel := priorityLevel hazard;
         resolvedAt := Some now; resolutionNote := Some note |} in
    (<[hazardId := resolved]> hazards, inr resolved)
  end.

(** The test of [cleanupOldHazards] at time [now]: the hazard is deleted. *)
Definition cleanedUp (now : Z) (hazard : HazardEntry) : bool :=
  let age := (now - firstReported hazard)%Z in
  let maxHazardAge := (24 * 60 * 60 * 1000)%Z in
  if String.eqb (hz_status hazard) "resolved" && (60 * 60 * 1000 <? age)%Z then true
  else String.eqb (verificationLevel hazard) "unverified" && (maxHazardAge <? age)%Z.

Definition cleanupOldHazards (hazards : gmap HazardId HazardEntry) (now : Z)
  : gmap HazardId HazardEntry :=
  filter (fun kv => cleanedUp now (snd kv) = false) hazards.

(** The harmonic number: the sum of the weights [1 / (index + 1)] of [n]
    reports. *)
Fixpoint harmonic (n : nat) : Q :=
  match n with
  | O => 0
  | S n' => harmonic n' + 1 / inject_Z (Z.of_nat n' + 1)
  end.


(** What reaches the hazard service: a report, a resolution, and the
    hourly clean-up. *)
Inductive HazardRequest :=
| ReportIn (hazardReport : Report) (now : Z)
| ResolveIn (hazardId : HazardId) (note : string) (now : Z)
| CleanupIn (now : Z).

Definition hazardStep (hazards : gmap HazardId HazardEntry) (request : HazardRequest)
  : gmap HazardId HazardEntry :=
  match request with
  | ReportIn hazardReport now => fst (reportHazardEntry hazards hazardReport now)
  | ResolveIn hazardId note now => fst (resolveHazard hazards hazardId note now)
  | CleanupIn now => cleanupOldHazards hazards now
  end.

(** The hazards of a service that has served [requests] since it started. *)
Definition hazardRun (requests : list HazardRequest) : gmap HazardId HazardEntry :=
  fold_left hazardStep requests ∅.

(** A confidence is a probability: no report claims more than 1. *)
Definition atMostCertain (request : HazardRequest) : Prop :=
  match request with
  | ReportIn hazardReport _ => forall c, report_confidence hazardReport = Some c -> c <= 1
  | _ => True
  end.

(** A fire reported with confidence [c]. *)
Definition fireReport (c : Q) : Report :=
  {| report_type := Some "fire"; report_location := Some origin; report_severity := None;
     report_description := None; report_reporterId := None; report_timestamp := None;
     report_imageUrl := None; report_confidence := Some c |}.


(** What the service keeps of a hazard stored under [k]: it carries its
    key, has at least one report, none more than certain, and its
    verification level is the one of its reports. *)
Definition consistentHazard (k : HazardId) (h : HazardEntry) : Prop :=
  hz_id h = k /\ hz_reports h <> [] /\
  (forall r, r ∈ hz_reports h -> entry_confidence r <= 1) /\
  verificationLevel h = calculateVerificationLevel (hz_reports h).


(** ** The earthquake feed ([backend/services/usgs-api.js]) *)

(** A feature of a feed: the identifiers that [mergeEarthquakeData] reads,
    and the coordinates, magnitude and time. *)
Record Feature := {
  feature_id : option string;       (* feature.id *)
  feature_ids : option string;      (* feature.properties.ids *)
  feature_quake : Earthquake
}.

(** A feature after [processEarthquakeData]. *)
Record Enhanced := {
  enhanced_feature : Feature;
  eq_riskLevel : string;
  shindoIntensity : Z;
  timeSince : Z;
  urgent : bool;
  affectedRadiusKm : Q
}.

Class Exponential := {
  (** [Math.pow(10, x)] *)
  pow10 : Q -> Q
}.

(** [feature.id || feature.properties.ids]; [None] is undefined. *)
Definition featureKey (feature : Feature) : option string :=
  match truthyString (feature_id feature) with
  | Some id => Some id
  | None => feature_ids feature
  end.

(** The body of the inner loop of [mergeEarthquakeData]: the identifiers
    seen and the features merged so far. *)
Definition mergeFeature (acc : list (option string) * list Feature) (feature : Feature)
  : list (option string) * list Feature :=
  let id := featureKey feature in
  if bool_decide (id ∈ fst acc) then acc
  else (fst acc ++ [id], snd acc ++ [feature]).

(** [dataset && dataset.features]: a dataset without features is skipped. *)
Definition mergeDataset (acc : list (option string) * list Feature)
    (dataset : option (list Feature)) : list (option string) * list Feature :=
  match dataset with
  | Some features => fold_left mergeFeature features acc
  | None => acc
  end.

(** [mergedFeatures.sort((a, b) => new Date(b.properties.time) - new
    Date(a.properties.time))]: [Array.prototype.sort] is stable, so the
    result is the one of an insertion that keeps the order of equal times. *)
Fixpoint insertByTime (x : Feature) (l : list Feature) : list Feature :=
  match l with
  | [] => [x]
  | y :: l' =>
    if (time (feature_quake y) <=? time (feature_quake x))%Z then x :: y :: l'
    else y :: insertByTime x l'
  end.

Definition sortByTime (l : list Feature) : list Feature := fold_right insertByTime [] l.

(** [mergeEarthquakeData(datasets)]: the features of the collection. *)
Definition mergeEarthquakeData (datasets : list (option (list Feature))) : list Feature :=
  sortByTime (snd (fold_left mergeDataset datasets ([], []))).

Definition calculateRiskLevel (magnitude depth : Q) : string :=
  if Qle_bool 7.0 magnitude then "EXTREME"
  else if Qle_bool 6.0 magnitude then "SEVERE"
  else if Qle_bool 5.0 magnitude then "HIGH"
  else if Qle_bool 4.0 magnitude then "MODERATE"
  else "LOW".

Definition estimateShindoIntensity `{Geo} (magnitude depth : Q) : Z :=
  let intensityAtSource := magnitude - 3.0 * log10 depth + 3.0 in
  Z.max 0 (Z.min 7 (mathRound intensityAtSource)).

Definition estimateAffectedRadius `{Exponential} (magnitude : Q) : Q :=
  pow10 (magnitude - 3.0) * 10.

Section Feed.
Context `{Geo} `{Exponential}.

Definition enhance (now : Z) (feature : Feature) : Enhanced :=
  let props := feature_quake feature in
  let since := (now - time props)%Z in
  {| enhanced_feature := feature;
     eq_riskLevel := calculateRiskLevel (mag props) (eq_depth props);
     shindoIntensity := estimateShindoIntensity (mag props) (eq_depth props);
     timeSince := since;
     urgent := Qle_bool 5.0 (mag props) && (since <? 3600000)%Z;
     affectedRadiusKm := estimateAffectedRadius (mag props) |}.

(** [processEarthquakeData(rawData)] at time [now]: the features of the
    collection and [metadata.urgent_count]. *)
Definition processEarthquakeData (now : Z) (rawData : option (list Feature))
  : list Enhanced * nat :=
  match rawData with
  | None => ([], O)
  | Some features =>
    let processedFeatures := map (enhance now) features in
    (processedFeatures, length (filter (fun f => urgent f = true) processedFeatures))
  end.

(** [fetchAllEarthquakeData()] at time [now], [feeds] being the answers for
    the hour, the day, the week and the month: what it stores under
    [current_earthquakes] and hands to the subscribers. *)
Definition fetchAllEarthquakeData (now : Z) (feeds : list (option (list Feature)))
  : list Enhanced * nat :=
  let combinedData := mergeEarthquakeData feeds in
  processEarthquakeData now (Some combinedData).

End Feed.

(** What the engine and the server read of a processed feature. *)
Definition quakeOf (f : Enhanced) : Earthquake := feature_quake (enhanced_feature f).

(** [getEarthquakesByMagnitude(minMagnitude)] *)
Definition getEarthquakesByMagnitude (cache : option (list Earthquake)) (minMagnitude : Q)
  : list Earthquake :=
  match cache with
  | None => []
  | Some fs => filter (fun feature => Qle_bool minMagnitude (mag feature) = true) fs
  end.

(** *** Subscribers (the same code in the feed and in the hazard service)

    Callbacks are compared by identity. *)
Section Subscribers.
Context {Callback : Type} `{EqDecision Callback}.


(** [indexOf] and [splice(index, 1)] *)
Fixpoint unsubscribe (callback : Callback) (subscribers : list Callback) : list Callback :=
  match subscribers with
  | [] => []
  | c :: subscribers' =>
    if decide (c = callback) then subscribers' else c :: unsubscribe callback subscribers'
  end.


End Subscribers.

Section FeedToServer.
Context `{Geo} `{Exponential} `{Services}.

(** A poll of the feed at time [now] as the server sees it: the service
    stores the processed data, then calls the server's subscriber, which
    broadcasts the data to every socket and sweeps the sessions. The sweep
    is not awaited: an exception that ends it is nobody's to catch. *)
Definition pollFeed (hub : Hub) (now : Z) (feeds : list (option (list Feature)))
  : Hub * list Event :=
  let processedData := map quakeOf (fst (fetchAllEarthquakeData now feeds)) in
  let srv := hub_server hub in
  let srv1 := {| routeEngine := routeEngine srv; usgsCache := Some processedData;
                 currentHazards := currentHazards srv;
                 activeSessions := activeSessions srv |} in
  let swept := checkAllRoutesForRecalculation srv1 now processedData in
  (setServer (fst (fst swept)) hub, EarthquakeBroadcast processedData :: snd (fst swept)).

End FeedToServer.

(** A feature of magnitude [m] at time [t] under the identifier [i]. *)
Definition feature (i : string) (m : Q) (t : Z) : Feature :=
  {| feature_id := Some i; feature_ids := None; feature_quake := quake m t |}.

(** [Math.pow(10, x)] on whole numbers, to run the feed. *)
Definition whole_pow10 : Exponential :=
  {| pow10 := fun x => if (0 <=? Qfloor x)%Z then inject_Z (10 ^ Qfloor x)
                       else 1 / inject_Z (10 ^ (- Qfloor x)) |}.


(** The features of the datasets that have any, in the order of the loops
    of [mergeEarthquakeData]. *)
Definition allFeatures (datasets : list (option (list Feature))) : list Feature :=
  concat (omap (fun dataset => dataset) datasets).

(** Newest first: no feature is older than one that comes after it. *)
Fixpoint newestFirst (l : list Feature) : Prop :=
  match l with
  | [] => True
  | x :: l' =>
    (forall y, y ∈ l' -> (time (feature_quake y) <= time (feature_quake x))%Z) /\
    newestFirst l'
  end.


(** ** Predicates of the completeness of the search *)

(** A graph on which the search finds what it reads: every node is stored
    once, under its identifier, every neighbour it lists is a node of the
    graph, and the edge to it is stored in one direction or the other. *)
Definition wellFormedGraph (e : Engine) : Prop :=
  nodesKeyed (cityGraph e) /\ NoDup (map fst (cityGraph e)) /\
  forall k n nb, getNode e k = Some (NodeEntry n) -> nb ∈ neighbors n ->
    (exists m, getNode e nb = Some (NodeEntry m)) /\
    (exists edge, getEdge e k nb = Some (EdgeEntry edge)).

(** [b] is listed as a neighbour of the node [a]; [reachable] follows such
    steps. *)
Definition linked (e : Engine) (a b : string) : Prop :=
  exists n, getNode e a = Some (NodeEntry n) /\ b ∈ neighbors n.

Definition reachable (e : Engine) : string -> string -> Prop := rtc (linked e).

(** What the loop of [aStarAlgorithm] keeps of the nodes it has met: the
    start node is met; the neighbours of a settled node are met, but for
    the neighbours [pending] of the node [cur] that is being expanded; the
    goal is not settled; the nodes with a [gScore] are the nodes met, and
    they can be reached from the start node. *)
Record aStarReachInv (e : Engine) (s goalNode : Node) (cur : string)
    (pending : list string) (st : AStar) : Prop := {
  reach_start : node_id s ∈ closedSet st \/ node_id s ∈ itemIds (openSet st);
  reach_closed : forall c n nb,
    c ∈ closedSet st -> getNode e c = Some (NodeEntry n) -> nb ∈ neighbors n ->
    nb ∈ closedSet st \/ nb ∈ itemIds (openSet st) \/ (c = cur /\ nb ∈ pending);
  reach_goal : node_id goalNode ∉ closedSet st;
  reach_scored : forall x,
    x ∈ closedSet st \/ x ∈ itemIds (openSet st) -> is_Some (gScore st !! x);
  reach_known : forall x,
    is_Some (gScore st !! x) -> x ∈ closedSet st \/ x ∈ itemIds (openSet st);
  reach_linked : forall x,
    x ∈ closedSet st \/ x ∈ itemIds (openSet st) -> reachable e (node_id s) x
}.

(** * Properties *)

(** ** Numbers *)

Lemma Qltb_lt x y : Qltb x y = true <-> x < y.
Proof.
  unfold Qltb. rewrite negb_true_iff.
  destruct (Qle_bool y x) eqn:E.
  - apply Qle_bool_iff in E. split; [discriminate | intros; lra].
  - split; [intros _ | reflexivity].
    destruct (Qlt_le_dec x y) as [|Hle]; [assumption |].
    apply Qle_bool_iff in Hle. congruence.
Qed.

Lemma Qltb_ge x y : Qltb x y = false <-> y <= x.
Proof.
  unfold Qltb. rewrite negb_false_iff. apply Qle_bool_iff.
Qed.

Ltac qdiv := unfold Qdiv in *; cbn [Qinv Qnum Qden] in *.

(** Replaces a [Qmin] or [Qmax] of the goal by a variable with its
    defining inequalities. *)
Ltac qminmax :=
  repeat match goal with
  | |- context [Qmin ?a ?b] =>
    let H := fresh "Hmin" in
    pose proof (Q.min_spec a b) as H; revert H; generalize (Qmin a b); intros ? H
  | |- context [Qmax ?a ?b] =>
    let H := fresh "Hmax" in
    pose proof (Q.max_spec a b) as H; revert H; generalize (Qmax a b); intros ? H
  end.

(** ** Risk model: every term lies in the unit interval *)

Section RiskBounds.
Context `{Geo}.

Lemma calculateShindoIntensity_range magnitude distance depth i :
  calculateShindoIntensity magnitude distance depth = Some i -> 0 <= i <= 7.
Proof.
  unfold calculateShindoIntensity.
  destruct (Qltb _ 0); [discriminate |].
  destruct (Qeq_bool _ 0); [intros [= <-]; lra |].
  cbv zeta. intros [= <-].
  generalize (magnitude - 3 * log10 (distance + depth) + 3). intros x.
  qminmax. lra.
Qed.

Lemma calculateShindoIntensity_NaN magnitude distance depth :
  calculateShindoIntensity magnitude distance depth = None <-> distance + depth < 0.
Proof.
  unfold calculateShindoIntensity.
  destruct (Qltb (distance + depth) 0) eqn:E.
  - apply Qltb_lt in E. tauto.
  - apply Qltb_ge in E. destruct (Qeq_bool _ 0); (split; [discriminate | lra]).
Qed.

Lemma earthquakeRisk_range edge earthquake r :
  earthquakeRisk edge earthquake = Some r -> 0 <= r <= 1.
Proof.
  unfold earthquakeRisk. cbv zeta.
  destruct (calculateShindoIntensity _ _ _) as [i|] eqn:E; [| discriminate].
  cbn. intros [= <-]. apply calculateShindoIntensity_range in E.
  qminmax. qdiv. lra.
Qed.

Lemma earthquakeRisk_NaN edge earthquake :
  earthquakeRisk edge earthquake = None <-> attenuationNaN edge earthquake.
Proof.
  unfold earthquakeRisk, attenuationNaN. cbv zeta.
  rewrite <- calculateShindoIntensity_NaN with (magnitude := mag earthquake).
  destruct (calculateShindoIntensity _ _ _); cbn; split; congruence.
Qed.

Lemma maxRisk_NaN edge fs :
  fold_left (fun maxRisk earthquake => mathMax maxRisk (earthquakeRisk edge earthquake))
            fs None = None.
Proof. induction fs as [|f fs IH]; [reflexivity | exact IH]. Qed.

Lemma maxRisk_range edge fs maxRisk r :
  0 <= maxRisk <= 1 ->
  fold_left (fun maxRisk earthquake => mathMax maxRisk (earthquakeRisk edge earthquake))
            fs (Some maxRisk) = Some r ->
  maxRisk <= r /\ r <= 1.
Proof.
  revert maxRisk. induction fs as [|f fs IH]; intros m Hm; cbn [fold_left].
  - intros [= <-]. lra.
  - destruct (earthquakeRisk edge f) as [x|] eqn:E; cbn [mathMax].
    + apply earthquakeRisk_range in E. intros Hr.
      apply IH in Hr; [| revert Hr; qminmax; lra].
      revert Hr. qminmax. lra.
    + rewrite maxRisk_NaN. discriminate.
Qed.

(** The running maximum is NaN exactly when some event makes it so. *)
Lemma maxRisk_defined edge fs maxRisk :
  fold_left (fun maxRisk earthquake => mathMax maxRisk (earthquakeRisk edge earthquake))
            fs (Some maxRisk) = None
  <-> exists q, q ∈ fs /\ attenuationNaN edge q.
Proof.
  revert maxRisk. induction fs as [|f fs IH]; intros m; cbn [fold_left].
  - split; [discriminate | intros (q & Hq & _); inversion Hq].
  - destruct (earthquakeRisk edge f) as [x|] eqn:E; cbn [mathMax].
    + rewrite IH. split.
      * intros (q & Hq & Hn). exists q. split; [apply list_elem_of_further, Hq | exact Hn].
      * intros (q & Hq & Hn). apply elem_of_cons in Hq as [-> | Hq].
        -- apply earthquakeRisk_NaN in Hn. congruence.
        -- exists q. split; assumption.
    + rewrite maxRisk_NaN. split; [intros _ | reflexivity].
      exists f. split; [apply list_elem_of_here | apply earthquakeRisk_NaN, E].
Qed.

Lemma calculateSeismicRisk_range edge data r :
  calculateSeismicRisk edge data = Some r -> 0 <= r <= 1.
Proof.
  unfold calculateSeismicRisk. destruct data as [d|]; [| intros [= <-]; lra].
  destruct (features d) as [fs|]; [| intros [= <-]; lra].
  intros Hr. apply maxRisk_range in Hr; lra.
Qed.

Lemma calculateSeismicRisk_NaN edge data :
  calculateSeismicRisk edge data = None
  <-> exists q, q ∈ eventsOf data /\ attenuationNaN edge q.
Proof.
  unfold calculateSeismicRisk, eventsOf. destruct data as [d|].
  - destruct (features d) as [fs|]; cbn [default].
    + apply maxRisk_defined.
    + split; [discriminate | intros (q & Hq & _); inversion Hq].
  - split; [discriminate | intros (q & Hq & _); inversion Hq].
Qed.

Lemma calculateStructuralRisk_range e edge :
  0.2 <= calculateStructuralRisk e edge <= 0.8.
Proof.
  unfold calculateStructuralRisk.
  destruct (structuralRiskMap e !! edge_id edge) as [sd|]; [| lra].
  cbv zeta.
  destruct (Qltb 50 (averageAge sd)), (String.eqb (constructionType sd) _),
    (previousDamage sd); qminmax; qdiv; lra.
Qed.

Lemma riskScore_nonneg hazards acc :
  0 <= acc ->
  0 <= fold_left (fun riskScore hazard => riskScore + hazardScore hazard) hazards acc.
Proof.
  revert acc. induction hazards as [|h hs IH]; intros acc Hacc; [exact Hacc |].
  cbn [fold_left]. apply IH. unfold hazardScore.
  repeat match goal with |- context [if ?b then _ else _] => destruct b end; lra.
Qed.

Lemma getHazardReports_range e edge : 0 <= getHazardReports e edge <= 1.
Proof.
  unfold getHazardReports. cbv zeta.
  match goal with |- context [fold_left ?f ?l 0] =>
    pose proof (riskScore_nonneg l 0 ltac:(lra)) as Hs; revert Hs;
    generalize (fold_left f l 0) end.
  intros s Hs. qminmax. lra.
Qed.

Lemma getCrowdDensity_le e edge : getCrowdDensity e edge <= 1.
Proof. unfold getCrowdDensity. cbv zeta. qminmax. lra. Qed.

Lemma getCrowdDensity_range e edge :
  densitiesNonNegative e -> 0 <= getCrowdDensity e edge <= 1.
Proof.
  intros Hd. unfold getCrowdDensity. cbv zeta.
  assert (0 <= default 0 (crowdDensityMap e !! edge_id edge)) as Hx.
  { destruct (crowdDensityMap e !! edge_id edge) as [d|] eqn:E; cbn; [eauto | lra]. }
  revert Hx. generalize (default 0 (crowdDensityMap e !! edge_id edge)).
  intros d Hx. qminmax. qdiv. lra.
Qed.

End RiskBounds.

(** ** The edge cost *)

Section EdgeCost.
Context `{Geo}.

Lemma edgeWeight_cases e edge s :
  calculateSeismicRisk edge (seismicData e) = Some s ->
  let st := calculateStructuralRisk e edge in
  let c := specCost s st (getCrowdDensity e edge) (getHazardReports e edge) (baseDistance edge) in
  exists w, edgeWeight e edge = Some w /\
    ((0.8 < s \/ 0.9 < st) -> w == 3 * c) /\
    (~ (0.8 < s \/ 0.9 < st) -> w == c).
Proof.
  intros Hs. cbv zeta. unfold edgeWeight. rewrite Hs. cbn [mbind option_bind].
  eexists. split; [reflexivity |].
  unfold specCost, riskBlend.
  destruct (Qltb 0.8 s) eqn:E1;
    [apply Qltb_lt in E1 | apply Qltb_ge in E1];
    (destruct (Qltb 0.9 (calculateStructuralRisk e edge)) eqn:E2;
     [apply Qltb_lt in E2 | apply Qltb_ge in E2]);
    cbn [orb]; split; intros Hc; try lra; try (exfalso; apply Hc; tauto);
    destruct Hc; lra.
Qed.

Lemma edgeWeight_NaN e edge :
  edgeWeight e edge = None <-> calculateSeismicRisk edge (seismicData e) = None.
Proof.
  unfold edgeWeight. destruct (calculateSeismicRisk edge (seismicData e)); cbn;
    split; congruence.
Qed.

Lemma edgeWeight_floor e edge w :
  densitiesNonNegative e -> 0 <= baseDistance edge ->
  edgeWeight e edge = Some w ->
  0 <= w /\ 0.1 * baseDistance edge <= w.
Proof.
  intros Hd Hb. unfold edgeWeight.
  destruct (calculateSeismicRisk edge (seismicData e)) as [s|] eqn:E; [| discriminate].
  cbn [mbind option_bind]. intros [= <-].
  pose proof (calculateSeismicRisk_range edge (seismicData e) s E) as Hs.
  pose proof (calculateStructuralRisk_range e edge) as Hst.
  pose proof (getCrowdDensity_range e edge Hd) as Hc.
  pose proof (getHazardReports_range e edge) as Hh.
  unfold riskBlend.
  destruct (_ || _); lra.
Qed.

(** *** The loop of [updateEdgeWeights] *)

Lemma nodeSeismicRisk_cases data :
  (hasFeature data = false /\ exists r, nodeSeismicRisk data = Ok r) \/
  (hasFeature data = true /\ nodeSeismicRisk data = Err InvalidCoordinates).
Proof.
  unfold hasFeature, eventsOf, nodeSeismicRisk.
  destruct data as [[[[|q fs]|]]|]; cbn [features default]; eauto.
Qed.

Lemma updateEntry_cases e en :
  updateEntry e en = Ok (writeWeight e en) \/
  (updateEntry e en = Err InvalidCoordinates /\
   hasFeature (seismicData e) = true /\ exists n, en = NodeEntry n).
Proof.
  destruct en as [n|edge]; cbn [updateEntry writeWeight]; [| left; reflexivity].
  destruct (nodeSeismicRisk_cases (seismicData e)) as [(_ & r & ->) | (Hf & ->)].
  - left. reflexivity.
  - right. eauto.
Qed.

Lemma updateEntry_edge e edge :
  updateEntry e (EdgeEntry edge) = Ok (EdgeEntry (setWeight (edgeWeight e edge) edge)).
Proof. reflexivity. Qed.

Lemma updateEntry_quiet e en :
  hasFeature (seismicData e) = false -> updateEntry e en = Ok (writeWeight e en).
Proof.
  intros Hf. destruct (updateEntry_cases e en) as [-> | (_ & Ht & _)]; [reflexivity |].
  congruence.
Qed.

(** When the loop runs to its end every entry holds its new weight. *)
Lemma updateEntries_ok e g :
  snd (updateEntries e g) = Ok tt ->
  fst (updateEntries e g) = map (fun kv => (fst kv, writeWeight e (snd kv))) g.
Proof.
  induction g as [|[k en] g IH]; cbn [updateEntries]; [reflexivity |].
  destruct (updateEntry_cases e en) as [-> | (-> & _)]; cbn [fst snd]; [| discriminate].
  intros Hr. rewrite (IH Hr). reflexivity.
Qed.

(** The loop throws at a node, and only under a snapshot with an event. *)
Lemma updateEntries_throws e g x :
  snd (updateEntries e g) = Err x ->
  x = InvalidCoordinates /\ hasFeature (seismicData e) = true /\ nodesOf g <> [].
Proof.
  induction g as [|[k en] g IH]; cbn [updateEntries]; [discriminate |].
  destruct (updateEntry_cases e en) as [-> | (-> & Hf & n & ->)]; cbn [fst snd].
  - intros Hr. destruct (IH Hr) as (-> & Hf & Hn). repeat split; [exact Hf |].
    unfold nodesOf in *. cbn [omap snd]. destruct en; [discriminate | exact Hn].
  - intros [= <-]. repeat split; [exact Hf | discriminate].
Qed.

Lemma updateEntries_completes e g :
  hasFeature (seismicData e) = false \/ nodesOf g = [] ->
  snd (updateEntries e g) = Ok tt.
Proof.
  intros Hq. destruct (snd (updateEntries e g)) as [[]|x] eqn:E; [reflexivity |].
  destruct (updateEntries_throws e g x E) as (_ & Hf & Hn).
  destruct Hq; congruence.
Qed.

Lemma updateEntries_stops e g :
  hasFeature (seismicData e) = true -> nodesOf g <> [] ->
  snd (updateEntries e g) = Err InvalidCoordinates.
Proof.
  intros Hf. induction g as [|[k en] g IH]; intros Hn; [contradiction |].
  cbn [updateEntries]. destruct en as [n|edge].
  - cbn [updateEntry].
    destruct (nodeSeismicRisk_cases (seismicData e)) as [(Hq & _) | (_ & ->)]; [congruence |].
    reflexivity.
  - cbn [updateEntry fst snd]. apply IH. exact Hn.
Qed.

(** An edge that no node precedes, or any edge under a snapshot without an
    event, holds its new weight after the loop, wherever the loop ends. *)
Lemma updateEntries_prefix e before key edge after :
  hasFeature (seismicData e) = false \/ nodesOf before = [] ->
  fst (updateEntries e (before ++ (key, EdgeEntry edge) :: after)) !! length before
  = Some (key, EdgeEntry (setWeight (edgeWeight e edge) edge)).
Proof.
  induction before as [|[k en] before IH]; intros Hq.
  - cbn [app updateEntries updateEntry fst snd length]. reflexivity.
  - cbn [app updateEntries length].
    assert (updateEntry e en = Ok (writeWeight e en)) as ->.
    { destruct Hq as [Hf | Hn]; [apply updateEntry_quiet, Hf |].
      destruct en as [n|a]; [discriminate | reflexivity]. }
    cbn [fst snd]. change ((?x :: ?l) !! S ?i) with (l !! i). apply IH.
    destruct Hq as [Hf | Hn]; [left; exact Hf | right].
    unfold nodesOf in *. cbn [omap snd] in Hn. destruct en; [discriminate | exact Hn].
Qed.

(** The loop rewrites weights and nothing else. *)
Lemma baseEntry_writeWeight e en : baseEntry (writeWeight e en) = baseEntry en.
Proof. destruct en as [n|[]]; reflexivity. Qed.

Lemma baseGraph_updateEntries e g : baseGraph (fst (updateEntries e g)) = baseGraph g.
Proof.
  induction g as [|[k en] g IH]; cbn [updateEntries]; [reflexivity |].
  destruct (updateEntry_cases e en) as [-> | (-> & _)]; cbn [fst snd]; [| reflexivity].
  unfold baseGraph in *. cbn [map fst snd]. rewrite IH, baseEntry_writeWeight. reflexivity.
Qed.

End EdgeCost.

(** ** What a calculation writes, and what it reads *)

Section Frame.
Context `{Geo}.

Lemma sameBase_refl e : sameBase e e.
Proof. repeat split. Qed.

Lemma sameBase_sym e1 e2 : sameBase e1 e2 -> sameBase e2 e1.
Proof. intros (? & ? & ? & ?). repeat split; congruence. Qed.

Lemma sameBase_trans e1 e2 e3 : sameBase e1 e2 -> sameBase e2 e3 -> sameBase e1 e3.
Proof. intros (? & ? & ? & ?) (? & ? & ? & ?). repeat split; congruence. Qed.

(** The cost of an edge is computed from its fixed fields and from the
    read-only maps: the weight it holds is not read. *)
Lemma edgeWeight_base e1 e2 a b :
  seismicData e1 = seismicData e2 -> hazardMap e1 = hazardMap e2 ->
  crowdDensityMap e1 = crowdDensityMap e2 ->
  structuralRiskMap e1 = structuralRiskMap e2 ->
  setWeight None a = setWeight None b ->
  edgeWeight e1 a = edgeWeight e2 b.
Proof.
  intros Hs Hh Hc Hst Hab.
  destruct a as [ia la ga da wa], b as [ib lb gb db wb].
  unfold setWeight in Hab. cbn in Hab. injection Hab as -> -> -> ->.
  unfold edgeWeight, calculateSeismicRisk, earthquakeRisk, calculateStructuralRisk,
    getCrowdDensity, getHazardReports.
  cbn [edge_id startLat startLng baseDistance].
  rewrite Hs, Hh, Hc, Hst. reflexivity.
Qed.

Lemma updateEntry_base e1 e2 x y :
  seismicData e1 = seismicData e2 -> hazardMap e1 = hazardMap e2 ->
  crowdDensityMap e1 = crowdDensityMap e2 ->
  structuralRiskMap e1 = structuralRiskMap e2 ->
  baseEntry x = baseEntry y ->
  updateEntry e1 x = updateEntry e2 y.
Proof.
  intros Hs Hh Hc Hst Hxy.
  destruct x as [n|a], y as [m|b]; cbn [baseEntry] in Hxy; try discriminate.
  - injection Hxy as ->. cbn [updateEntry]. rewrite Hs. reflexivity.
  - assert (setWeight None a = setWeight None b) as Hab by congruence. cbn [updateEntry].
    rewrite (edgeWeight_base e1 e2 a b Hs Hh Hc Hst Hab).
    do 2 f_equal. destruct a, b. unfold setWeight in *. cbn in *.
    injection Hab as -> -> -> ->. reflexivity.
Qed.

(** On two graphs that differ in their weights alone the loop ends in the
    same way; when it runs to its end it leaves the same graph. *)
Lemma updateEntries_base e1 e2 g1 g2 :
  seismicData e1 = seismicData e2 -> hazardMap e1 = hazardMap e2 ->
  crowdDensityMap e1 = crowdDensityMap e2 ->
  structuralRiskMap e1 = structuralRiskMap e2 ->
  baseGraph g1 = baseGraph g2 ->
  snd (updateEntries e1 g1) = snd (updateEntries e2 g2) /\
  (snd (updateEntries e1 g1) = Ok tt ->
   fst (updateEntries e1 g1) = fst (updateEntries e2 g2)).
Proof.
  intros Hs Hh Hc Hst. revert g2.
  induction g1 as [|[k x] g1 IH]; intros [|[k' y] g2] Hg; cbn in Hg; try discriminate.
  - split; reflexivity.
  - injection Hg as -> Hxy Hg. cbn [updateEntries].
    rewrite (updateEntry_base e1 e2 x y Hs Hh Hc Hst Hxy).
    destruct (updateEntry e2 y) as [en|err]; cbn [fst snd].
    + destruct (IH g2 Hg) as [H1 H2]. split; [exact H1 |].
      intros Hr. rewrite (H2 Hr). reflexivity.
    + split; [reflexivity | discriminate].
Qed.

(** The first step of a calculation throws or not whatever an earlier one
    left, and when it does not throw it wipes what was left. *)
Lemma updateEdgeWeights_sameBase e1 e2 seismic hazards :
  sameBase e1 e2 ->
  snd (updateEdgeWeights (setInputs seismic hazards e1))
  = snd (updateEdgeWeights (setInputs seismic hazards e2)) /\
  (snd (updateEdgeWeights (setInputs seismic hazards e1)) = Ok tt ->
   fst (updateEdgeWeights (setInputs seismic hazards e1))
   = fst (updateEdgeWeights (setInputs seismic hazards e2))).
Proof.
  intros (Hg & Hz & Hc & Hst).
  unfold updateEdgeWeights, setGraph. cbn [cityGraph safeZones hazardMap crowdDensityMap
    structuralRiskMap seismicData setInputs fst snd].
  destruct (updateEntries_base (setInputs seismic hazards e1) (setInputs seismic hazards e2)
              (cityGraph e1) (cityGraph e2)) as [H1 H2]; try assumption; try reflexivity.
  split; [exact H1 |]. intros Hr. rewrite (H2 Hr), Hz, Hc, Hst. reflexivity.
Qed.

Lemma baseEntry_doubleWeight en : baseEntry (doubleWeight en) = baseEntry en.
Proof. destruct en as [n|[]]; reflexivity. Qed.

Lemma baseGraph_update e :
  baseGraph (cityGraph (fst (updateEdgeWeights e))) = baseGraph (cityGraph e).
Proof.
  unfold updateEdgeWeights. cbn [cityGraph setGraph fst]. apply baseGraph_updateEntries.
Qed.

Lemma baseGraph_alter k g : baseGraph (graph_alter doubleWeight k g) = baseGraph g.
Proof.
  induction g as [|[k' en] g IH]; [reflexivity |].
  cbn [graph_alter]. destruct (String.eqb k k'); cbn [baseGraph map fst snd].
  - rewrite baseEntry_doubleWeight. reflexivity.
  - f_equal. exact IH.
Qed.

Lemma baseGraph_penalizeRoute g r : baseGraph (penalizeRoute g r) = baseGraph g.
Proof.
  unfold penalizeRoute. revert g.
  induction (segments r) as [|s ss IH]; intros g; [reflexivity |].
  cbn [fold_left]. rewrite IH. apply baseGraph_alter.
Qed.

Lemma sameBase_penalize e routes : sameBase e (penalizePreviousRoutes e routes).
Proof.
  unfold penalizePreviousRoutes, sameBase. cbn [cityGraph safeZones crowdDensityMap
    structuralRiskMap setGraph].
  repeat split. generalize (cityGraph e) as g.
  induction routes as [|r rs IH]; intros g; [reflexivity |].
  cbn [fold_left]. rewrite <- IH. symmetry. apply baseGraph_penalizeRoute.
Qed.

Lemma sameBase_alternativesLoop count e start goal primaryRoute alternatives :
  sameBase e (fst (alternativesLoop count e start goal primaryRoute alternatives)).
Proof.
  revert e alternatives. induction count as [|n IH]; intros e alts; [apply sameBase_refl |].
  cbn [alternativesLoop].
  pose proof (sameBase_penalize e (primaryRoute :: alts)) as Hp.
  destruct (aStarAlgorithm _ start goal) as [alt|x].
  - eapply sameBase_trans; [exact Hp | apply IH].
  - exact Hp.
Qed.

Lemma sameBase_generate e start goal count :
  sameBase e (fst (generateAlternativeRoutes e start goal count)).
Proof.
  unfold generateAlternativeRoutes.
  destruct (aStarAlgorithm e start goal); [| apply sameBase_refl].
  cbn [fst]. apply sameBase_alternativesLoop.
Qed.

Lemma sameBase_inputs e seismic hazards :
  sameBase e (fst (updateEdgeWeights (setInputs seismic hazards e))).
Proof.
  split; [| repeat split].
  rewrite baseGraph_update. reflexivity.
Qed.

(** A calculation leaves the engine as it was, up to the weights and the
    two input fields. *)
Lemma sameBase_calculateSafeRoute e userLocation seismic hazards :
  sameBase e (fst (calculateSafeRoute e userLocation seismic hazards)).
Proof.
  pose proof (sameBase_inputs e seismic hazards) as H1.
  unfold calculateSafeRoute. cbv zeta.
  destruct (snd (updateEdgeWeights _)) as [[]|x]; [| exact H1].
  destruct (findNearestSafeZone _ userLocation) as [z|]; [| exact H1].
  destruct (aStarAlgorithm _ userLocation (zonePoint z)) as [r|x]; [| exact H1].
  pose proof (sameBase_generate (fst (updateEdgeWeights (setInputs seismic hazards e)))
                userLocation (zonePoint z) 2) as H2.
  destruct (snd (generateAlternativeRoutes _ userLocation (zonePoint z) 2));
    cbn [fst]; eapply sameBase_trans; eassumption.
Qed.

(** What a calculation does after its weight update depends on the engine
    that the update leaves. *)
Lemma calculateSafeRoute_after_update e1 e2 userLocation seismic hazards :
  updateEdgeWeights (setInputs seismic hazards e1)
  = updateEdgeWeights (setInputs seismic hazards e2) ->
  calculateSafeRoute e1 userLocation seismic hazards
  = calculateSafeRoute e2 userLocation seismic hazards.
Proof. intros Hu. unfold calculateSafeRoute. rewrite Hu. reflexivity. Qed.

Lemma calculateSafeRoute_throws e userLocation seismic hazards x :
  snd (updateEdgeWeights (setInputs seismic hazards e)) = Err x ->
  calculateSafeRoute e userLocation seismic hazards
  = (fst (updateEdgeWeights (setInputs seismic hazards e)), Err x).
Proof. intros Hu. unfold calculateSafeRoute. cbv zeta. rewrite Hu. reflexivity. Qed.

Lemma calculateSafeRoute_sameBase_state e1 e2 userLocation seismic hazards :
  sameBase e1 e2 ->
  snd (updateEdgeWeights (setInputs seismic hazards e1)) = Ok tt ->
  calculateSafeRoute e1 userLocation seismic hazards
  = calculateSafeRoute e2 userLocation seismic hazards.
Proof.
  intros Hb Hr. destruct (updateEdgeWeights_sameBase e1 e2 seismic hazards Hb) as [H1 H2].
  apply calculateSafeRoute_after_update.
  rewrite (surjective_pairing (updateEdgeWeights (setInputs seismic hazards e1))),
    (surjective_pairing (updateEdgeWeights (setInputs seismic hazards e2))).
  rewrite <- H1, (H2 Hr). reflexivity.
Qed.

Lemma calculateSafeRoute_sameBase e1 e2 userLocation seismic hazards :
  sameBase e1 e2 ->
  snd (calculateSafeRoute e1 userLocation seismic hazards)
  = snd (calculateSafeRoute e2 userLocation seismic hazards).
Proof.
  intros Hb. destruct (updateEdgeWeights_sameBase e1 e2 seismic hazards Hb) as [H1 H2].
  destruct (snd (updateEdgeWeights (setInputs seismic hazards e1))) as [[]|x] eqn:E.
  - rewrite (calculateSafeRoute_sameBase_state e1 e2 userLocation seismic hazards Hb E).
    reflexivity.
  - rewrite (calculateSafeRoute_throws e1 userLocation seismic hazards x E).
    rewrite (calculateSafeRoute_throws e2 userLocation seismic hazards x); [reflexivity |].
    symmetry. exact H1.
Qed.

Lemma sameBase_runCalls e calls : sameBase e (runCalls e calls).
Proof.
  unfold runCalls. revert e. induction calls as [|c cs IH]; intros e; [apply sameBase_refl |].
  cbn [fold_left]. eapply sameBase_trans; [apply sameBase_calculateSafeRoute | apply IH].
Qed.

Lemma baseDistances_baseGraph g : baseDistances (baseGraph g) = baseDistances g.
Proof.
  unfold baseDistances, baseGraph. rewrite map_map. apply map_ext.
  intros [k [n|[]]]; reflexivity.
Qed.

(** Without a safe zone a calculation ends at its weight update or at the
    test that follows it. *)
Lemma calculateSafeRoute_noZones e userLocation seismic hazards :
  safeZones e = [] ->
  snd (calculateSafeRoute e userLocation seismic hazards)
  = match snd (updateEdgeWeights (setInputs seismic hazards e)) with
    | Ok _ => Err NoSafeZonesAvailable
    | Err x => Err x
    end.
Proof.
  intros Hz. unfold calculateSafeRoute. cbv zeta.
  destruct (snd (updateEdgeWeights _)) as [[]|x]; [| reflexivity].
  unfold findNearestSafeZone, updateEdgeWeights.
  cbn [safeZones setGraph setInputs fst]. rewrite Hz. reflexivity.
Qed.

End Frame.

(** ** Invocations of [calculateSafeRoute] against one engine *)

Section Invocations.
Context `{Geo}.


(** C9. An invocation with the same graph, seismic snapshot, hazard map and
    densities returns the same result, primary route and alternatives,
    whatever invocations of the same engine happened in between. *)
Theorem calculateSafeRoute_deterministic (e : Engine) (calls : list Call)
    (userLocation : LatLng) (seismic : option SeismicData)
    (hazards : gmap string (list Hazard)) :
  snd (calculateSafeRoute (runCalls e calls) userLocation seismic hazards)
  = snd (calculateSafeRoute e userLocation seismic hazards).
Proof.
  apply calculateSafeRoute_sameBase, sameBase_sym, sameBase_runCalls.
Qed.

(** C2, as amended. Under a snapshot none of whose events has a negative
    distance + depth at the edge, the seismic risk of the edge is a number
    and the cost computed for the edge is 0.4 seismicRisk
    + 0.3 structuralRisk + 0.2 densityRisk + 0.1 hazardRisk
    + 0.1 baseDistance, multiplied by 3 exactly when seismicRisk > 0.8 or
    structuralRisk > 0.9. The seismic, the structural and the hazard term
    lie in [0,1]; the density term is at most 1, and at least 0 when the
    recorded densities are not negative. (Under an event with a negative
    distance + depth the seismic risk and the cost are NaN.) The weight
    update stores the cost on every edge that it reaches: on all of them
    under a snapshot without an event, on those before the first node
    otherwise. *)
Theorem edge_cost_formula (e : Engine) (edge : Edge) :
  let structuralRisk := calculateStructuralRisk e edge in
  let densityRisk := getCrowdDensity e edge in
  let hazardRisk := getHazardReports e edge in
  unitInterval structuralRisk /\ unitInterval hazardRisk /\
  densityRisk <= 1 /\ (densitiesNonNegative e -> unitInterval densityRisk) /\
  match calculateSeismicRisk edge (seismicData e) with
  | Some seismicRisk =>
    let cost :=
      specCost seismicRisk structuralRisk densityRisk hazardRisk (baseDistance edge) in
    (forall q, q ∈ eventsOf (seismicData e) -> ~ attenuationNaN edge q) /\
    unitInterval seismicRisk /\
    exists computed, edgeWeight e edge = Some computed /\
      ((0.8 < seismicRisk \/ 0.9 < structuralRisk) -> computed == 3 * cost) /\
      (~ (0.8 < seismicRisk \/ 0.9 < structuralRisk) -> computed == cost)
  | None =>
    edgeWeight e edge = None /\
    exists q, q ∈ eventsOf (seismicData e) /\ attenuationNaN edge q
  end /\
  forall before key after,
    cityGraph e = before ++ (key, EdgeEntry edge) :: after ->
    hasFeature (seismicData e) = false \/ nodesOf before = [] ->
    cityGraph (fst (updateEdgeWeights e)) !! length before
    = Some (key, EdgeEntry (setWeight (edgeWeight e edge) edge)).
Proof.
  cbv zeta. unfold unitInterval.
  split; [pose proof (calculateStructuralRisk_range e edge); lra |].
  split; [apply getHazardReports_range |].
  split; [apply getCrowdDensity_le |].
  split; [apply getCrowdDensity_range |].
  split.
  - destruct (calculateSeismicRisk edge (seismicData e)) as [s|] eqn:E.
    + split.
      { intros q Hq Hn.
        assert (calculateSeismicRisk edge (seismicData e) = None) as Hnone
          by (apply calculateSeismicRisk_NaN; eauto).
        congruence. }
      split; [apply (calculateSeismicRisk_range edge (seismicData e)), E |].
      apply edgeWeight_cases, E.
    + split; [apply edgeWeight_NaN, E | apply calculateSeismicRisk_NaN, E].
  - intros before key after Hg Hq. unfold updateEdgeWeights. cbn [cityGraph setGraph fst].
    rewrite Hg. apply updateEntries_prefix, Hq.
Qed.

(** C10. The seismic risk of an edge is the fixed 0.1 when the snapshot is
    null or has no [features] field, and 0 when the snapshot has an empty
    event list; without a snapshot every edge cost therefore carries the
    seismic contribution 0.4 * 0.1. *)
Theorem seismic_risk_empty_inputs (e : Engine) (hazards : gmap string (list Hazard))
    (edge : Edge) :
  calculateSeismicRisk edge None = Some 0.1 /\
  calculateSeismicRisk edge (Some {| features := None |}) = Some 0.1 /\
  calculateSeismicRisk edge (Some {| features := Some [] |}) = Some 0 /\
  let e1 := setInputs None hazards e in
  exists cost, edgeWeight e1 edge = Some cost /\
    cost ==
      0.4 * 0.1 + 0.3 * calculateStructuralRisk e1 edge + 0.2 * getCrowdDensity e1 edge
      + 0.1 * getHazardReports e1 edge + 0.1 * baseDistance edge.
Proof.
  repeat split; try reflexivity. intros e1.
  pose proof (calculateStructuralRisk_range e1 edge) as Hst.
  destruct (edgeWeight_cases e1 edge 0.1 eq_refl) as (w & Hw & _ & Hc). cbv zeta in Hc.
  exists w. split; [exact Hw |].
  rewrite Hc; [unfold specCost; lra | lra].
Qed.

(** C5, as amended. For an edge whose base distance is not negative, with
    recorded densities that are not negative, the cost computed under a
    snapshot none of whose events has a negative distance + depth at the
    edge is at least 0 and at least 0.1 baseDistance (under an event with
    a negative distance + depth the cost is NaN); and the weight update
    and a whole calculation, cost computation and searches, leave every
    base distance of the graph as it was. *)
Theorem cost_floor_and_base_distance (e : Engine) (edge : Edge) (userLocation : LatLng)
    (seismic : option SeismicData) (hazards : gmap string (list Hazard)) :
  match edgeWeight (setInputs seismic hazards e) edge with
  | Some cost =>
    (forall q, q ∈ eventsOf seismic -> ~ attenuationNaN edge q) /\
    (densitiesNonNegative e -> 0 <= baseDistance edge ->
     0 <= cost /\ 0.1 * baseDistance edge <= cost)
  | None => exists q, q ∈ eventsOf seismic /\ attenuationNaN edge q
  end /\
  baseDistances (cityGraph (fst (updateEdgeWeights (setInputs seismic hazards e))))
  = baseDistances (cityGraph e) /\
  baseDistances (cityGraph (fst (calculateSafeRoute e userLocation seismic hazards)))
  = baseDistances (cityGraph e).
Proof.
  split; [| split].
  - destruct (edgeWeight (setInputs seismic hazards e) edge) as [cost|] eqn:E.
    + split.
      * intros q Hq Hn.
        assert (edgeWeight (setInputs seismic hazards e) edge = None) as Hnone
          by (apply edgeWeight_NaN, calculateSeismicRisk_NaN; eauto).
        congruence.
      * intros Hd Hb. apply (edgeWeight_floor (setInputs seismic hazards e) edge cost Hd Hb E).
    + apply edgeWeight_NaN, calculateSeismicRisk_NaN in E. exact E.
  - destruct (sameBase_inputs e seismic hazards) as [Hg _].
    rewrite <- baseDistances_baseGraph, <- Hg. apply baseDistances_baseGraph.
  - destruct (sameBase_calculateSafeRoute e userLocation seismic hazards) as [Hg _].
    rewrite <- baseDistances_baseGraph, <- Hg. apply baseDistances_baseGraph.
Qed.

End Invocations.

(** ** Termination of the search *)

Section Termination.
Context `{Geo}.

Lemma set_has_true x s : set_has x s = true <-> x ∈ s.
Proof.
  unfold set_has. rewrite existsb_exists. split.
  - intros (y & Hy & Heq). apply String.eqb_eq in Heq. subst y.
    apply list_elem_of_In. exact Hy.
  - intros Hx. exists x. split; [apply list_elem_of_In, Hx | apply String.eqb_refl].
Qed.

Lemma set_has_false x s : set_has x s = false <-> x ∉ s.
Proof.
  rewrite <- set_has_true. destruct (set_has x s); split; congruence.
Qed.

Lemma pq_some_true k q : pq_some k q = true <-> k ∈ itemIds q.
Proof.
  unfold pq_some, itemIds. rewrite existsb_exists, list_elem_of_In, in_map_iff.
  split; intros (it & H1 & H2); exists it.
  - apply String.eqb_eq in H2. split; [exact H2 | exact H1].
  - subst k. split; [exact H2 | apply String.eqb_refl].
Qed.

Lemma pq_some_false k q : pq_some k q = false <-> k ∉ itemIds q.
Proof.
  rewrite <- pq_some_true. destruct (pq_some k q); split; congruence.
Qed.

Lemma pq_pop_perm q x r : pq_pop q = Some (x, r) -> q ≡ₚ x :: r.
Proof.
  revert x r. induction q as [|y q IH]; intros x r; cbn [pq_pop]; [discriminate |].
  destruct (pq_pop q) as [[z r']|] eqn:E.
  - destruct (Qle_bool (item_fScore y) (item_fScore z)); intros [= <- <-].
    + reflexivity.
    + rewrite (IH z r' eq_refl). apply Permutation_swap.
  - intros [= <- <-]. destruct q as [|w q]; [reflexivity |].
    cbn [pq_pop] in E. destruct (pq_pop q) as [[? ?]|]; [| discriminate].
    destruct (Qle_bool _ _); discriminate.
Qed.

Lemma graph_get_elem g k en : graph_get g k = Some en -> (k, en) ∈ g.
Proof.
  induction g as [|[k' en'] g IH]; cbn [graph_get]; [discriminate |].
  destruct (String.eqb k k') eqn:E.
  - apply String.eqb_eq in E. subst k'. intros [= ->]. apply list_elem_of_here.
  - intros Hg. apply list_elem_of_further, IH, Hg.
Qed.

Lemma nearestBy_elem {A} (d : A -> Q) (l : list A) (x : A) :
  nearestBy d l = Some x -> x ∈ l.
Proof.
  unfold nearestBy.
  cut (forall l' acc, (forall y, fst acc = Some y -> y ∈ l) -> (forall y, y ∈ l' -> y ∈ l) ->
         fst (fold_left
                (fun acc x => let distance := d x in
                   if belowMin distance (snd acc) then (Some x, Some distance) else acc)
                l' acc) = Some x -> x ∈ l).
  { intros Hgen. apply Hgen; [cbn; discriminate | auto]. }
  induction l' as [|a l' IH]; intros acc Hacc Hsub; cbn [fold_left].
  - apply Hacc.
  - apply IH.
    + cbv zeta. destruct (belowMin (d a) (snd acc)); [| exact Hacc].
      cbn [fst]. intros y [= <-]. apply Hsub, list_elem_of_here.
    + intros y Hy. apply Hsub, list_elem_of_further, Hy.
Qed.

Lemma nodesOf_elem g n : n ∈ nodesOf g -> exists k, (k, NodeEntry n) ∈ g.
Proof.
  unfold nodesOf. rewrite list_elem_of_omap. intros ([k en] & Hin & Hn).
  cbn [snd] in Hn. destruct en as [m|]; [| discriminate].
  injection Hn as ->. exists k. exact Hin.
Qed.

Lemma findNearestNode_keyed e location n :
  nodesKeyed (cityGraph e) -> findNearestNode e location = Some n ->
  node_id n ∈ map fst (cityGraph e).
Proof.
  intros Hk Hn. apply nearestBy_elem, nodesOf_elem in Hn as [k Hin].
  rewrite (Hk k n Hin). apply list_elem_of_In, in_map_iff.
  exists (k, NodeEntry n). split; [reflexivity | apply list_elem_of_In, Hin].
Qed.

Lemma asNode_keyed e k n :
  nodesKeyed (cityGraph e) -> asNode (getNode e k) = Ok n ->
  node_id n = k /\ k ∈ map fst (cityGraph e).
Proof.
  intros Hk. unfold asNode, getNode.
  destruct (graph_get (cityGraph e) k) as [[m|]|] eqn:E; try discriminate.
  intros [= ->]. apply graph_get_elem in E. split; [apply Hk, E |].
  apply list_elem_of_In, in_map_iff.
  exists (k, NodeEntry n). split; [reflexivity | apply list_elem_of_In, E].
Qed.

Lemma closed_bounded e st : aStarInv e st -> (length (closedSet st) <= length (cityGraph e))%nat.
Proof.
  intros Hi. rewrite <- (length_map fst (cityGraph e)).
  apply submseteq_length, NoDup_submseteq; [apply Hi | apply Hi].
Qed.

Lemma aStarInit_inv e startNode goalNode :
  node_id startNode ∈ map fst (cityGraph e) -> aStarInv e (aStarInit startNode goalNode).
Proof.
  intros Hs. split; cbn [aStarInit openSet closedSet cameFrom pq_push app itemIds map].
  - apply NoDup_nil_2.
  - intros x Hx. inversion Hx.
  - apply NoDup_singleton.
  - intros x _ Hx. inversion Hx.
  - intros x Hx. apply list_elem_of_singleton in Hx. subst x. exact Hs.
  - intros n p Hp. rewrite lookup_empty in Hp. discriminate.
Qed.

Lemma relax_inv e goalNode current st n st' :
  nodesKeyed (cityGraph e) -> aStarInv e st ->
  node_id current ∈ closedSet st ->
  relax e goalNode current st n = Ok st' ->
  aStarInv e st' /\ closedSet st' = closedSet st.
Proof.
  intros Hk Hi Hcur. unfold relax.
  destruct (set_has n (closedSet st)) eqn:Hclosed; [intros [= <-]; auto |].
  apply set_has_false in Hclosed.
  destruct (weightOf (getEdge e (node_id current) n)) as [w|x]; [| discriminate].
  cbn [mbind Result_bind].
  destruct (gScore st !! node_id current) as [g|]; [| discriminate].
  cbv zeta.
  match goal with |- (if ?b then _ else _) = _ -> _ => destruct b end;
    [| intros [= <-]; auto].
  destruct (asNode (getNode e n)) as [nb|x] eqn:Hnb; [| discriminate].
  cbn [mbind Result_bind openSet closedSet gScore fScore cameFrom].
  destruct (asNode_keyed e n nb Hk Hnb) as [Hid Hkey].
  assert (forall m p, <[n := node_id current]> (cameFrom st) !! m = Some p ->
            exists i, closedSet st !! i = Some p /\
                      forall j, closedSet st !! j = Some m -> (i < j)%nat) as Hfrom.
  { intros m p. rewrite lookup_insert. case_decide as Hm.
    - subst m. intros [= <-]. apply list_elem_of_lookup in Hcur as [i Hi'].
      exists i. split; [exact Hi' |]. intros j Hj. exfalso. apply Hclosed.
      apply list_elem_of_lookup. eauto.
    - apply Hi. }
  destruct (pq_some n (openSet st)) eqn:Hopen; intros [= <-]; (split; [| reflexivity]).
  - split; cbn [openSet closedSet cameFrom]; try apply Hi. exact Hfrom.
  - apply pq_some_false in Hopen.
    split; cbn [openSet closedSet cameFrom]; try apply Hi; try exact Hfrom.
    + unfold pq_push, itemIds. rewrite map_app. cbn [map item_node]. rewrite Hid.
      apply NoDup_app. split; [apply Hi |]. split; [| apply NoDup_singleton].
      intros x Hx Hx'. apply list_elem_of_singleton in Hx'. subst x. exact (Hopen Hx).
    + intros x. unfold pq_push, itemIds. rewrite map_app. cbn [map item_node]. rewrite Hid.
      rewrite elem_of_app, list_elem_of_singleton.
      intros [Hx | ->]; [apply (inv_open_new e st Hi), Hx | exact Hclosed].
    + intros x. unfold pq_push, itemIds. rewrite map_app. cbn [map item_node]. rewrite Hid.
      rewrite elem_of_app, list_elem_of_singleton.
      intros [Hx | ->]; [apply (inv_open_keys e st Hi), Hx | exact Hkey].
Qed.

Lemma relaxAll_inv e goalNode current ns st st' :
  nodesKeyed (cityGraph e) -> aStarInv e st ->
  node_id current ∈ closedSet st ->
  relaxAll e goalNode current st ns = Ok st' ->
  aStarInv e st' /\ closedSet st' = closedSet st.
Proof.
  intros Hk. revert st. induction ns as [|n ns IH]; intros st Hi Hcur; cbn [relaxAll].
  - intros [= <-]. auto.
  - destruct (relax e goalNode current st n) as [st1|x] eqn:E; [| discriminate].
    cbn [mbind Result_bind]. intros Hrest.
    destruct (relax_inv e goalNode current st n st1 Hk Hi Hcur E) as [Hi1 Hc1].
    destruct (IH st1 Hi1 ltac:(rewrite Hc1; exact Hcur) Hrest) as [Hi2 Hc2].
    split; [exact Hi2 | congruence].
Qed.

(** Settling the node taken from the open set. *)
Lemma settle_inv e st item rest :
  aStarInv e st -> pq_pop (openSet st) = Some (item, rest) ->
  let current := item_node item in
  let st1 := {| openSet := rest;
                closedSet := set_add (node_id current) (closedSet st);
                gScore := gScore st; fScore := fScore st; cameFrom := cameFrom st |} in
  aStarInv e st1 /\ node_id current ∈ closedSet st1 /\
  length (closedSet st1) = S (length (closedSet st)).
Proof.
  intros Hi Hpop. cbv zeta. apply pq_pop_perm in Hpop.
  assert (itemIds (openSet st) ≡ₚ node_id (item_node item) :: itemIds rest) as Hperm.
  { unfold itemIds. rewrite Hpop. reflexivity. }
  pose proof (inv_open_nodup e st Hi) as Hnd. rewrite Hperm in Hnd.
  apply NoDup_cons in Hnd as [Hfresh Hnd].
  assert (node_id (item_node item) ∉ closedSet st) as Hnew.
  { apply (inv_open_new e st Hi). rewrite Hperm. apply list_elem_of_here. }
  unfold set_add. rewrite (proj2 (set_has_false _ _) Hnew).
  split; [| split].
  - split; cbn [openSet closedSet cameFrom].
    + apply NoDup_app. split; [apply Hi |]. split; [| apply NoDup_singleton].
      intros x Hx Hx'. apply list_elem_of_singleton in Hx'. subst x. exact (Hnew Hx).
    + intros x. rewrite elem_of_app, list_elem_of_singleton. intros [Hx | ->].
      * apply (inv_closed_keys e st Hi), Hx.
      * apply (inv_open_keys e st Hi). rewrite Hperm. apply list_elem_of_here.
    + exact Hnd.
    + intros x Hx. rewrite elem_of_app, list_elem_of_singleton. intros [Hx' | ->].
      * revert Hx'. apply (inv_open_new e st Hi). rewrite Hperm.
        apply list_elem_of_further, Hx.
      * exact (Hfresh Hx).
    + intros x Hx. apply (inv_open_keys e st Hi). rewrite Hperm.
      apply list_elem_of_further, Hx.
    + intros n p Hp. destruct (inv_from e st Hi n p Hp) as (i & Hip & Hlt).
      exists i. split; [apply lookup_app_l_Some, Hip |].
      intros j Hj. destruct (decide (j < length (closedSet st))%nat) as [Hlt'|Hge].
      * rewrite lookup_app_l in Hj by exact Hlt'. apply Hlt, Hj.
      * apply lookup_lt_Some in Hip. lia.
  - cbn [closedSet]. rewrite elem_of_app, list_elem_of_singleton. auto.
  - cbn [closedSet]. rewrite length_app. cbn [length]. lia.
Qed.

Lemma reconstructPath_fuel e st fuel current path :
  nodesKeyed (cityGraph e) -> aStarInv e st ->
  (forall p, cameFrom st !! node_id current = Some p ->
     exists i, closedSet st !! i = Some p /\ (i < fuel)%nat) ->
  reconstructPath fuel e (cameFrom st) current path <> Err OutOfFuel.
Proof.
  intros Hk Hi. revert current path.
  induction fuel as [|fuel IH]; intros current path Hcur.
  - cbn [reconstructPath]. destruct (cameFrom st !! node_id current) as [p|]; [| discriminate].
    destruct (Hcur p eq_refl) as (i & _ & Hlt). lia.
  - cbn [reconstructPath]. destruct (cameFrom st !! node_id current) as [p|]; [| discriminate].
    destruct (Hcur p eq_refl) as (i & Hip & Hlt).
    destruct (asNode (getNode e p)) as [n|x] eqn:Hn.
    2:{ cbn [mbind Result_bind]. destruct (getNode e p) as [[|]|]; cbn in Hn; congruence. }
    cbn [mbind Result_bind]. apply IH.
    destruct (asNode_keyed e p n Hk Hn) as [-> _].
    intros p' Hp'. destruct (inv_from e st Hi _ _ Hp') as (i' & Hip' & Hlt').
    exists i'. split; [exact Hip' |]. specialize (Hlt' i Hip). lia.
Qed.

Lemma relax_error e goalNode current st n x :
  relax e goalNode current st n = Err x -> x <> OutOfFuel.
Proof.
  unfold relax. destruct (set_has n (closedSet st)); [discriminate |].
  destruct (getEdge e (node_id current) n) as [[|edge]|]; cbn;
    try (intros [= <-]; discriminate).
  destruct (weight edge); cbn; [| intros [= <-]; discriminate].
  destruct (gScore st !! node_id current); [| intros [= <-]; discriminate].
  match goal with |- (if ?b then _ else _) = _ -> _ => destruct b end; [| discriminate].
  destruct (getNode e n) as [[|]|]; cbn; try (intros [= <-]; discriminate).
  destruct (pq_some n (openSet st)); discriminate.
Qed.

Lemma relaxAll_error e goalNode current ns st x :
  relaxAll e goalNode current st ns = Err x -> x <> OutOfFuel.
Proof.
  revert st. induction ns as [|n ns IH]; intros st; cbn [relaxAll]; [discriminate |].
  destruct (relax e goalNode current st n) as [st'|y] eqn:E; cbn [mbind Result_bind].
  - apply IH.
  - intros [= <-]. exact (relax_error _ _ _ _ _ _ E).
Qed.

Lemma aStarLoop_fuel e goalNode fuel st :
  nodesKeyed (cityGraph e) -> aStarInv e st ->
  (length (cityGraph e) - length (closedSet st) < fuel)%nat ->
  aStarLoop fuel e goalNode st <> Err OutOfFuel.
Proof.
  intros Hk. revert st. induction fuel as [|fuel IH]; intros st Hi Hfuel; [lia |].
  cbn [aStarLoop].
  destruct (pq_pop (openSet st)) as [[item rest]|] eqn:Hpop; [| discriminate].
  cbv zeta.
  destruct (String.eqb (node_id (item_node item)) (node_id goalNode)).
  - apply (reconstructPath_fuel e st); [exact Hk | exact Hi |].
    intros p Hp. destruct (inv_from e st Hi _ _ Hp) as (i & Hip & _).
    exists i. split; [exact Hip |].
    apply lookup_lt_Some in Hip. pose proof (closed_bounded e st Hi). lia.
  - destruct (settle_inv e st item rest Hi Hpop) as (Hi1 & Hcur & Hlen).
    cbv zeta in Hi1, Hcur, Hlen.
    destruct (relaxAll e goalNode (item_node item) _ (neighbors (item_node item)))
      as [st2|x] eqn:Hrelax; cbn [mbind Result_bind].
    + destruct (relaxAll_inv e goalNode (item_node item) _ _ st2 Hk Hi1 Hcur Hrelax)
        as [Hi2 Hc2].
      apply IH; [exact Hi2 |]. rewrite Hc2, Hlen.
      pose proof (closed_bounded e _ Hi1) as Hb. rewrite Hlen in Hb. lia.
    + intros [= ->]. exact (relaxAll_error _ _ _ _ _ _ Hrelax eq_refl).
Qed.

(** The search always comes to an end: the loop bound of the embedding is
    never reached on a graph whose nodes are stored under their
    identifiers. *)
Theorem aStar_terminates e start goal :
  nodesKeyed (cityGraph e) -> aStarAlgorithm e start goal <> Err OutOfFuel.
Proof.
  intros Hk. unfold aStarAlgorithm.
  destruct (findNearestNode e start) as [startNode|] eqn:Hs; [| discriminate].
  destruct (findNearestNode e goal) as [goalNode|]; [| discriminate].
  apply aStarLoop_fuel; [exact Hk | |].
  - apply aStarInit_inv, (findNearestNode_keyed e start), Hs. exact Hk.
  - cbn [aStarInit closedSet length]. lia.
Qed.

Lemma baseGraph_node k n g : (k, NodeEntry n) ∈ baseGraph g <-> (k, NodeEntry n) ∈ g.
Proof.
  unfold baseGraph. rewrite list_elem_of_In, in_map_iff, list_elem_of_In. split.
  - intros ([k' en] & Heq & Hin). cbn [fst snd] in Heq.
    destruct en as [m|edge]; cbn [baseEntry] in Heq; [| discriminate].
    injection Heq as -> ->. exact Hin.
  - intros Hin. exists (k, NodeEntry n). split; [reflexivity | exact Hin].
Qed.

Lemma nodesKeyed_sameBase e1 e2 :
  sameBase e1 e2 -> nodesKeyed (cityGraph e1) -> nodesKeyed (cityGraph e2).
Proof.
  intros [Hg _] Hk k n Hin. apply Hk, baseGraph_node. rewrite Hg.
  apply baseGraph_node, Hin.
Qed.

(** So does a whole calculation. *)
Theorem calculateSafeRoute_terminates e userLocation seismic hazards :
  nodesKeyed (cityGraph e) ->
  snd (calculateSafeRoute e userLocation seismic hazards) <> Err OutOfFuel.
Proof.
  intros Hk.
  pose proof (nodesKeyed_sameBase _ _ (sameBase_inputs e seismic hazards) Hk) as Hk1.
  unfold calculateSafeRoute. cbv zeta.
  destruct (snd (updateEdgeWeights _)) as [[]|x] eqn:Hu.
  2:{ unfold updateEdgeWeights in Hu. cbn [snd] in Hu.
      apply updateEntries_throws in Hu as [-> _]. discriminate. }
  destruct (findNearestSafeZone _ userLocation) as [z|]; [| discriminate].
  pose proof (aStar_terminates (fst (updateEdgeWeights (setInputs seismic hazards e)))
                userLocation (zonePoint z) Hk1) as Hsearch.
  unfold generateAlternativeRoutes.
  destruct (aStarAlgorithm _ userLocation (zonePoint z)) as [r|x]; cbn [fst snd].
  - discriminate.
  - intros [= ->]. exact (Hsearch eq_refl).
Qed.

End Termination.

(** ** When a session is recalculated *)

Section Trigger.
Context `{Geo} `{Services}.

Lemma hasSignificantActivity_spec cache now :
  existsb significant (getRecentEarthquakes cache now 1) = true <->
  significantActivity cache now.
Proof.
  unfold significantActivity.
  rewrite existsb_exists. unfold getRecentEarthquakes, significant.
  destruct cache as [fs|]; cbn [default].
  - split.
    + intros (q & Hq & Hm). apply list_elem_of_In, list_elem_of_filter in Hq as [Ht Hq].
      exists q. split; [exact Hq |]. split; [lia | apply Qle_bool_iff, Hm].
    + intros (q & Hq & Ht & Hm). exists q. split; [| apply Qle_bool_iff, Hm].
      apply list_elem_of_In, list_elem_of_filter. split; [lia | exact Hq].
  - split; [intros (q & [] & _) | intros (q & Hq & _); inversion Hq].
Qed.

(** The trigger never gives a verdict. *)
Lemma checkRouteRecalculation_throws e cache hazards now session :
  checkRouteRecalculation e cache hazards now session = Err TypeError.
Proof. reflexivity. Qed.

Lemma sessions_set_get ss k s0 s :
  sessions_get ss k = Some s0 -> sessions_get (sessions_set k s ss) k = Some s.
Proof.
  induction ss as [|[k' s'] ss IH]; cbn [sessions_get sessions_set]; [discriminate |].
  destruct (String.eqb k k') eqn:E; cbn [sessions_get]; rewrite E; [reflexivity | exact IH].
Qed.

(** An update of a known session moves the session and files the reports;
    then the trigger throws, and the answer is the status 500: nothing is
    calculated, the engine and the route of the session stay as they were. *)
Lemma routeUpdate_throws srv now sessionId location reports session :
  sessions_get (activeSessions srv) sessionId = Some session ->
  let '(srv', response, events) := routeUpdate srv now sessionId location reports in
  response = Failed500 /\ events = [] /\
  routeEngine srv' = routeEngine srv /\
  sessions_get (activeSessions srv') sessionId = Some (moveSession location now session).
Proof.
  intros Hget. unfold routeUpdate. rewrite Hget.
  cbn [currentHazards setSessions].
  destruct (reportAll reports (currentHazards srv)) as [h [x|]].
  - cbn [routeEngine activeSessions setHazards]. repeat split.
    apply (sessions_set_get _ _ session), Hget.
  - rewrite checkRouteRecalculation_throws.
    cbn [routeEngine activeSessions setHazards setSessions]. repeat split.
    apply (sessions_set_get _ _ session), Hget.
Qed.

(** The sweep ends at the first active session, with the exception of the
    trigger; it has changed nothing by then. *)
Lemma sweepSessions_throws now earthquakeData cache hazards e ss :
  sweepSessions now earthquakeData cache hazards e ss
  = (e, ss, [],
     if existsb (fun kv => String.eqb (status (snd kv)) "active") ss
     then Err TypeError else Ok tt).
Proof.
  induction ss as [|[k s] ss IH]; cbn [sweepSessions existsb snd]; [reflexivity |].
  unfold sweepSession. destruct (String.eqb (status s) "active"); cbn [orb].
  - rewrite checkRouteRecalculation_throws. reflexivity.
  - rewrite IH. reflexivity.
Qed.

Lemma checkAllRoutesForRecalculation_throws srv now earthquakeData :
  checkAllRoutesForRecalculation srv now earthquakeData
  = (setSessions (activeSessions srv) (setEngine (routeEngine srv) srv), [],
     if existsb (fun kv => String.eqb (status (snd kv)) "active") (activeSessions srv)
     then Err TypeError else Ok tt).
Proof.
  unfold checkAllRoutesForRecalculation. rewrite sweepSessions_throws. reflexivity.
Qed.

End Trigger.

(** ** Alternative routes *)

Section Alternatives.
Context `{Geo}.

Lemma engineAt_app e primaryRoute acc rest k :
  (k <= S (length acc))%nat ->
  engineAt e primaryRoute (acc ++ rest) k = engineAt e primaryRoute acc k.
Proof.
  induction k as [|k IH]; intros Hk; [reflexivity |].
  cbn [engineAt]. rewrite IH by lia. rewrite take_app_le by lia. reflexivity.
Qed.

Lemma alternativesLoop_spec e start goal primaryRoute count acc e' alternatives :
  alternativesLoop count (engineAt e primaryRoute acc (length acc)) start goal primaryRoute acc
  = (e', alternatives) ->
  (exists rest, alternatives = acc ++ rest) /\
  (length alternatives <= length acc + count)%nat /\
  (forall k alt, (length acc <= k)%nat -> alternatives !! k = Some alt ->
     aStarAlgorithm (engineAt e primaryRoute alternatives (S k)) start goal = Ok alt) /\
  ((length alternatives < length acc + count)%nat ->
   exists x, aStarAlgorithm (engineAt e primaryRoute alternatives (S (length alternatives)))
               start goal = Err x).
Proof.
  revert acc. induction count as [|count IH]; intros acc; cbn [alternativesLoop].
  - intros [= <- <-]. split; [exists []; symmetry; apply app_nil_r |]. split; [lia |].
    split; [| lia].
    intros k alt Hk Hlook. apply lookup_lt_Some in Hlook. lia.
  - assert (penalizePreviousRoutes (engineAt e primaryRoute acc (length acc))
                                   (primaryRoute :: acc)
            = engineAt e primaryRoute acc (S (length acc))) as Hround.
    { cbn [engineAt]. rewrite firstn_all. reflexivity. }
    rewrite Hround.
    destruct (aStarAlgorithm (engineAt e primaryRoute acc (S (length acc))) start goal)
      as [altRoute|x] eqn:Hsearch.
    + intros Hloop.
      specialize (IH (acc ++ [altRoute])).
      rewrite length_app in IH. cbn [length] in IH.
      replace (length acc + 1)%nat with (S (length acc)) in IH by lia.
      rewrite engineAt_app in IH by lia.
      destruct (IH Hloop) as ((rest & ->) & Hlen & Hall & Hstop).
      split; [exists (altRoute :: rest); rewrite <- app_assoc; reflexivity |].
      split; [lia |]. split; [| intros Hlt; apply Hstop; lia].
      intros k alt Hk Hlook.
      destruct (decide (k = length acc)) as [-> | Hne]; [| apply Hall; [lia | exact Hlook]].
      rewrite <- app_assoc in Hlook |- *. cbn [app] in Hlook |- *.
      rewrite list_lookup_middle in Hlook by reflexivity. injection Hlook as <-.
      rewrite engineAt_app by lia. exact Hsearch.
    + intros [= <- <-]. split; [exists []; symmetry; apply app_nil_r |]. split; [lia |].
      split.
      * intros k alt Hk Hlook. apply lookup_lt_Some in Hlook. lia.
      * intros _. exists x. exact Hsearch.
Qed.

(** When the generation of alternatives returns, it returns at most
    [count] of them; each is the route the search finds after the weights
    of the edges of the primary route and of the earlier alternatives have
    been doubled once more, and the generation stops short only when that
    search fails. Nothing compares an alternative with the primary route or
    with an earlier alternative. *)
Lemma alternatives_searched_on_doubled_weights (e : Engine) (start goal : LatLng)
    (count : nat) (e' : Engine) (alternatives : list (list Node)) :
  generateAlternativeRoutes e start goal count = (e', Ok alternatives) ->
  exists primaryRoute,
    aStarAlgorithm e start goal = Ok primaryRoute /\
    (length alternatives <= count)%nat /\
    (forall k alt, alternatives !! k = Some alt ->
       aStarAlgorithm (engineAt e primaryRoute alternatives (S k)) start goal = Ok alt) /\
    ((length alternatives < count)%nat ->
     exists x, aStarAlgorithm (engineAt e primaryRoute alternatives (S (length alternatives)))
                 start goal = Err x).
Proof.
  unfold generateAlternativeRoutes.
  destruct (aStarAlgorithm e start goal) as [primaryRoute|x]; [| discriminate].
  destruct (alternativesLoop count e start goal primaryRoute []) as [e1 alts] eqn:Hloop.
  cbn [fst snd]. intros [= <- <-]. exists primaryRoute. split; [reflexivity |].
  destruct (alternativesLoop_spec e start goal primaryRoute count [] e1 alts Hloop)
    as (_ & Hlen & Hall & Hstop).
  cbn [length] in *. split; [lia |]. split; [| exact Hstop].
  intros k alt. apply Hall. lia.
Qed.

End Alternatives.

(** ** The engine at work on the small maps *)


(** C2, as stated, fails: under an event 5 km above the datum at the start
    of the road the seismic risk of the road is NaN, no number of [0,1],
    and so is its cost; and a density of -20000 recorded for the road gives
    the density term -20. *)
Lemma risk_terms_outside_unit_interval :
  (~ exists s, @calculateSeismicRisk planar roadAB (Some (collection [shallowQuake])) = Some s
               /\ unitInterval s) /\
  @edgeWeight planar (setInputs (Some (collection [shallowQuake])) ∅ singleRoad) roadAB = None /\
  ~ unitInterval (getCrowdDensity miscounted roadAB).
Proof.
  split; [| split].
  - intros (s & Hs & _). vm_compute in Hs. discriminate.
  - vm_compute. reflexivity.
  - unfold unitInterval. intros [H0 _]. vm_compute in H0. apply H0. reflexivity.
Qed.

(** C5, as stated, fails: under the event above the datum the cost of the
    road is NaN, which is not at least 0; with the density -20000 the cost
    is below 0; and so it is for a base distance of -10. *)
Lemma cost_below_floor :
  (~ exists cost,
       @edgeWeight planar (setInputs (Some (collection [shallowQuake])) ∅ singleRoad) roadAB
       = Some cost /\ 0 <= cost) /\
  (exists cost, @edgeWeight planar miscounted roadAB = Some cost /\ cost < 0) /\
  (exists cost, @edgeWeight planar singleRoad roadDown = Some cost /\ cost < 0).
Proof.
  split; [| split].
  - intros (cost & Hc & _). vm_compute in Hc. discriminate.
  - eexists. split; [vm_compute; reflexivity | vm_compute; reflexivity].
  - eexists. split; [vm_compute; reflexivity | vm_compute; reflexivity].
Qed.

(** C3. A session is active, and the cache of the feed holds an event of
    magnitude 6 of the last hour: condition (ii) holds. The update of the
    session is answered with the status 500, and the sweep ends with a
    TypeError at the session: the trigger calls a method that the engine
    does not have. Neither calculates anything; the session keeps its
    route. *)
Theorem trigger_throws_before_recalculation :
  significantActivity (usgsCache sampleServer) 2000 /\
  sessions_get (activeSessions sampleServer) "evac_1" = Some sampleSession /\
  status sampleSession = "active" /\
  @routeUpdate planar sampleServices sampleServer 2000 "evac_1" origin []
  = (setSessions [("evac_1", moveSession origin 2000 sampleSession)] sampleServer,
     Failed500, []) /\
  session_route (moveSession origin 2000 sampleSession) = session_route sampleSession /\
  @checkAllRoutesForRecalculation planar sampleServer 2000 [quake 6 1000]
  = (sampleServer, [], Err TypeError).
Proof.
  split.
  { exists (quake 6 1000). split; [apply list_elem_of_here |].
    split; [vm_compute; discriminate | vm_compute; discriminate]. }
  repeat split.
Qed.

(** C8. The map has no safe zone, and the snapshot has an event: the
    weight update, which comes before the test of the safe zones, throws
    'coordinates must contain numbers' at the first node of the graph, and
    that is what the caller gets, not 'No safe zones available'. *)
Theorem no_safe_zone_behind_weight_update :
  safeZones noZones = [] /\
  snd (@calculateSafeRoute planar noZones origin (Some (collection [quake 6 1000])) ∅)
  = Err InvalidCoordinates /\
  snd (@calculateSafeRoute planar noZones origin None ∅) = Err NoSafeZonesAvailable.
Proof. repeat split. Qed.

(** The loop of the search with the open set of section 4.3 of the
    specification, on the map [detour]: all weights are non-negative and
    the heuristic is consistent, hence never overestimates; the loop ends
    with S - w - G at cost 6 although S - a - v - w - G costs 4. The cheaper
    way to v is found while v waits in the open set, but the entry of v
    keeps the priority it was pushed with, so w is settled first, at the
    higher cost, and is never reopened. *)
Lemma aStar_misses_cheaper_route :
  let e := fst (@updateEdgeWeights planar (setInputs None ∅ detour)) in
  exists goalNode found costFound costOther,
    @findNearestNode planar e detourGoal = Some goalNode /\
    weightsNonNegative e = true /\
    @consistentHeuristic planar e goalNode = true /\
    @aStarAlgorithm planar e origin detourGoal = Ok found /\
    map node_id found = ["S"; "w"; "G"] /\
    map node_id detourRoute = ["S"; "a"; "v"; "w"; "G"] /\
    pathCost e found = Ok costFound /\
    pathCost e detourRoute = Ok costOther /\
    costFound == 6 /\ costOther == 4.
Proof.
  cbv zeta. do 4 eexists.
  split; [vm_compute; reflexivity |].
  split; [vm_compute; reflexivity |].
  split; [vm_compute; reflexivity |].
  split; [vm_compute; reflexivity |].
  split; [vm_compute; reflexivity |].
  split; [vm_compute; reflexivity |].
  split; [vm_compute; reflexivity |].
  split; [vm_compute; reflexivity |].
  split; vm_compute; reflexivity.
Qed.

(** ** The statements at work *)

Lemma crowded_densitiesNonNegative : densitiesNonNegative crowded.
Proof.
  intros k d Hk. unfold crowded in Hk. cbn [crowdDensityMap] in Hk.
  apply lookup_singleton_Some in Hk as [_ <-]. vm_compute. discriminate.
Qed.


Lemma edge_cost_formula_witness :
  densitiesNonNegative roadFirst /\
  unitInterval (getCrowdDensity roadFirst roadAB) /\
  cityGraph (fst (@updateEdgeWeights planar roadFirst)) !! 0%nat
  = Some ("A-B", EdgeEntry (setWeight (@edgeWeight planar roadFirst roadAB) roadAB)).
Proof.
  split; [exact crowded_densitiesNonNegative |].
  pose proof (@edge_cost_formula planar roadFirst roadAB) as Hw.
  cbv zeta in Hw. destruct Hw as (_ & _ & _ & Hdensity & _ & Hstored).
  split; [exact (Hdensity crowded_densitiesNonNegative) |].
  apply (Hstored [] "A-B" (tl (cityGraph roadFirst)) eq_refl). right. reflexivity.
Defined.

Lemma cost_floor_and_base_distance_witness :
  densitiesNonNegative crowded /\ 0 <= baseDistance roadAB /\
  match @edgeWeight planar (setInputs None ∅ crowded) roadAB with
  | Some cost => 0 <= cost /\ 0.1 * baseDistance roadAB <= cost
  | None => False
  end /\
  baseDistances (cityGraph (fst (@calculateSafeRoute planar crowded origin None ∅)))
  = baseDistances (cityGraph crowded).
Proof.
  assert (0 <= baseDistance roadAB) as Hb by (vm_compute; discriminate).
  split; [exact crowded_densitiesNonNegative |]. split; [exact Hb |].
  pose proof (@cost_floor_and_base_distance planar crowded roadAB origin None ∅) as Hw.
  destruct Hw as (Hfloor & _ & H4). split; [| exact H4].
  destruct (@edgeWeight planar (setInputs None ∅ crowded) roadAB) as [cost|] eqn:E.
  - exact (proj2 Hfloor crowded_densitiesNonNegative Hb).
  - destruct Hfloor as (q & Hq & _). inversion Hq.
Defined.


(** * Further properties of the engine *)

Section RiskModelMore.
Context `{Geo}.

(** X1. The structural term never reaches the threshold 0.9 of the
    penalty (it is at most 0.8): the cost of an edge is tripled exactly
    when its seismic risk exceeds 0.8. A seismic risk that is NaN exceeds
    nothing, and the cost is NaN. *)
Theorem penalty_only_from_seismic_risk (e : Engine) (edge : Edge) :
  Qltb 0.9 (calculateStructuralRisk e edge) = false /\
  match calculateSeismicRisk edge (seismicData e) with
  | Some s =>
    let c := specCost s (calculateStructuralRisk e edge) (getCrowdDensity e edge)
                      (getHazardReports e edge) (baseDistance edge) in
    exists w, edgeWeight e edge = Some w /\
      (0.8 < s -> w == 3 * c) /\
      (s <= 0.8 -> w == c)
  | None => edgeWeight e edge = None
  end.
Proof.
  pose proof (calculateStructuralRisk_range e edge) as Hst.
  split; [apply Qltb_ge; lra |].
  destruct (calculateSeismicRisk edge (seismicData e)) as [s|] eqn:E.
  - destruct (edgeWeight_cases e edge s E) as (w & Hw & H3 & H1). cbv zeta in H3, H1 |- *.
    exists w. split; [exact Hw |]. split.
    + intros Hs. apply H3. left. exact Hs.
    + intros Hs. apply H1. intros [Hc | Hc]; lra.
  - apply edgeWeight_NaN, E.
Qed.

Lemma maxRisk_upper edge fs m r :
  fold_left (fun maxRisk q => mathMax maxRisk (earthquakeRisk edge q)) fs (Some m) = Some r ->
  m <= r /\
  forall q, q ∈ fs -> exists x, earthquakeRisk edge q = Some x /\ x <= r.
Proof.
  revert m. induction fs as [|f fs IH]; intros m; cbn [fold_left].
  - intros [= <-]. split; [lra | intros q Hq; inversion Hq].
  - destruct (earthquakeRisk edge f) as [x|] eqn:E; cbn [mathMax];
      [| rewrite maxRisk_NaN; discriminate].
    intros Hr. destruct (IH _ Hr) as [H1 H2].
    pose proof (Q.le_max_l m x) as Hl. pose proof (Q.le_max_r m x) as Hx.
    split; [lra |]. intros q Hq. apply elem_of_cons in Hq as [-> | Hq].
    + exists x. split; [exact E | lra].
    + apply H2, Hq.
Qed.

Lemma maxRisk_attained edge fs m r :
  fold_left (fun maxRisk q => mathMax maxRisk (earthquakeRisk edge q)) fs (Some m) = Some r ->
  r == m \/ exists q x, q ∈ fs /\ earthquakeRisk edge q = Some x /\ r == x.
Proof.
  revert m. induction fs as [|f fs IH]; intros m; cbn [fold_left].
  - intros [= <-]. left. reflexivity.
  - destruct (earthquakeRisk edge f) as [x|] eqn:E; cbn [mathMax];
      [| rewrite maxRisk_NaN; discriminate].
    intros Hr. destruct (IH _ Hr) as [Hm | (q & y & Hq & Hy & Hr')].
    + destruct (Q.max_spec m x) as [[_ Hx] | [_ Hx]].
      * right. exists f, x. split; [apply list_elem_of_here |]. split; [exact E |].
        rewrite Hm. exact Hx.
      * left. rewrite Hm. exact Hx.
    + right. exists q, y. split; [apply list_elem_of_further, Hq | split; assumption].
Qed.

(** X2. The seismic risk of an edge is the largest risk any event of the
    snapshot gives it: a snapshot that holds all the events of another one
    gives at least the same risk, whatever the order of its events, unless
    one of its events makes the risk NaN. *)
Theorem seismic_risk_grows_with_events (edge : Edge) (fs gs : list Earthquake) :
  (forall q, q ∈ fs -> q ∈ gs) ->
  match calculateSeismicRisk edge (Some {| features := Some gs |}) with
  | Some larger =>
    exists smaller,
      calculateSeismicRisk edge (Some {| features := Some fs |}) = Some smaller /\
      smaller <= larger
  | None => exists q, q ∈ gs /\ attenuationNaN edge q
  end.
Proof.
  intros Hsub.
  destruct (calculateSeismicRisk edge (Some {| features := Some gs |})) as [R|] eqn:Eg.
  2:{ apply calculateSeismicRisk_NaN in Eg. exact Eg. }
  destruct (calculateSeismicRisk edge (Some {| features := Some fs |})) as [r|] eqn:Ef.
  2:{ apply calculateSeismicRisk_NaN in Ef as (q & Hq & Hn).
      assert (calculateSeismicRisk edge (Some {| features := Some gs |}) = None) as Hg.
      { apply calculateSeismicRisk_NaN. exists q. split; [apply Hsub, Hq | exact Hn]. }
      congruence. }
  exists r. split; [reflexivity |].
  unfold calculateSeismicRisk in Eg, Ef. cbn [features] in Eg, Ef.
  destruct (maxRisk_upper edge gs 0 R Eg) as [H0 Hall].
  destruct (maxRisk_attained edge fs 0 r Ef) as [Hm | (q & x & Hq & Hx & Hr)].
  - rewrite Hm. exact H0.
  - destruct (Hall q (Hsub q Hq)) as (y & Hy & Hle). rewrite Hr.
    assert (x = y) as -> by congruence. exact Hle.
Qed.

Lemma riskScore_lower hazards acc :
  acc + 0.3 * inject_Z (Z.of_nat (length hazards))
  <= fold_left (fun riskScore hazard => riskScore + hazardScore hazard) hazards acc.
Proof.
  revert acc. induction hazards as [|h hs IH]; intros acc.
  - cbn [fold_left length]. change (inject_Z (Z.of_nat 0)) with 0. lra.
  - cbn [fold_left length]. specialize (IH (acc + hazardScore h)).
    rewrite Nat2Z.inj_succ. unfold Z.succ. rewrite inject_Z_plus.
    assert (0.3 <= hazardScore h) as Hh.
    { unfold hazardScore.
      repeat match goal with |- context [if ?b then _ else _] => destruct b end; lra. }
    change (inject_Z 1) with 1. lra.
Qed.

(** X3. Every report on an edge adds at least 0.3 to its hazard score, and
    the score is capped at 1: with four or more reports, of whatever types,
    the hazard term is 1. *)
Theorem four_reports_saturate (e : Engine) (edge : Edge) (hazards : list Hazard) :
  hazardMap e !! edge_id edge = Some hazards ->
  (4 <= length hazards)%nat ->
  getHazardReports e edge == 1.
Proof.
  intros Hh Hlen. unfold getHazardReports. rewrite Hh. cbn [default from_option id]. cbv zeta.
  pose proof (riskScore_lower hazards 0) as Hlow.
  assert (4 <= inject_Z (Z.of_nat (length hazards))) as Hn.
  { change 4 with (inject_Z 4). rewrite <- Zle_Qle. lia. }
  revert Hlow. generalize (fold_left (fun riskScore hazard => riskScore + hazardScore hazard)
                                     hazards 0).
  intros s Hs. qminmax. lra.
Qed.

End RiskModelMore.

Section Nearest.
Context `{Geo}.

Lemma nearestBy_scan {A} (d : A -> Q) (rest pre : list A) (acc : option A * option Q) :
  match acc with
  | (None, None) => pre = []
  | (Some x, Some m) => m = d x /\ firstClosest d pre x
  | _ => False
  end ->
  match fold_left
          (fun acc x => let distance := d x in
             if belowMin distance (snd acc) then (Some x, Some distance) else acc)
          rest acc with
  | (None, None) => pre ++ rest = []
  | (Some x, Some m) => m = d x /\ firstClosest d (pre ++ rest) x
  | _ => False
  end.
Proof.
  revert pre acc. induction rest as [|a rest IH]; intros pre acc Hacc; cbn [fold_left].
  - rewrite app_nil_r. exact Hacc.
  - replace (pre ++ a :: rest) with ((pre ++ [a]) ++ rest)
      by (rewrite <- app_assoc; reflexivity).
    apply IH. cbv zeta. destruct acc as [[x|] [m|]]; try contradiction; cbn [snd belowMin].
    + destruct Hacc as [-> (l1 & l2 & -> & H1 & H2)].
      destruct (Qltb (d a) (d x)) eqn:E.
      * apply Qltb_lt in E. split; [reflexivity |].
        exists (l1 ++ x :: l2), []. split; [reflexivity |]. split.
        -- intros y Hy. apply elem_of_app in Hy as [Hy | Hy].
           ++ specialize (H1 y Hy). lra.
           ++ apply elem_of_cons in Hy as [-> | Hy]; [exact E |].
              specialize (H2 y Hy). lra.
        -- intros y Hy. inversion Hy.
      * apply Qltb_ge in E. split; [reflexivity |].
        exists l1, (l2 ++ [a]). split; [rewrite <- app_assoc; reflexivity |].
        split; [exact H1 |]. intros y Hy. apply elem_of_app in Hy as [Hy | Hy].
        -- apply H2, Hy.
        -- apply list_elem_of_singleton in Hy. subst y. exact E.
    + subst pre. split; [reflexivity |]. exists [], []. split; [reflexivity |].
      split; intros y Hy; inversion Hy.
Qed.

Lemma nearestBy_spec {A} (d : A -> Q) (l : list A) :
  match nearestBy d l with
  | None => l = []
  | Some x => firstClosest d l x
  end.
Proof.
  unfold nearestBy.
  pose proof (nearestBy_scan d l [] (None, None) eq_refl) as Hscan.
  cbn [app] in Hscan.
  destruct (fold_left _ l (None, None)) as [[x|] [m|]]; try contradiction; cbn [fst].
  - apply Hscan.
  - exact Hscan.
Qed.

(** X4. [findNearestSafeZone] returns null exactly when there is no safe
    zone, and [findNearestNode] exactly when the graph holds no node;
    otherwise each returns the first entry, in the order of the list or of
    the Map, among those at the least distance from the location. *)
Theorem nearest_is_first_closest (e : Engine) (location : LatLng) :
  match findNearestSafeZone e location with
  | None => safeZones e = []
  | Some z => firstClosest (fun z => kilometers location (zonePoint z)) (safeZones e) z
  end /\
  match findNearestNode e location with
  | None => nodesOf (cityGraph e) = []
  | Some n => firstClosest (fun n => meters location (nodePoint n)) (nodesOf (cityGraph e)) n
  end.
Proof.
  split.
  - exact (nearestBy_spec (fun z => kilometers location (zonePoint z)) (safeZones e)).
  - exact (nearestBy_spec (fun n => meters location (nodePoint n)) (nodesOf (cityGraph e))).
Qed.

End Nearest.

Section Penalties.
Context `{Geo}.

Lemma graph_get_alter f k k' g :
  graph_get (graph_alter f k g) k'
  = if String.eqb k' k then f <$> graph_get g k' else graph_get g k'.
Proof.
  induction g as [|[k0 en] g IH]; cbn [graph_alter graph_get].
  - destruct (String.eqb k' k); reflexivity.
  - destruct (String.eqb k k0) eqn:E0; cbn [graph_get].
    + apply String.eqb_eq in E0. subst k0.
      destruct (String.eqb k' k); reflexivity.
    + destruct (String.eqb k' k0) eqn:E1; [| exact IH].
      apply String.eqb_eq in E1. subst k0.
      rewrite String.eqb_sym, E0. reflexivity.
Qed.

Lemma graph_alter_missing f k g : graph_get g k = None -> graph_alter f k g = g.
Proof.
  induction g as [|[k0 en] g IH]; cbn [graph_alter graph_get]; [reflexivity |].
  destruct (String.eqb k k0); [discriminate |]. intros Hg. rewrite (IH Hg). reflexivity.
Qed.

Lemma penalize_by_keys routes g :
  fold_left penalizeRoute routes g
  = fold_left (fun g k => graph_alter doubleWeight k g) (segmentKeys routes) g.
Proof.
  unfold segmentKeys. revert g. induction routes as [|r rs IH]; intros g; [reflexivity |].
  cbn [fold_left map concat]. rewrite fold_left_app, <- IH. f_equal.
  unfold penalizeRoute. generalize (segments r) as ss. clear.
  intros ss. revert g. induction ss as [|s ss IH]; intros g; [reflexivity |].
  cbn [fold_left map]. apply IH.
Qed.

Lemma graph_get_alter_all keys g k :
  graph_get (fold_left (fun g k => graph_alter doubleWeight k g) keys g) k
  = Nat.iter (occurrences k keys) doubleWeight <$> graph_get g k.
Proof.
  unfold occurrences. revert g. induction keys as [|k0 keys IH]; intros g; cbn [fold_left].
  - cbn. destruct (graph_get g k); reflexivity.
  - rewrite IH, graph_get_alter. rewrite filter_cons.
    destruct (decide (String.eqb k0 k = true)) as [E | E].
    + apply String.eqb_eq in E. subst k0. rewrite String.eqb_refl. cbn [length].
      destruct (graph_get g k) as [en|]; [| reflexivity].
      unfold fmap, option_fmap, option_map. f_equal. symmetry. apply Nat.iter_succ_r.
    + assert (String.eqb k k0 = false) as ->
        by (rewrite String.eqb_sym; destruct (String.eqb k0 k); congruence).
      reflexivity.
Qed.

Lemma iter_doubleWeight n edge :
  Nat.iter n doubleWeight (EdgeEntry edge)
  = EdgeEntry (setWeight (Nat.iter n (fun w => w * 2) <$> weight edge) edge).
Proof.
  induction n as [|n IH]; cbn [Nat.iter nat_rect].
  - destruct edge as [? ? ? ? [w|]]; reflexivity.
  - unfold Nat.iter in IH. rewrite IH. cbn [doubleWeight weight setWeight].
    destruct (weight edge); reflexivity.
Qed.

(** X5. [penalizePreviousRoutes] doubles the weight of an edge once for
    every step of the given routes whose key, from-to in the direction of
    travel, is the key of the edge (a weight that is NaN stays NaN); it
    changes nothing else, and adds no entry. *)
Theorem penalty_doubles_per_step (e : Engine) (routes : list (list Node)) (k : string) :
  let n := occurrences k (segmentKeys routes) in
  let g' := cityGraph (penalizePreviousRoutes e routes) in
  (forall edge, graph_get (cityGraph e) k = Some (EdgeEntry edge) ->
     graph_get g' k
     = Some (EdgeEntry (setWeight (Nat.iter n (fun w => w * 2) <$> weight edge) edge))) /\
  (forall node, graph_get (cityGraph e) k = Some (NodeEntry node) ->
     graph_get g' k = Some (NodeEntry node)) /\
  (graph_get (cityGraph e) k = None -> graph_get g' k = None).
Proof.
  cbv zeta. unfold penalizePreviousRoutes. cbn [cityGraph setGraph].
  rewrite penalize_by_keys, graph_get_alter_all.
  split; [| split].
  - intros edge ->. cbn. rewrite iter_doubleWeight. reflexivity.
  - intros node ->. cbn. f_equal.
    induction (occurrences k (segmentKeys routes)) as [|n IH]; [reflexivity |].
    cbn [Nat.iter nat_rect]. unfold Nat.iter in IH. rewrite IH. reflexivity.
  - intros ->. reflexivity.
Qed.

Lemma penalizeRoute_missing g r :
  (forall a b, (a, b) ∈ segments r -> graph_get g (edgeKey (node_id a) (node_id b)) = None) ->
  penalizeRoute g r = g.
Proof.
  unfold penalizeRoute. induction (segments r) as [|[a b] ss IH]; intros Hm; [reflexivity |].
  cbn [fold_left fst snd]. rewrite graph_alter_missing by (apply Hm, list_elem_of_here).
  apply IH. intros a' b' Hin. apply Hm, list_elem_of_further, Hin.
Qed.

Lemma setGraph_same e : setGraph (cityGraph e) e = e.
Proof. destruct e; reflexivity. Qed.

Lemma alternativesLoop_missing count e start goal primaryRoute i :
  aStarAlgorithm e start goal = Ok primaryRoute ->
  (forall a b, (a, b) ∈ segments primaryRoute ->
     graph_get (cityGraph e) (edgeKey (node_id a) (node_id b)) = None) ->
  alternativesLoop count e start goal primaryRoute (replicate i primaryRoute)
  = (e, replicate (i + count) primaryRoute).
Proof.
  intros Hs Hm. revert i. induction count as [|count IH]; intros i; cbn [alternativesLoop].
  - rewrite Nat.add_0_r. reflexivity.
  - assert (penalizePreviousRoutes e (primaryRoute :: replicate i primaryRoute) = e) as ->.
    { unfold penalizePreviousRoutes.
      change (primaryRoute :: replicate i primaryRoute) with (replicate (S i) primaryRoute).
      generalize (S i) as n. intros n.
      assert (fold_left penalizeRoute (replicate n primaryRoute) (cityGraph e) = cityGraph e)
        as ->; [| apply setGraph_same].
      induction n as [|n IHn]; [reflexivity |].
      cbn [replicate fold_left]. rewrite (penalizeRoute_missing _ _ Hm). exact IHn. }
    rewrite Hs.
    replace (replicate i primaryRoute ++ [primaryRoute]) with (replicate (S i) primaryRoute).
    + rewrite IH. f_equal. f_equal. lia.
    + clear. induction i as [|i IH]; [reflexivity |].
      cbn [replicate app] in *. rewrite <- IH. reflexivity.
Qed.

(** X6. [getEdge] finds an edge under the key of either direction, but
    the penalty looks only under the key of the direction of travel: when
    no step of the primary route has an entry under that key, the penalty
    changes nothing and every alternative is the primary route again. *)
Theorem alternatives_repeat_against_stored_direction (e : Engine) (start goal : LatLng)
    (count : nat) (primaryRoute : list Node) :
  aStarAlgorithm e start goal = Ok primaryRoute ->
  (forall a b, (a, b) ∈ segments primaryRoute ->
     graph_get (cityGraph e) (edgeKey (node_id a) (node_id b)) = None) ->
  generateAlternativeRoutes e start goal count = (e, Ok (replicate count primaryRoute)).
Proof.
  intros Hs Hm. unfold generateAlternativeRoutes. rewrite Hs.
  change (@nil (list Node)) with (replicate 0 primaryRoute).
  rewrite (alternativesLoop_missing count e start goal primaryRoute 0 Hs Hm).
  reflexivity.
Qed.

(** X7. [calculateRouteRiskLevel] too looks only under the key of the
    direction of travel, and averages over the steps it finds: a route
    none of whose steps has an entry under that key, a route of fewer than
    two nodes among them, is rated MODERATE whatever the weights are. *)
Theorem risk_level_without_stored_steps (e : Engine) (path : list Node) :
  (forall a b, (a, b) ∈ segments path ->
     graph_get (cityGraph e) (edgeKey (node_id a) (node_id b)) = None) ->
  calculateRouteRiskLevel e path = MODERATE.
Proof.
  intros Hm. unfold calculateRouteRiskLevel.
  assert (fold_left
            (fun acc s =>
               match graph_get (cityGraph e) (edgeKey (node_id (fst s)) (node_id (snd s))) with
               | None => acc
               | Some (EdgeEntry edge) =>
                 (match fst acc, weight edge with
                  | Some t, Some w => Some (t + w)
                  | _, _ => None
                  end,
                  S (snd acc))
               | Some (NodeEntry _) => (None, S (snd acc))
               end)
            (segments path) (Some 0, O) = (Some 0, O)) as ->.
  { induction (segments path) as [|[a b] ss IH]; [reflexivity |].
    cbn [fold_left fst snd]. rewrite (Hm a b) by apply list_elem_of_here.
    apply IH. intros a' b' Hin. apply Hm, list_elem_of_further, Hin. }
  reflexivity.
Qed.

End Penalties.

Section StoredWeights.
Context `{Geo}.

Lemma elem_graph_alter f k0 g k en' :
  (k, en') ∈ graph_alter f k0 g ->
  (k, en') ∈ g \/ exists en, (k, en) ∈ g /\ en' = f en.
Proof.
  induction g as [|[k1 en1] g IH]; cbn [graph_alter]; [intros Hin; inversion Hin |].
  destruct (String.eqb k0 k1); intros Hin; apply elem_of_cons in Hin as [Heq | Hin].
  - injection Heq as -> ->. right. exists en1. split; [apply list_elem_of_here | reflexivity].
  - left. apply list_elem_of_further, Hin.
  - left. rewrite Heq. apply list_elem_of_here.
  - destruct (IH Hin) as [Hg | (en & Hg & ->)].
    + left. apply list_elem_of_further, Hg.
    + right. exists en. split; [apply list_elem_of_further, Hg | reflexivity].
Qed.

Lemma weights_alter k0 g :
  weightsAtLeastZero g -> weightsAtLeastZero (graph_alter doubleWeight k0 g).
Proof.
  intros Hg k edge w Hin Hw.
  destruct (elem_graph_alter _ _ _ _ _ Hin) as [Hold | (en & Hold & Heq)].
  - exact (Hg k edge w Hold Hw).
  - destruct en as [n|edge0]; cbn [doubleWeight] in Heq; [discriminate |].
    injection Heq as ->. cbn [weight setWeight] in Hw.
    destruct (weight edge0) as [w0|] eqn:E; [| discriminate].
    injection Hw as <-. pose proof (Hg k edge0 w0 Hold E). lra.
Qed.

Lemma weights_penalize e routes :
  weightsAtLeastZero (cityGraph e) ->
  weightsAtLeastZero (cityGraph (penalizePreviousRoutes e routes)).
Proof.
  unfold penalizePreviousRoutes. cbn [cityGraph setGraph]. rewrite penalize_by_keys.
  generalize (cityGraph e) as g. induction (segmentKeys routes) as [|k ks IH]; intros g Hg.
  - exact Hg.
  - cbn [fold_left]. apply IH, weights_alter, Hg.
Qed.

Lemma weights_alternativesLoop count e start goal primaryRoute alternatives :
  weightsAtLeastZero (cityGraph e) ->
  weightsAtLeastZero
    (cityGraph (fst (alternativesLoop count e start goal primaryRoute alternatives))).
Proof.
  revert e alternatives. induction count as [|n IH]; intros e alts Hg; [exact Hg |].
  cbn [alternativesLoop].
  pose proof (weights_penalize e (primaryRoute :: alts) Hg) as Hp.
  destruct (aStarAlgorithm _ start goal); [apply IH, Hp | exact Hp].
Qed.

Lemma weights_updateEntries e g :
  densitiesNonNegative e -> distancesAtLeastZero g -> weightsAtLeastZero g ->
  weightsAtLeastZero (fst (updateEntries e g)).
Proof.
  intros Hd. induction g as [|[k0 en] g IH]; intros Hb Hg; cbn [updateEntries]; [exact Hg |].
  destruct (updateEntry_cases e en) as [-> | (-> & _)]; cbn [fst snd]; [| exact Hg].
  intros k edge w Hin Hw. apply elem_of_cons in Hin as [Heq | Hin].
  - injection Heq as -> Heq. destruct en as [n|edge0]; cbn [writeWeight] in Heq;
      [discriminate |].
    injection Heq as ->. cbn [weight setWeight] in Hw.
    apply (edgeWeight_floor e edge0 w Hd); [| exact Hw].
    apply (Hb k0 edge0), list_elem_of_here.
  - apply (IH ltac:(intros k1 e1 H1; apply (Hb k1 e1), list_elem_of_further, H1)
              ltac:(intros k1 e1 w1 H1; apply (Hg k1 e1 w1), list_elem_of_further, H1)
              k edge w Hin Hw).
Qed.

Lemma weights_update e :
  densitiesNonNegative e -> distancesAtLeastZero (cityGraph e) ->
  weightsAtLeastZero (cityGraph e) ->
  weightsAtLeastZero (cityGraph (fst (updateEdgeWeights e))).
Proof.
  intros Hd Hb Hg. unfold updateEdgeWeights. cbn [cityGraph setGraph fst].
  apply weights_updateEntries; assumption.
Qed.

(** X8. On a graph without negative base distances or densities, a
    calculation, whether it returns a route or throws, leaves no negative
    weight in the graph when there was none before: the weight update
    writes costs that are at least 0 or NaN on the edges it reaches, and
    the penalties that stay in the graph only double. *)
Theorem stored_weights_never_negative (e : Engine) (userLocation : LatLng)
    (seismic : option SeismicData) (hazards : gmap string (list Hazard)) :
  densitiesNonNegative e -> distancesAtLeastZero (cityGraph e) ->
  weightsAtLeastZero (cityGraph e) ->
  weightsAtLeastZero (cityGraph (fst (calculateSafeRoute e userLocation seismic hazards))).
Proof.
  intros Hd Hb Hg.
  pose proof (weights_update (setInputs seismic hazards e) Hd Hb Hg) as H1.
  unfold calculateSafeRoute. cbv zeta.
  destruct (snd (updateEdgeWeights _)) as [[]|x]; [| exact H1].
  destruct (findNearestSafeZone _ userLocation) as [z|]; [| exact H1].
  destruct (aStarAlgorithm _ userLocation (zonePoint z)) as [r|x] eqn:Hs; [| exact H1].
  unfold generateAlternativeRoutes. rewrite Hs. cbn [fst snd].
  apply weights_alternativesLoop, H1.
Qed.

Lemma walkingSeconds_fold ss acc :
  fold_left
    (fun totalTime s => totalTime + meters (nodePoint (fst s)) (nodePoint (snd s)) / 1.4)
    ss acc
  == acc + fold_right (fun s t => t + meters (nodePoint (fst s)) (nodePoint (snd s)) / 1.4)
                      0 ss.
Proof.
  revert acc. induction ss as [|s ss IH]; intros acc; cbn [fold_left fold_right].
  - lra.
  - rewrite IH. lra.
Qed.

Lemma walkingSeconds_nonneg route :
  (forall p q, 0 <= turf_distance p q) -> 0 <= walkingSeconds route.
Proof.
  intros Hd. unfold walkingSeconds.
  induction (segments route) as [|s ss IH]; cbn [fold_right]; [lra |].
  unfold meters in *. pose proof (Hd (nodePoint (fst s)) (nodePoint (snd s))) as Hs.
  revert Hs IH. generalize (turf_distance (nodePoint (fst s)) (nodePoint (snd s))).
  intros d Hs IH. qdiv. lra.
Qed.

(** X9. The estimated time is the least whole number of minutes that
    covers the walking time at 1.4 m/s over the steps of the route; it is
    never negative when distances are not. *)
Theorem estimated_time_covers_walk (route : list Node) :
  (forall p q, 0 <= turf_distance p q) ->
  let t := calculateEstimatedTime route in
  (0 <= t)%Z /\
  walkingSeconds route <= 60 * inject_Z t /\
  60 * inject_Z t < walkingSeconds route + 60.
Proof.
  intros Hd. cbv zeta. unfold calculateEstimatedTime. cbv zeta.
  pose proof (walkingSeconds_fold (segments route) 0) as Hfold.
  fold (walkingSeconds route) in Hfold.
  assert (Qceiling
            (fold_left
               (fun totalTime s =>
                  totalTime + meters (nodePoint (fst s)) (nodePoint (snd s)) / 1.4)
               (segments route) 0 / 60)
          = Qceiling (walkingSeconds route / 60)) as ->.
  { apply Qceiling_comp. rewrite Hfold. qdiv. lra. }
  pose proof (walkingSeconds_nonneg route Hd) as Hnn.
  pose proof (Qle_ceiling (walkingSeconds route / 60)) as Hup.
  pose proof (Qceiling_lt (walkingSeconds route / 60)) as Hlo.
  revert Hup Hlo. generalize (Qceiling (walkingSeconds route / 60)). intros t Hup Hlo.
  unfold Z.sub in Hlo. rewrite inject_Z_plus in Hlo.
  change (inject_Z (- (1))%Z) with (-1) in Hlo.
  qdiv. split; [| split; lra].
  assert (-1 < inject_Z t) as Hgt by lra.
  destruct (Z_lt_le_dec t 0) as [Hneg | Hpos]; [| exact Hpos].
  exfalso. assert (t <= -1)%Z as Hle by lia. rewrite Zle_Qle in Hle.
  change (inject_Z (-1)) with (-1) in Hle. lra.
Qed.

End StoredWeights.

Section Walk.
Context `{Geo}.

Lemma graph_get_NoDup g k en :
  NoDup (map fst g) -> (k, en) ∈ g -> graph_get g k = Some en.
Proof.
  induction g as [|[k0 en0] g IH]; intros Hnd Hin; [inversion Hin |].
  cbn [map fst] in Hnd. apply NoDup_cons in Hnd as [Hfresh Hnd].
  cbn [graph_get]. apply elem_of_cons in Hin as [Heq | Hin].
  - injection Heq as -> ->. rewrite String.eqb_refl. reflexivity.
  - destruct (String.eqb k k0) eqn:E; [| apply IH; assumption].
    apply String.eqb_eq in E. subst k0. exfalso. apply Hfresh.
    apply list_elem_of_In, in_map_iff. exists (k, en).
    split; [reflexivity | apply list_elem_of_In, Hin].
Qed.

Lemma asNode_Ok e k n : asNode (getNode e k) = Ok n -> getNode e k = Some (NodeEntry n).
Proof.
  unfold asNode. destruct (getNode e k) as [[m|]|]; try discriminate.
  intros [= ->]. reflexivity.
Qed.

Lemma set_add_elem x c s : x ∈ set_add c s <-> x ∈ s \/ x = c.
Proof.
  unfold set_add. destruct (set_has c s) eqn:E.
  - apply set_has_true in E. split; [auto | intros [Hx | ->]; assumption].
  - rewrite elem_of_app, list_elem_of_singleton. reflexivity.
Qed.

Lemma aStarInit_walk e s goalNode :
  getNode e (node_id s) = Some (NodeEntry s) -> aStarWalkInv e s (aStarInit s goalNode).
Proof.
  intros Hs. split; cbn [aStarInit openSet closedSet cameFrom pq_push app itemIds map item_node].
  - intros n p Hp. rewrite lookup_empty in Hp. discriminate.
  - apply lookup_empty.
  - intros x [Hx | Hx]; [inversion Hx |]. apply list_elem_of_singleton in Hx. auto.
  - right. reflexivity.
  - intros item Hi. apply list_elem_of_singleton in Hi. subst item. exact Hs.
Qed.

Lemma relax_walk e s goalNode current st n st' :
  nodesKeyed (cityGraph e) ->
  aStarWalkInv e s st ->
  node_id s ∈ closedSet st ->
  getNode e (node_id current) = Some (NodeEntry current) ->
  n ∈ neighbors current ->
  relax e goalNode current st n = Ok st' ->
  aStarWalkInv e s st'.
Proof.
  intros Hk Hw Hs Hcur Hn. unfold relax.
  destruct (set_has n (closedSet st)) eqn:Hclosed; [intros [= <-]; exact Hw |].
  apply set_has_false in Hclosed.
  destruct (weightOf (getEdge e (node_id current) n)) as [w|x] eqn:Hedge; [| discriminate].
  cbn [mbind Result_bind].
  destruct (gScore st !! node_id current) as [g|]; [| discriminate].
  cbv zeta.
  match goal with |- (if ?b then _ else _) = _ -> _ => destruct b end;
    [| intros [= <-]; exact Hw].
  destruct (asNode (getNode e n)) as [nb|x] eqn:Hnb; [| discriminate].
  cbn [mbind Result_bind openSet closedSet gScore fScore cameFrom].
  destruct (asNode_keyed e n nb Hk Hnb) as [Hid _].
  apply asNode_Ok in Hnb.
  assert (n <> node_id s) as Hns by (intros ->; exact (Hclosed Hs)).
  assert (forall m p, <[n := node_id current]> (cameFrom st) !! m = Some p ->
            exists pn, getNode e p = Some (NodeEntry pn) /\ m ∈ neighbors pn /\
                       exists w, weightOf (getEdge e p m) = Ok w) as Hfrom.
  { intros m p. rewrite lookup_insert. case_decide as Hm.
    - subst m. intros [= <-]. exists current. split; [exact Hcur |]. split; [exact Hn |].
      exists w. exact Hedge.
    - apply Hw. }
  assert (<[n := node_id current]> (cameFrom st) !! node_id s = None) as Hstart.
  { rewrite lookup_insert_ne by exact Hns. apply Hw. }
  assert (forall x, x ∈ closedSet st \/ x ∈ itemIds (openSet st) \/ x = n ->
            x = node_id s \/ is_Some (<[n := node_id current]> (cameFrom st) !! x)) as Hreach.
  { intros x Hx. destruct (decide (n = x)) as [<- | Hne].
    - right. rewrite lookup_insert_eq. eauto.
    - rewrite lookup_insert_ne by exact Hne. apply (walk_reached e s st Hw).
      destruct Hx as [Hx | [Hx | ->]]; [auto | auto | congruence]. }
  destruct (pq_some n (openSet st)); intros [= <-].
  - split; cbn [openSet closedSet cameFrom]; try assumption.
    + intros x Hx. apply Hreach. tauto.
    + left. exact Hs.
    + apply (walk_open e s st Hw).
  - split; cbn [openSet closedSet cameFrom]; try assumption.
    + intros x [Hx | Hx]; apply Hreach; [tauto |].
      unfold pq_push, itemIds in Hx. rewrite map_app in Hx. cbn [map item_node] in Hx.
      apply elem_of_app in Hx as [Hx | Hx]; [tauto |].
      apply list_elem_of_singleton in Hx. subst x. rewrite Hid. tauto.
    + left. exact Hs.
    + intros item Hi. unfold pq_push in Hi. apply elem_of_app in Hi as [Hi | Hi].
      * apply (walk_open e s st Hw), Hi.
      * apply list_elem_of_singleton in Hi. subst item. cbn [item_node].
        rewrite Hid. exact Hnb.
Qed.

Lemma relaxAll_walk e s goalNode current ns st st' :
  nodesKeyed (cityGraph e) -> aStarInv e st ->
  aStarWalkInv e s st ->
  node_id s ∈ closedSet st -> node_id current ∈ closedSet st ->
  getNode e (node_id current) = Some (NodeEntry current) ->
  (forall n, n ∈ ns -> n ∈ neighbors current) ->
  relaxAll e goalNode current st ns = Ok st' ->
  aStarWalkInv e s st'.
Proof.
  intros Hk. revert st. induction ns as [|n ns IH]; intros st Hi Hw Hs Hc Hcur Hns;
    cbn [relaxAll].
  - intros [= <-]. exact Hw.
  - destruct (relax e goalNode current st n) as [st1|x] eqn:E; [| discriminate].
    cbn [mbind Result_bind].
    destruct (relax_inv e goalNode current st n st1 Hk Hi Hc E) as [Hi1 Hc1].
    apply IH; try rewrite Hc1; try assumption.
    + apply (relax_walk e s goalNode current st n); try assumption.
      apply Hns, list_elem_of_here.
    + intros m Hm. apply Hns, list_elem_of_further, Hm.
Qed.

Lemma settle_walk e s st item rest :
  aStarWalkInv e s st -> pq_pop (openSet st) = Some (item, rest) ->
  let current := item_node item in
  let st1 := {| openSet := rest;
                closedSet := set_add (node_id current) (closedSet st);
                gScore := gScore st; fScore := fScore st; cameFrom := cameFrom st |} in
  aStarWalkInv e s st1 /\ node_id s ∈ closedSet st1 /\
  getNode e (node_id current) = Some (NodeEntry current).
Proof.
  intros Hw Hpop. cbv zeta. apply pq_pop_perm in Hpop.
  assert (itemIds (openSet st) ≡ₚ node_id (item_node item) :: itemIds rest) as Hperm.
  { unfold itemIds. rewrite Hpop. reflexivity. }
  assert (node_id s ∈ set_add (node_id (item_node item)) (closedSet st)) as Hs.
  { apply set_add_elem. destruct (walk_started e s st Hw) as [Hc | Ho]; [auto |].
    right. rewrite Ho in Hperm. symmetry in Hperm.
    apply Permutation_length in Hperm as Hlen. cbn [length] in Hlen.
    destruct (itemIds rest); [| discriminate].
    apply Permutation_singleton_r in Hperm. congruence. }
  split; [| split].
  - split; cbn [openSet closedSet cameFrom].
    + apply (walk_from e s st Hw).
    + apply (walk_start e s st Hw).
    + intros x Hx. apply (walk_reached e s st Hw).
      rewrite set_add_elem in Hx. rewrite Hperm, elem_of_cons. tauto.
    + left. exact Hs.
    + intros it Hit. apply (walk_open e s st Hw). rewrite Hpop.
      apply list_elem_of_further, Hit.
  - exact Hs.
  - apply (walk_open e s st Hw). rewrite Hpop. apply list_elem_of_here.
Qed.

Lemma reconstructPath_walk e s st fuel current tl res :
  nodesKeyed (cityGraph e) -> aStarInv e st -> aStarWalkInv e s st ->
  reconstructPath fuel e (cameFrom st) current (current :: tl) = Ok res ->
  validWalk e (current :: tl) ->
  validWalk e res /\
  last res = last (current :: tl) /\
  exists h rest, res = h :: rest /\ cameFrom st !! node_id h = None /\
                 (h = current \/ node_id h ∈ closedSet st).
Proof.
  intros Hk Hi Hw. revert current tl.
  induction fuel as [|fuel IH]; intros current tl; cbn [reconstructPath];
    destruct (cameFrom st !! node_id current) as [p|] eqn:Hp; try discriminate.
  - intros [= <-] Hv. split; [exact Hv |]. split; [reflexivity |].
    exists current, tl. auto.
  - destruct (asNode (getNode e p)) as [n|x] eqn:Hn; [| discriminate].
    cbn [mbind Result_bind]. intros Hres Hv.
    destruct (asNode_keyed e p n Hk Hn) as [Hid _]. apply asNode_Ok in Hn.
    destruct (walk_from e s st Hw _ _ Hp) as (pn & Hpn & Hnb & w & Hedge).
    assert (pn = n) as -> by congruence.
    destruct (IH n (current :: tl) Hres) as (Hv' & Hlast & h & rest & -> & Hh & Hor).
    { intros a b Hab. cbn [segments] in Hab. apply elem_of_cons in Hab as [Heq | Hab].
      - injection Heq as -> ->. split; [exact Hnb |]. exists w. rewrite Hid. exact Hedge.
      - apply Hv, Hab. }
    split; [exact Hv' |]. split; [rewrite Hlast; reflexivity |].
    exists h, rest. split; [reflexivity |]. split; [exact Hh |]. right.
    destruct Hor as [-> | Hc]; [| exact Hc].
    rewrite Hid. destruct (inv_from e st Hi _ _ Hp) as (i & Hip & _).
    apply list_elem_of_lookup. eauto.
  - intros [= <-] Hv. split; [exact Hv |]. split; [reflexivity |].
    exists current, tl. auto.
Qed.

Lemma aStarLoop_walk e s goalNode fuel st path :
  nodesKeyed (cityGraph e) -> aStarInv e st -> aStarWalkInv e s st ->
  aStarLoop fuel e goalNode st = Ok path ->
  validWalk e path /\
  node_id <$> head path = Some (node_id s) /\
  node_id <$> last path = Some (node_id goalNode).
Proof.
  intros Hk. revert st. induction fuel as [|fuel IH]; intros st Hi Hw; [discriminate |].
  cbn [aStarLoop].
  destruct (pq_pop (openSet st)) as [[item rest]|] eqn:Hpop; [| discriminate].
  cbv zeta.
  destruct (String.eqb (node_id (item_node item)) (node_id goalNode)) eqn:Hgoal.
  - intros Hres. apply String.eqb_eq in Hgoal.
    destruct (reconstructPath_walk e s st _ _ _ _ Hk Hi Hw Hres)
      as (Hv & Hlast & h & tl & -> & Hh & Hor).
    { intros a b Hab. inversion Hab. }
    split; [exact Hv |]. split.
    + cbn [head fmap option_fmap option_map]. f_equal.
      assert (node_id h ∈ closedSet st \/ node_id h ∈ itemIds (openSet st)) as Hin.
      { destruct Hor as [-> | Hc]; [right | left; exact Hc].
        apply pq_pop_perm in Hpop. unfold itemIds. rewrite Hpop. apply list_elem_of_here. }
      destruct (walk_reached e s st Hw _ Hin) as [Heq | [p Hp]]; [exact Heq | congruence].
    + rewrite Hlast. cbn. f_equal. exact Hgoal.
  - destruct (settle_inv e st item rest Hi Hpop) as (Hi1 & Hcur & _).
    destruct (settle_walk e s st item rest Hw Hpop) as (Hw1 & Hs1 & Hnode).
    cbv zeta in Hi1, Hcur, Hw1, Hs1, Hnode.
    destruct (relaxAll e goalNode (item_node item) _ (neighbors (item_node item)))
      as [st2|x] eqn:Hrelax; cbn [mbind Result_bind]; [| discriminate].
    destruct (relaxAll_inv e goalNode (item_node item) _ _ st2 Hk Hi1 Hcur Hrelax)
      as [Hi2 _].
    apply IH; [exact Hi2 |].
    refine (relaxAll_walk e s goalNode (item_node item) (neighbors (item_node item)) _ st2
              Hk Hi1 Hw1 Hs1 Hcur Hnode _ Hrelax).
    auto.
Qed.

(** X10. A route that [aStarAlgorithm] returns begins at the node nearest
    to the start, ends at the node nearest to the goal, and goes at every
    step from a node to one of its neighbours along an edge of the graph. *)
Theorem aStar_returns_walk (e : Engine) (start goal : LatLng) (path : list Node) :
  nodesKeyed (cityGraph e) -> NoDup (map fst (cityGraph e)) ->
  aStarAlgorithm e start goal = Ok path ->
  exists s t,
    findNearestNode e start = Some s /\ findNearestNode e goal = Some t /\
    node_id <$> head path = Some (node_id s) /\
    node_id <$> last path = Some (node_id t) /\
    validWalk e path.
Proof.
  intros Hk Hnd. unfold aStarAlgorithm.
  destruct (findNearestNode e start) as [s|] eqn:Hs; [| discriminate].
  destruct (findNearestNode e goal) as [t|]; [| discriminate].
  intros Hloop. exists s, t. split; [reflexivity |]. split; [reflexivity |].
  assert (getNode e (node_id s) = Some (NodeEntry s)) as Hnode.
  { apply nearestBy_elem, nodesOf_elem in Hs as [k Hin].
    rewrite (Hk k s Hin). apply graph_get_NoDup; assumption. }
  destruct (aStarLoop_walk e s t _ _ path Hk
              (aStarInit_inv e s t (findNearestNode_keyed e start s Hk Hs))
              (aStarInit_walk e s t Hnode) Hloop) as (Hv & Hh & Hl).
  auto.
Qed.

End Walk.


(** ** The properties above at the sample maps *)

Lemma seismic_risk_grows_with_events_witness :
  exists smaller larger,
    @calculateSeismicRisk planar roadAB (Some {| features := Some [quake 6 1000] |})
    = Some smaller /\
    @calculateSeismicRisk planar roadAB
      (Some {| features := Some [quake 4 0; quake 6 1000] |}) = Some larger /\
    smaller <= larger.
Proof.
  assert (forall q, q ∈ [quake 6 1000] -> q ∈ [quake 4 0; quake 6 1000]) as Hsub.
  { intros q Hq. apply list_elem_of_singleton in Hq as ->.
    apply list_elem_of_further, list_elem_of_here. }
  pose proof (@seismic_risk_grows_with_events planar roadAB [quake 6 1000]
                [quake 4 0; quake 6 1000] Hsub) as Hw.
  revert Hw.
  destruct (@calculateSeismicRisk planar roadAB
              (Some {| features := Some [quake 4 0; quake 6 1000] |})) as [larger|] eqn:E;
    [| vm_compute in E; discriminate].
  intros (smaller & Hs & Hle). exists smaller, larger.
  exact (conj Hs (conj eq_refl Hle)).
Defined.

Lemma four_reports_saturate_witness :
  let fire := {| hazard_type := "fire" |} in
  let e := {| cityGraph := cityGraph singleRoad; safeZones := safeZones singleRoad;
              hazardMap := {[ "A-B" := [fire; fire; fire; fire] ]};
              crowdDensityMap := ∅; structuralRiskMap := ∅; seismicData := None |} in
  getHazardReports e roadAB == 1.
Proof.
  cbv zeta.
  refine (four_reports_saturate _ roadAB
            [ {| hazard_type := "fire" |}; {| hazard_type := "fire" |};
              {| hazard_type := "fire" |}; {| hazard_type := "fire" |} ] _ _).
  - vm_compute. reflexivity.
  - cbn [length]. lia.
Defined.

Lemma reversedRoad_steps a b :
  (a, b) ∈ segments roadRoute ->
  graph_get (cityGraph reversedRoad) (edgeKey (node_id a) (node_id b)) = None.
Proof.
  intros Hin. remember (segments roadRoute) as l eqn:E. vm_compute in E. subst l.
  apply list_elem_of_singleton in Hin. injection Hin as -> ->. vm_compute. reflexivity.
Qed.

Lemma alternatives_repeat_against_stored_direction_witness :
  @aStarAlgorithm planar reversedRoad origin roadGoal = Ok roadRoute /\
  @generateAlternativeRoutes planar reversedRoad origin roadGoal 2
  = (reversedRoad, Ok [roadRoute; roadRoute]).
Proof.
  assert (@aStarAlgorithm planar reversedRoad origin roadGoal = Ok roadRoute) as Hp
    by (vm_compute; reflexivity).
  split; [exact Hp |].
  exact (@alternatives_repeat_against_stored_direction planar reversedRoad origin roadGoal 2
           roadRoute Hp reversedRoad_steps).
Defined.

Lemma risk_level_without_stored_steps_witness :
  calculateRouteRiskLevel reversedRoad roadRoute = MODERATE.
Proof.
  exact (risk_level_without_stored_steps reversedRoad roadRoute reversedRoad_steps).
Defined.

Lemma crowded_distancesAtLeastZero : distancesAtLeastZero (cityGraph crowded).
Proof.
  intros k edge Hin. cbn in Hin.
  repeat (apply elem_of_cons in Hin as [Hin | Hin]; [try discriminate |]).
  - injection Hin as -> ->. vm_compute. discriminate.
  - inversion Hin.
Qed.

Lemma crowded_weightsAtLeastZero : weightsAtLeastZero (cityGraph crowded).
Proof.
  intros k edge w Hin Hw. cbn in Hin.
  repeat (apply elem_of_cons in Hin as [Hin | Hin]; [try discriminate |]).
  - injection Hin as -> ->. injection Hw as <-. vm_compute. discriminate.
  - inversion Hin.
Qed.

Lemma stored_weights_never_negative_witness :
  weightsAtLeastZero (cityGraph (fst (@calculateSafeRoute planar crowded origin None ∅))).
Proof.
  exact (@stored_weights_never_negative planar crowded origin None ∅
           crowded_densitiesNonNegative crowded_distancesAtLeastZero
           crowded_weightsAtLeastZero).
Defined.

Lemma planar_distance_nonneg p q : 0 <= planar_distance p q.
Proof.
  unfold planar_distance.
  pose proof (Qabs_nonneg (lat p - lat q)). pose proof (Qabs_nonneg (lng p - lng q)). lra.
Qed.

Lemma estimated_time_covers_walk_witness :
  let t := @calculateEstimatedTime planar roadRoute in
  (0 <= t)%Z /\
  @walkingSeconds planar roadRoute <= 60 * inject_Z t /\
  60 * inject_Z t < @walkingSeconds planar roadRoute + 60.
Proof.
  exact (@estimated_time_covers_walk planar roadRoute planar_distance_nonneg).
Defined.

Lemma detour_nodesKeyed : nodesKeyed (cityGraph detour).
Proof.
  intros k n Hin. cbn in Hin.
  repeat (apply elem_of_cons in Hin as [Hin | Hin];
          [try discriminate; try (injection Hin as -> ->; reflexivity) |]).
  inversion Hin.
Qed.

Lemma detour_NoDup : NoDup (map fst (cityGraph detour)).
Proof. apply (bool_decide_unpack _). vm_compute. exact I. Qed.

Lemma aStar_returns_walk_witness :
  exists path s t,
    @aStarAlgorithm planar detour origin detourGoal = Ok path /\
    @findNearestNode planar detour origin = Some s /\
    @findNearestNode planar detour detourGoal = Some t /\
    node_id <$> head path = Some (node_id s) /\
    node_id <$> last path = Some (node_id t) /\
    validWalk detour path.
Proof.
  destruct (@aStarAlgorithm planar detour origin detourGoal) as [path|x] eqn:Hp;
    [| vm_compute in Hp; discriminate].
  destruct (@aStar_returns_walk planar detour origin detourGoal path
              detour_nodesKeyed detour_NoDup Hp) as (s & t & H1 & H2 & H3 & H4 & H5).
  exists path, s, t.
  exact (conj eq_refl (conj H1 (conj H2 (conj H3 (conj H4 H5))))).
Defined.


(** * The server as a whole *)

Section HubProperties.
Context `{Geo} `{Services}.

Lemma sessions_get_set k k' s ss :
  sessions_get (sessions_set k s ss) k'
  = if String.eqb k' k then (fun _ => s) <$> sessions_get ss k else sessions_get ss k'.
Proof.
  induction ss as [|[k0 s0] ss IH]; cbn [sessions_set sessions_get].
  - destruct (String.eqb k' k); reflexivity.
  - destruct (String.eqb k k0) eqn:E; cbn [sessions_get].
    + apply String.eqb_eq in E as <-.
      destruct (String.eqb k' k); reflexivity.
    + destruct (String.eqb k' k0) eqn:E'.
      * apply String.eqb_eq in E' as ->. rewrite String.eqb_sym, E. reflexivity.
      * exact IH.
Qed.

Lemma sessions_set_keys k s ss : map fst (sessions_set k s ss) = map fst ss.
Proof.
  induction ss as [|[k0 s0] ss IH]; cbn [sessions_set]; [reflexivity |].
  destruct (String.eqb k k0); cbn [map fst]; [reflexivity | f_equal; exact IH].
Qed.

Lemma sessions_get_put k k' s ss :
  sessions_get (sessions_put k s ss) k'
  = if String.eqb k' k then Some s else sessions_get ss k'.
Proof.
  induction ss as [|[k0 s0] ss IH]; cbn [sessions_put sessions_get].
  - destruct (String.eqb k' k); reflexivity.
  - destruct (String.eqb k k0) eqn:E; cbn [sessions_get].
    + apply String.eqb_eq in E as <-.
      destruct (String.eqb k' k); reflexivity.
    + destruct (String.eqb k' k0) eqn:E'.
      * apply String.eqb_eq in E' as ->. rewrite String.eqb_sym, E. reflexivity.
      * exact IH.
Qed.

Lemma sessions_put_keys k s ss :
  map fst (sessions_put k s ss)
  = if decide (k ∈ map fst ss) then map fst ss else map fst ss ++ [k].
Proof.
  induction ss as [|[k0 s0] ss IH]; cbn [sessions_put map fst].
  - destruct (decide (k ∈ [])) as [Hin|_]; [inversion Hin | reflexivity].
  - destruct (String.eqb k k0) eqn:E; cbn [map fst].
    + apply String.eqb_eq in E as <-.
      destruct (decide (k ∈ k :: map fst ss)) as [_|Hn]; [reflexivity |].
      exfalso. apply Hn, list_elem_of_here.
    + apply String.eqb_neq in E. rewrite IH.
      destruct (decide (k ∈ map fst ss)) as [Hin|Hn];
        destruct (decide (k ∈ k0 :: map fst ss)) as [Hin'|Hn']; try reflexivity.
      * exfalso. apply Hn', list_elem_of_further, Hin.
      * apply elem_of_cons in Hin' as [-> | Hin']; [exfalso; apply E; reflexivity |].
        exfalso. exact (Hn Hin').
Qed.

Lemma sessions_put_unique k s ss : uniqueKeys ss -> uniqueKeys (sessions_put k s ss).
Proof.
  unfold uniqueKeys. intros Hu. rewrite sessions_put_keys.
  destruct (decide (k ∈ map fst ss)) as [Hin|Hn]; [exact Hu |].
  apply NoDup_app. split; [exact Hu |]. split.
  - intros x Hx Hk. apply list_elem_of_singleton in Hk as ->. exact (Hn Hx).
  - apply NoDup_singleton.
Qed.

Lemma sessions_get_elem ss k s : sessions_get ss k = Some s -> (k, s) ∈ ss.
Proof.
  induction ss as [|[k0 s0] ss IH]; cbn [sessions_get]; [discriminate |].
  destruct (String.eqb k k0) eqn:E.
  - apply String.eqb_eq in E as <-. intros [= ->]. apply list_elem_of_here.
  - intros Hg. apply list_elem_of_further, IH, Hg.
Qed.

Lemma sessions_get_unique ss k s : uniqueKeys ss -> (k, s) ∈ ss -> sessions_get ss k = Some s.
Proof.
  unfold uniqueKeys.
  induction ss as [|[k0 s0] ss IH]; cbn [sessions_get map fst]; intros Hu Hin;
    [inversion Hin |].
  apply NoDup_cons in Hu as [Hn Hu].
  apply elem_of_cons in Hin as [[= -> ->] | Hin].
  - rewrite String.eqb_refl. reflexivity.
  - destruct (String.eqb k k0) eqn:E; [| exact (IH Hu Hin)].
    apply String.eqb_eq in E as <-. exfalso. apply Hn.
    apply list_elem_of_fmap. exists (k, s). split; [reflexivity | exact Hin].
Qed.

Lemma sessions_get_cleanup_kept now ss k s :
  sessions_get ss k = Some s -> (now - 24 * 60 * 60 * 1000 <= startTime s)%Z ->
  sessions_get (cleanupOldSessions now ss) k = Some s.
Proof.
  unfold cleanupOldSessions. cbv zeta.
  induction ss as [|[k0 s0] ss IH]; cbn [sessions_get]; [discriminate |].
  intros Hg Hs. rewrite filter_cons. cbn [snd].
  destruct (String.eqb k k0) eqn:E.
  - injection Hg as ->.
    destruct (decide (~ (startTime s < now - 24 * 60 * 60 * 1000)%Z)) as [_|Hn];
      [| exfalso; apply Hn; lia].
    cbn [sessions_get]. rewrite E. reflexivity.
  - destruct (decide (~ (startTime s0 < now - 24 * 60 * 60 * 1000)%Z)) as [_|_].
    + cbn [sessions_get]. rewrite E. exact (IH Hg Hs).
    + exact (IH Hg Hs).
Qed.

Lemma sessions_cleanup_elem now ss k s :
  (k, s) ∈ cleanupOldSessions now ss <->
  (k, s) ∈ ss /\ (now - 24 * 60 * 60 * 1000 <= startTime s)%Z.
Proof.
  unfold cleanupOldSessions. cbv zeta. rewrite list_elem_of_filter. cbn [snd].
  split; intros [H1 H2]; split; try assumption; lia.
Qed.

Lemma sessions_cleanup_unique now ss : uniqueKeys ss -> uniqueKeys (cleanupOldSessions now ss).
Proof.
  unfold uniqueKeys, cleanupOldSessions. cbv zeta.
  induction ss as [|[k0 s0] ss IH]; cbn [map fst]; intros Hu; [constructor |].
  apply NoDup_cons in Hu as [Hn Hu]. rewrite filter_cons.
  destruct (decide _) as [_|_]; [| exact (IH Hu)].
  cbn [map fst]. apply NoDup_cons. split; [| exact (IH Hu)].
  intros Hin. apply Hn. apply list_elem_of_fmap in Hin as ([k1 s1] & -> & Hin).
  apply list_elem_of_filter in Hin as [_ Hin].
  apply list_elem_of_fmap. exists (k1, s1). split; [reflexivity | exact Hin].
Qed.

Lemma sessionStep_refl request k s : sessionStep request k s s.
Proof. repeat split; auto. Qed.

Lemma sessionsStep_refl request ss : sessionsStep request ss ss.
Proof.
  split; [reflexivity |]. intros k.
  destruct (sessions_get ss k) as [s|] eqn:E; [| reflexivity].
  exists s. split; [reflexivity | apply sessionStep_refl].
Qed.

(** Writing one session with a step of it is a step of the Map. *)
Lemma sessions_set_step request sid s0 s1 ss :
  sessions_get ss sid = Some s0 -> sessionStep request sid s0 s1 ->
  sessionsStep request ss (sessions_set sid s1 ss).
Proof.
  intros Hg Hstep. split; [apply sessions_set_keys |]. intros k.
  rewrite sessions_get_set.
  destruct (String.eqb k sid) eqn:E.
  - apply String.eqb_eq in E as ->. rewrite Hg. cbn.
    exists s1. split; [reflexivity | exact Hstep].
  - destruct (sessions_get ss k) as [s|]; [| reflexivity].
    exists s. split; [reflexivity | apply sessionStep_refl].
Qed.

Lemma sessions_set_set k a b ss : sessions_set k a (sessions_set k b ss) = sessions_set k a ss.
Proof.
  induction ss as [|[k0 s0] ss IH]; cbn [sessions_set]; [reflexivity |].
  destruct (String.eqb k k0) eqn:E; cbn [sessions_set]; rewrite E; [reflexivity |].
  f_equal. exact IH.
Qed.

Lemma routeUpdate_step now sessionId location reports srv :
  sessionsStep (PostUpdate now sessionId location reports) (activeSessions srv)
    (activeSessions (fst (fst (routeUpdate srv now sessionId location reports)))).
Proof.
  unfold routeUpdate.
  destruct (sessions_get (activeSessions srv) sessionId) as [s0|] eqn:Hg;
    [| apply sessionsStep_refl].
  cbv zeta.
  assert (sessionStep (PostUpdate now sessionId location reports) sessionId s0
            (moveSession location now s0)) as Hmove by (repeat split; auto).
  destruct (reportAll reports _) as [h [x|]]; cbn [fst snd setHazards setSessions activeSessions].
  - apply (sessions_set_step _ _ s0); assumption.
  - destruct (checkRouteRecalculation _ _ h now _) as [[|]|y];
      [| apply (sessions_set_step _ _ s0); assumption
       | apply (sessions_set_step _ _ s0); assumption].
    destruct (snd (calculateSafeRoute _ location _ h)) as [r|x];
      cbn [fst snd setHazards setSessions setEngine activeSessions].
    + rewrite sessions_set_set. apply (sessions_set_step _ _ s0); [exact Hg |].
      repeat split; auto; right; reflexivity.
    + apply (sessions_set_step _ _ s0); assumption.
Qed.

Lemma sweep_sessions now earthquakeData srv :
  activeSessions (fst (fst (checkAllRoutesForRecalculation srv now earthquakeData)))
  = activeSessions srv.
Proof. rewrite checkAllRoutesForRecalculation_throws. reflexivity. Qed.

Lemma sweep_step now earthquakeData srv :
  sessionsStep (EarthquakeUpdate now earthquakeData) (activeSessions srv)
    (activeSessions (fst (fst (checkAllRoutesForRecalculation srv now earthquakeData)))).
Proof. rewrite sweep_sessions. apply sessionsStep_refl. Qed.

Lemma locationUpdate_step socketId location now hub :
  sessionsStep (LocationUpdate socketId location now) (sessionsOf hub)
    (sessionsOf (fst (onLocationUpdate hub socketId location now))).
Proof.
  unfold onLocationUpdate.
  destruct (joinedSession hub socketId) as [sid|]; [| apply sessionsStep_refl].
  destruct (sessions_get (activeSessions (hub_server hub)) sid) as [s0|] eqn:Hg;
    [| apply sessionsStep_refl].
  cbn [fst sessionsOf setServer hub_server activeSessions].
  apply (sessions_set_step _ _ s0); [exact Hg |]. repeat split; auto.
Qed.

Lemma disconnect_step socketId now hub :
  sessionsStep (Disconnect socketId now) (sessionsOf hub)
    (sessionsOf (onDisconnect hub socketId now)).
Proof.
  unfold onDisconnect. cbv zeta.
  destruct (joinedSession hub socketId) as [sid|]; [| apply sessionsStep_refl].
  destruct (sessions_get (activeSessions (hub_server hub)) sid) as [s0|] eqn:Hg;
    [| apply sessionsStep_refl].
  cbn [fst sessionsOf setClients hub_server activeSessions].
  apply (sessions_set_step _ _ s0); [exact Hg |]. repeat split; auto.
Qed.

Lemma join_sessions hub socketId sessionId location :
  sessionsOf (onJoinEvacuation hub socketId sessionId location) = sessionsOf hub.
Proof.
  unfold onJoinEvacuation. destruct (clients_get _ socketId); reflexivity.
Qed.

Lemma sessionsOf_setServer srv hub : sessionsOf (setServer srv hub) = activeSessions srv.
Proof. reflexivity. Qed.

Lemma handle_sessionsStep hub request :
  createdId request = None ->
  sessionsStep request (sessionsOf hub) (sessionsOf (handle hub request)).
Proof.
  destruct request as [now suffix l | now sid l reports | report | now data | sock now
                      | sock sid l | sock l now | sock now];
    cbn [createdId handle]; intros Hc; try discriminate.
  - apply routeUpdate_step.
  - destruct (reportHazard report _); apply sessionsStep_refl.
  - apply sweep_step.
  - apply sessionsStep_refl.
  - rewrite join_sessions. apply sessionsStep_refl.
  - apply locationUpdate_step.
  - apply disconnect_step.
Qed.

(** What a calculation does to the sessions. *)
Lemma routeCalculate_sessions srv now suffix userLocation :
  let out := routeCalculate srv now suffix userLocation in
  match snd (fst out) with
  | RouteJson sid r =>
    exists location,
      userLocation = Some location /\ sid = newSessionId now suffix /\
      snd (calculateSafeRoute (routeEngine srv) location (collection <$> usgsCache srv)
             (currentHazards srv)) = Ok r /\
      activeSessions (fst (fst out))
      = cleanupOldSessions now
          (sessions_put sid
             {| session_id := sid; startLocation := location; currentLocation := location;
                session_route := r; startTime := now; lastUpdate := now;
                status := "active" |}
             (activeSessions srv))
  | _ => activeSessions (fst (fst out)) = activeSessions srv
  end.
Proof.
  cbv zeta. unfold routeCalculate.
  destruct userLocation as [l|]; [| reflexivity].
  destruct (falsyNumber (lat l) || falsyNumber (lng l)); [reflexivity |].
  cbv zeta.
  destruct (snd (calculateSafeRoute (routeEngine srv) l _ (currentHazards srv))) as [r|x] eqn:E;
    [| reflexivity].
  cbn [fst snd createEvacuationSession activeSessions setEngine].
  exists l. repeat split; try reflexivity. exact E.
Qed.

Lemma handle_unique hub request :
  uniqueKeys (sessionsOf hub) -> uniqueKeys (sessionsOf (handle hub request)).
Proof.
  intros Hu.
  destruct (createdId request) as [sid|] eqn:Hc.
  - destruct request as [now suffix userLocation| | | | | | |]; try discriminate.
    cbn [handle]. rewrite sessionsOf_setServer.
    pose proof (routeCalculate_sessions (hub_server hub) now suffix userLocation) as Hs.
    cbv zeta in Hs. revert Hs.
    destruct (snd (fst (routeCalculate (hub_server hub) now suffix userLocation)));
      intros Hs; try (rewrite Hs; exact Hu).
    destruct Hs as (l & _ & _ & _ & ->).
    apply sessions_cleanup_unique, sessions_put_unique, Hu.
  - destruct (handle_sessionsStep hub request Hc) as [Hk _].
    unfold uniqueKeys. rewrite Hk. exact Hu.
Qed.

Lemma handle_step hub request k s' :
  uniqueKeys (sessionsOf hub) ->
  createdId request <> Some k ->
  sessions_get (sessionsOf (handle hub request)) k = Some s' ->
  exists s, sessions_get (sessionsOf hub) k = Some s /\ sessionStep request k s s'.
Proof.
  intros Hu Hnew Hg.
  destruct (createdId request) as [sid|] eqn:Hc.
  - destruct request as [now suffix userLocation| | | | | | |]; try discriminate.
    cbn [createdId] in Hc. injection Hc as Hc.
    cbn [handle] in Hg. rewrite sessionsOf_setServer in Hg.
    pose proof (routeCalculate_sessions (hub_server hub) now suffix userLocation) as Hs.
    cbv zeta in Hs. revert Hs.
    destruct (snd (fst (routeCalculate (hub_server hub) now suffix userLocation)));
      intros Hs; try (rewrite Hs in Hg; exists s'; split; [exact Hg | apply sessionStep_refl]).
    destruct Hs as (l & _ & -> & _ & Hs). rewrite Hs in Hg.
    apply sessions_get_elem, sessions_cleanup_elem in Hg as [Hg _].
    apply (sessions_get_unique _ _ _ (sessions_put_unique _ _ _ Hu)) in Hg.
    rewrite sessions_get_put in Hg.
    destruct (String.eqb k (newSessionId now suffix)) eqn:E.
    + apply String.eqb_eq in E. exfalso. apply Hnew. rewrite <- Hc, E. reflexivity.
    + exists s'. split; [exact Hg | apply sessionStep_refl].
  - destruct (handle_sessionsStep hub request Hc) as [_ Hstep]. specialize (Hstep k).
    destruct (sessions_get (sessionsOf hub) k) as [s|]; [| congruence].
    destruct Hstep as (s1 & Hg1 & Hstep). exists s. split; [reflexivity |].
    rewrite Hg in Hg1. injection Hg1 as <-. exact Hstep.
Qed.

(** X11. The calculation request tests the coordinates for truth: a
    location on the equator or on the prime meridian is answered as an
    invalid location, before anything is read or written; every other
    location starts a calculation. *)
Theorem calculate_rejects_zero_coordinate (srv : Server) (now : Z) (suffix : string)
    (location : LatLng) :
  let out := routeCalculate srv now suffix (Some location) in
  (lat location == 0 \/ lng location == 0 -> out = (srv, InvalidLocation400, [])) /\
  (~ (lat location == 0 \/ lng location == 0) ->
   snd (fst out) <> InvalidLocation400 /\ snd out = [Calculating location]).
Proof.
  cbv zeta. unfold routeCalculate, falsyNumber. split.
  - intros Hz.
    assert (Qeq_bool (lat location) 0 || Qeq_bool (lng location) 0 = true) as ->;
      [| reflexivity].
    apply orb_true_iff. destruct Hz as [Hz | Hz]; [left | right]; apply Qeq_bool_iff, Hz.
  - intros Hz.
    assert (Qeq_bool (lat location) 0 || Qeq_bool (lng location) 0 = false) as ->.
    { apply orb_false_iff. split; apply not_true_is_false; intros Hb;
        apply Qeq_bool_iff in Hb; apply Hz; [left | right]; exact Hb. }
    cbv zeta.
    destruct (snd (calculateSafeRoute (routeEngine srv) location _ (currentHazards srv)));
      cbn [fst snd]; split; (discriminate || reflexivity).
Qed.

(** X12. The identifier that a calculation returns retrieves the session
    it has just created: an active session at the user's location with the
    route of the answer, whether or not the identifier was in use, and
    whatever the clean-up removed. *)
Theorem calculate_creates_active_session (srv : Server) (now : Z) (suffix : string)
    (userLocation : option LatLng) (sid : string) (r : RouteResult) :
  snd (fst (routeCalculate srv now suffix userLocation)) = RouteJson sid r ->
  exists location,
    userLocation = Some location /\
    sessions_get (activeSessions (fst (fst (routeCalculate srv now suffix userLocation)))) sid
    = Some {| session_id := sid; startLocation := location; currentLocation := location;
              session_route := r; startTime := now; lastUpdate := now; status := "active" |}.
Proof.
  intros Hr.
  pose proof (routeCalculate_sessions srv now suffix userLocation) as Hs.
  cbv zeta in Hs. rewrite Hr in Hs. destruct Hs as (l & Hl & Hid & _ & Hs).
  exists l. split; [exact Hl |]. rewrite Hs.
  apply sessions_get_cleanup_kept; [| cbn [startTime]; lia].
  rewrite sessions_get_put, String.eqb_refl. reflexivity.
Qed.

(** X13. Sessions leave the Map only in the clean-up of a calculation that
    succeeded, and by their start time alone: after it every session has
    started within the last 24 hours, and the sessions that have, other
    than one under the new identifier, are as they were; a calculation
    that is refused or fails removes nothing. *)
Theorem eviction_by_start_time (srv : Server) (now : Z) (suffix : string)
    (userLocation : option LatLng) :
  uniqueKeys (activeSessions srv) ->
  let out := routeCalculate srv now suffix userLocation in
  let cutoffTime := (now - 24 * 60 * 60 * 1000)%Z in
  match snd (fst out) with
  | RouteJson sid r =>
    forall k s, k <> sid ->
      (sessions_get (activeSessions (fst (fst out))) k = Some s <->
       sessions_get (activeSessions srv) k = Some s /\ (cutoffTime <= startTime s)%Z)
  | _ => activeSessions (fst (fst out)) = activeSessions srv
  end.
Proof.
  intros Hu. cbv zeta.
  pose proof (routeCalculate_sessions srv now suffix userLocation) as Hs.
  cbv zeta in Hs. revert Hs.
  destruct (snd (fst (routeCalculate srv now suffix userLocation))) as [| |sid r];
    intros Hs; try exact Hs.
  destruct Hs as (l & _ & _ & _ & Hs). intros k s Hk. rewrite Hs.
  assert (sessions_get (sessions_put sid
            {| session_id := sid; startLocation := l; currentLocation := l;
               session_route := r; startTime := now; lastUpdate := now; status := "active" |}
            (activeSessions srv)) k = sessions_get (activeSessions srv) k) as Hput.
  { rewrite sessions_get_put.
    destruct (String.eqb k sid) eqn:E; [| reflexivity].
    apply String.eqb_eq in E. contradiction. }
  split.
  - intros Hg. apply sessions_get_elem, sessions_cleanup_elem in Hg as [Hg Ht].
    split; [| exact Ht]. rewrite <- Hput.
    apply sessions_get_unique; [apply sessions_put_unique, Hu | exact Hg].
  - intros [Hg Ht]. apply sessions_get_cleanup_kept; [| exact Ht].
    rewrite Hput. exact Hg.
Qed.

(** X14. No request other than a calculation adds or removes a session:
    over any sequence of such requests the Map keeps its keys, in their
    order; a disconnected session stays in it. *)
Theorem session_set_fixed_without_calculation (hub : Hub) (requests : list Request) :
  (forall request, request ∈ requests -> createdId request = None) ->
  map fst (sessionsOf (serve hub requests)) = map fst (sessionsOf hub).
Proof.
  unfold serve. revert hub.
  induction requests as [|request requests IH]; intros hub Hc; [reflexivity |].
  cbn [fold_left]. rewrite IH.
  - apply (handle_sessionsStep hub request), Hc, list_elem_of_here.
  - intros request' Hin. apply Hc, list_elem_of_further, Hin.
Qed.

Lemma serve_history (requests : list Request) (hub : Hub) (k : string) (s' : Session) :
  uniqueKeys (sessionsOf hub) ->
  (forall request, request ∈ requests -> createdId request <> Some k) ->
  sessions_get (sessionsOf (serve hub requests)) k = Some s' ->
  exists s,
    sessions_get (sessionsOf hub) k = Some s /\
    session_id s' = session_id s /\ startLocation s' = startLocation s /\
    startTime s' = startTime s /\
    (status s' = status s \/ status s' = "disconnected") /\
    ((forall now location reports, PostUpdate now k location reports ∉ requests) ->
     status s <> "active" -> session_route s' = session_route s).
Proof.
  unfold serve. revert hub.
  induction requests as [|request requests IH]; intros hub Hu Hc Hg; cbn [fold_left] in Hg.
  - exists s'. repeat split; auto.
  - destruct (IH (handle hub request) (handle_unique hub request Hu)
                (fun r Hin => Hc r (list_elem_of_further _ _ _ Hin)) Hg)
      as (s1 & Hg1 & Hid1 & Hl1 & Ht1 & Hs1 & Hr1).
    destruct (handle_step hub request k s1 Hu (Hc request (list_elem_of_here _ _)) Hg1)
      as (s & Hg0 & Hid0 & Hl0 & Ht0 & Hs0 & Hr0).
    exists s. split; [exact Hg0 |].
    split; [congruence |]. split; [congruence |]. split; [congruence |]. split.
    + destruct Hs1 as [Hs1 | Hs1]; [| right; exact Hs1].
      rewrite Hs1. exact Hs0.
    + intros Hno Hna.
      assert (status s1 <> "active") as Hna1.
      { destruct Hs0 as [-> | ->]; [exact Hna | discriminate]. }
      rewrite Hr1; [| | exact Hna1].
      * destruct Hr0 as [Hr0 | Hr0]; [exact Hr0 |]. exfalso.
        destruct request; cbn [updatesRoute] in Hr0; try contradiction.
        subst sessionId. exact (Hno _ _ _ (list_elem_of_here _ _)).
      * intros now location reports Hin.
        exact (Hno now location reports (list_elem_of_further _ _ _ Hin)).
Qed.

(** X15. Disconnected is final: whatever requests follow, as long as none
    creates a session under the same identifier, a session that a socket
    has left stays disconnected while it is in the Map, with its start
    time; the sweep passes it by, so its route changes only through an
    update request for its identifier. *)
Theorem disconnected_is_final (hub : Hub) (requests : list Request) (k : string)
    (s s' : Session) :
  uniqueKeys (sessionsOf hub) ->
  sessions_get (sessionsOf hub) k = Some s ->
  status s = "disconnected" ->
  (forall request, request ∈ requests -> createdId request <> Some k) ->
  sessions_get (sessionsOf (serve hub requests)) k = Some s' ->
  status s' = "disconnected" /\ startTime s' = startTime s /\
  ((forall now location reports, PostUpdate now k location reports ∉ requests) ->
   session_route s' = session_route s).
Proof.
  intros Hu Hg Hd Hc Hg'.
  destruct (serve_history requests hub k s' Hu Hc Hg')
    as (s0 & Hg0 & _ & _ & Ht & Hs & Hr).
  rewrite Hg in Hg0. injection Hg0 as <-. split.
  - destruct Hs as [-> | ->]; [exact Hd | reflexivity].
  - split; [exact Ht |]. intros Hno. apply Hr; [exact Hno |]. rewrite Hd. discriminate.
Qed.

(** X16. A socket message never starts a calculation: connecting, joining,
    a location update and leaving write neither the engine nor the
    hazards nor the cache, and no route of any session; the location
    update moves the one session that the socket has joined. *)
Theorem socket_messages_never_recalculate (hub : Hub) (request : Request) :
  match request with
  | Connection _ _ | JoinEvacuation _ _ _ | LocationUpdate _ _ _ | Disconnect _ _ => True
  | _ => False
  end ->
  let hub' := handle hub request in
  routeEngine (hub_server hub') = routeEngine (hub_server hub) /\
  currentHazards (hub_server hub') = currentHazards (hub_server hub) /\
  usgsCache (hub_server hub') = usgsCache (hub_server hub) /\
  map (fun kv => (fst kv, session_route (snd kv))) (sessionsOf hub')
  = map (fun kv => (fst kv, session_route (snd kv))) (sessionsOf hub).
Proof.
  assert (forall sid f ss,
            (forall s, session_route (f s) = session_route s) ->
            forall s0, sessions_get ss sid = Some s0 ->
            map (fun kv => (fst kv, session_route (snd kv))) (sessions_set sid (f s0) ss)
            = map (fun kv => (fst kv, session_route (snd kv))) ss) as Hset.
  { intros sid f ss Hf. induction ss as [|[k0 s1] ss IH]; intros s0; cbn [sessions_get];
      [discriminate |].
    cbn [sessions_set]. destruct (String.eqb sid k0) eqn:E; cbn [map fst snd].
    - intros [= ->]. rewrite Hf. reflexivity.
    - intros Hg. f_equal. exact (IH s0 Hg). }
  destruct request as [| | | | sock now | sock sid l | sock l now | sock now];
    try contradiction; intros _; cbv zeta; cbn [handle].
  - repeat split; reflexivity.
  - unfold onJoinEvacuation. destruct (clients_get _ sock); repeat split; reflexivity.
  - unfold onLocationUpdate. destruct (joinedSession hub sock) as [sid|];
      [| repeat split; reflexivity].
    destruct (sessions_get (activeSessions (hub_server hub)) sid) as [s0|] eqn:Hg;
      [| repeat split; reflexivity].
    cbn [fst setServer hub_server routeEngine currentHazards usgsCache].
    repeat split; try reflexivity.
    unfold sessionsOf. cbn [hub_server activeSessions].
    apply (Hset sid (moveSession l now)); [reflexivity | exact Hg].
  - unfold onDisconnect. cbv zeta. destruct (joinedSession hub sock) as [sid|];
      [| repeat split; reflexivity].
    destruct (sessions_get (activeSessions (hub_server hub)) sid) as [s0|] eqn:Hg;
      [| repeat split; reflexivity].
    cbn [setClients hub_server routeEngine currentHazards usgsCache].
    repeat split; try reflexivity.
    unfold sessionsOf. cbn [hub_server activeSessions].
    apply (Hset sid disconnectSession); [reflexivity | exact Hg].
Qed.

(** X17. An update request that fails is not undone: when the session
    exists and the answer is the error 500, because a hazard report was
    refused, because the trigger threw or because the calculation did, the
    session has been moved to the reported location all the same, and
    keeps its earlier route. *)
Theorem failed_update_still_moves_session (srv : Server) (now : Z) (sessionId : string)
    (location : LatLng) (reports : list HazardReport) (session : Session) :
  sessions_get (activeSessions srv) sessionId = Some session ->
  snd (fst (routeUpdate srv now sessionId location reports)) = Failed500 ->
  sessions_get (activeSessions (fst (fst (routeUpdate srv now sessionId location reports))))
               sessionId
  = Some (moveSession location now session).
Proof.
  intros Hg. unfold routeUpdate. rewrite Hg. cbv zeta.
  destruct (reportAll reports _) as [h [x|]]; cbn [fst snd setHazards setSessions activeSessions].
  - intros _. exact (sessions_set_get _ _ _ _ Hg).
  - destruct (checkRouteRecalculation _ _ h now _) as [[|]|y];
      [| discriminate | intros _; exact (sessions_set_get _ _ _ _ Hg)].
    destruct (snd (calculateSafeRoute _ location _ h)) as [r|x];
      cbn [fst snd setHazards setSessions setEngine activeSessions]; [discriminate |].
    intros _. exact (sessions_set_get _ _ _ _ Hg).
Qed.

End HubProperties.


(** ** The properties of the server at the sample hub *)

Lemma sampleHub_uniqueKeys : uniqueKeys (sessionsOf sampleHub).
Proof. apply (bool_decide_unpack _). vm_compute. exact I. Qed.

Lemma quietHub_uniqueKeys : uniqueKeys (sessionsOf quietHub).
Proof. apply (bool_decide_unpack _). vm_compute. exact I. Qed.

Lemma calculate_creates_active_session_witness :
  exists sid r,
    snd (fst (@routeCalculate planar (hub_server quietHub) 5000 "k3x" (Some origin)))
    = RouteJson sid r /\
    sessions_get
      (activeSessions
         (fst (fst (@routeCalculate planar (hub_server quietHub) 5000 "k3x" (Some origin)))))
      sid
    = Some {| session_id := sid; startLocation := origin; currentLocation := origin;
              session_route := r; startTime := 5000; lastUpdate := 5000;
              status := "active" |}.
Proof.
  destruct (snd (fst (@routeCalculate planar (hub_server quietHub) 5000 "k3x" (Some origin))))
    as [| |sid r] eqn:E; try (vm_compute in E; discriminate).
  exists sid, r. split; [reflexivity |].
  destruct (@calculate_creates_active_session planar (hub_server quietHub) 5000 "k3x"
              (Some origin) sid r E) as (l & Hl & Hg).
  injection Hl as <-. exact Hg.
Defined.

Lemma eviction_by_start_time_witness :
  let out := @routeCalculate planar (hub_server quietHub) 90000000 "k3x" (Some origin) in
  match snd (fst out) with
  | RouteJson sid r =>
    forall k s, k <> sid ->
      (sessions_get (activeSessions (fst (fst out))) k = Some s <->
       sessions_get (activeSessions (hub_server quietHub)) k = Some s /\
       (90000000 - 24 * 60 * 60 * 1000 <= startTime s)%Z)
  | _ => activeSessions (fst (fst out)) = activeSessions (hub_server quietHub)
  end.
Proof.
  exact (@eviction_by_start_time planar (hub_server quietHub) 90000000 "k3x" (Some origin)
           quietHub_uniqueKeys).
Defined.

Lemma session_set_fixed_without_calculation_witness :
  map fst (sessionsOf (@serve planar sampleServices sampleHub
                         [Disconnect "s1" 10; EarthquakeUpdate 2000 [quake 6 1000]]))
  = ["evac_1"].
Proof.
  apply (@session_set_fixed_without_calculation planar sampleServices sampleHub
           [Disconnect "s1" 10; EarthquakeUpdate 2000 [quake 6 1000]]).
  intros request Hin.
  repeat (apply elem_of_cons in Hin as [-> | Hin]; [reflexivity |]).
  inversion Hin.
Defined.

Lemma disconnected_is_final_witness :
  let hub := setServer (setSessions [("evac_1", leftSession)] (hub_server sampleHub))
                       sampleHub in
  let requests :=
    [@EarthquakeUpdate sampleServices 2000 [quake 6 1000];
     @LocationUpdate sampleServices "s1" roadGoal 2500;
     @PostCalculate sampleServices 3000 "k3x" (Some origin)] in
  exists s',
    sessions_get (sessionsOf (@serve planar sampleServices hub requests)) "evac_1" = Some s' /\
    status s' = "disconnected" /\ startTime s' = 0%Z /\
    session_route s' = sampleRoute.
Proof.
  cbv zeta.
  destruct (sessions_get
              (sessionsOf
                 (@serve planar sampleServices
                    (setServer (setSessions [("evac_1", leftSession)] (hub_server sampleHub))
                               sampleHub)
                    [@EarthquakeUpdate sampleServices 2000 [quake 6 1000];
                     @LocationUpdate sampleServices "s1" roadGoal 2500;
                     @PostCalculate sampleServices 3000 "k3x" (Some origin)]))
              "evac_1") as [s'|] eqn:E; [| vm_compute in E; discriminate].
  exists s'. split; [reflexivity |].
  assert (uniqueKeys
            (sessionsOf (setServer (setSessions [("evac_1", leftSession)]
                                      (hub_server sampleHub)) sampleHub))) as Hu
    by (apply (bool_decide_unpack _); vm_compute; exact I).
  assert (forall request,
            request ∈ [@EarthquakeUpdate sampleServices 2000 [quake 6 1000];
                       @LocationUpdate sampleServices "s1" roadGoal 2500;
                       @PostCalculate sampleServices 3000 "k3x" (Some origin)] ->
            createdId request <> Some "evac_1") as Hc.
  { intros request Hin.
    repeat (apply elem_of_cons in Hin as [-> | Hin]; [vm_compute; discriminate |]).
    inversion Hin. }
  destruct (@disconnected_is_final planar sampleServices _ _ "evac_1" leftSession s'
              Hu eq_refl eq_refl Hc E) as (H1 & H2 & H3).
  split; [exact H1 |]. split; [exact H2 |]. apply H3.
  intros now location reports Hin.
  repeat (apply elem_of_cons in Hin as [Hin | Hin]; [discriminate |]).
  inversion Hin.
Defined.

Lemma socket_messages_never_recalculate_witness :
  let hub' := @handle planar sampleServices sampleHub (LocationUpdate "s1" roadGoal 50) in
  routeEngine (hub_server hub') = singleRoad /\
  sessions_get (sessionsOf hub') "evac_1" = Some (moveSession roadGoal 50 sampleSession).
Proof.
  cbv zeta.
  destruct (@socket_messages_never_recalculate planar sampleServices sampleHub
              (LocationUpdate "s1" roadGoal 50) I) as (He & _ & _ & _).
  split; [exact He | reflexivity].
Defined.

Lemma failed_update_still_moves_session_witness :
  snd (fst (@routeUpdate planar sampleServices sampleServer 2000 "evac_1" origin []))
  = Failed500 /\
  sessions_get
    (activeSessions
       (fst (fst (@routeUpdate planar sampleServices sampleServer 2000 "evac_1" origin []))))
    "evac_1"
  = Some (moveSession origin 2000 sampleSession).
Proof.
  assert (snd (fst (@routeUpdate planar sampleServices sampleServer 2000 "evac_1" origin []))
          = Failed500) as Hf by (vm_compute; reflexivity).
  split; [exact Hf |].
  exact (@failed_update_still_moves_session planar sampleServices sampleServer 2000 "evac_1"
           origin [] sampleSession eq_refl Hf).
Defined.


(** * Hazard reports *)

Lemma timeWeight_pos (index : nat) : 0 < 1 / inject_Z (Z.of_nat index + 1).
Proof.
  unfold Qdiv. rewrite Qmult_1_l. apply Qinv_lt_0_compat.
  change 0 with (inject_Z 0). rewrite <- Zlt_Qlt. lia.
Qed.

Lemma timeWeight_le (index : nat) (b : Q) :
  1 <= b * inject_Z (Z.of_nat index + 1) -> 1 / inject_Z (Z.of_nat index + 1) <= b.
Proof.
  intros Hb. apply Qle_shift_div_r; [| exact Hb].
  change 0 with (inject_Z 0). rewrite <- Zlt_Qlt. lia.
Qed.

(** The weighted sum is at most the highest confidence times the sum of
    the weights. *)
Lemma weightedSum_le (reports : list ReportEntry) (index : nat) (sum c : Q) :
  (forall r, r ∈ reports -> entry_confidence r <= c) ->
  weightedSum reports index sum
  <= sum + c * (harmonic (index + length reports) - harmonic index).
Proof.
  revert index sum. induction reports as [|r reports IH]; intros index sum Hc.
  - cbn [weightedSum length]. rewrite Nat.add_0_r. lra.
  - cbn [weightedSum length]. cbv zeta.
    eapply Qle_trans; [apply IH; intros r' Hin; apply Hc, list_elem_of_further, Hin |].
    rewrite Nat.add_succ_r. change (S index + length reports)%nat with (S (index + length reports)).
    cbn [harmonic].
    pose proof (timeWeight_pos index) as Hw.
    assert (entry_confidence r * (1 / inject_Z (Z.of_nat index + 1))
            <= c * (1 / inject_Z (Z.of_nat index + 1))) as Hm.
    { apply Qmult_le_compat_r; [apply Hc, list_elem_of_here | apply Qlt_le_weak, Hw]. }
    revert Hm. generalize (1 / inject_Z (Z.of_nat index + 1)).
    generalize (harmonic (S (index + length reports))). generalize (harmonic index).
    generalize (entry_confidence r). intros x hi hn w Hm.
    assert (c * (hn - (hi + w)) == c * hn - c * hi - c * w) by ring.
    assert (c * (hn - hi) == c * hn - c * hi) by ring.
    lra.
Qed.

(** From [n0] reports on, the sum of the weights is at most [b] per
    report. *)
Lemma harmonic_bound (n0 : nat) (b : Q) :
  harmonic n0 <= b * inject_Z (Z.of_nat n0) ->
  1 <= b * inject_Z (Z.of_nat n0 + 1) -> 0 <= b ->
  forall n, (n0 <= n)%nat -> harmonic n <= b * inject_Z (Z.of_nat n).
Proof.
  intros H0 H1 Hb n Hn. induction Hn as [|n Hn IH]; [exact H0 |].
  cbn [harmonic].
  assert (1 / inject_Z (Z.of_nat n + 1) <= b) as Hw.
  { apply timeWeight_le.
    assert (inject_Z (Z.of_nat n0 + 1) <= inject_Z (Z.of_nat n + 1)) as Hle
      by (rewrite <- Zle_Qle; lia).
    eapply Qle_trans; [exact H1 |].
    rewrite !(Qmult_comm b). apply Qmult_le_compat_r; assumption. }
  revert Hw. generalize (1 / inject_Z (Z.of_nat n + 1)). intros w Hw.
  rewrite Nat2Z.inj_succ, <- Z.add_1_r, inject_Z_plus. change (inject_Z 1) with 1.
  assert (b * (inject_Z (Z.of_nat n) + 1) == b * inject_Z (Z.of_nat n) + b) by ring.
  lra.
Qed.

Lemma aggregate_le (reports : list ReportEntry) (c b : Q) :
  (2 <= length reports)%nat -> 0 <= c ->
  (forall r, r ∈ reports -> entry_confidence r <= c) ->
  harmonic (length reports) <= b * inject_Z (Z.of_nat (length reports)) ->
  calculateAggregateConfidence reports <= 1.2 * b * c.
Proof.
  intros Hn Hc Hr Hb.
  pose proof (weightedSum_le reports 0 0 c Hr) as Hw.
  cbn [Nat.add harmonic] in Hw.
  assert (0 < inject_Z (Z.of_nat (length reports))) as Hpos
    by (change 0 with (inject_Z 0); rewrite <- Zlt_Qlt; lia).
  assert (weightedSum reports 0 0 / inject_Z (Z.of_nat (length reports)) <= c * b) as Hdiv.
  { apply Qle_shift_div_r; [exact Hpos |].
    assert (c * harmonic (length reports) <= c * (b * inject_Z (Z.of_nat (length reports))))
      as Hm by (rewrite !(Qmult_comm c); apply Qmult_le_compat_r; assumption).
    assert (c * b * inject_Z (Z.of_nat (length reports))
            == c * (b * inject_Z (Z.of_nat (length reports)))) by ring.
    lra. }
  assert (calculateAggregateConfidence reports
          = Qmin (weightedSum reports 0 0 / inject_Z (Z.of_nat (length reports)) * 1.2) 1.0)
    as ->.
  { destruct reports as [|r1 [|r2 reports]]; cbn [length] in Hn; try lia. reflexivity. }
  eapply Qle_trans; [apply Q.le_min_l |].
  assert (1.2 * b * c == c * b * 1.2) by ring.
  lra.
Qed.


Lemma harmonic_4 n : (4 <= n)%nat -> harmonic n <= 0.55 * inject_Z (Z.of_nat n).
Proof. apply harmonic_bound; vm_compute; discriminate. Qed.

Lemma harmonic_5 n : (5 <= n)%nat -> harmonic n <= 0.49 * inject_Z (Z.of_nat n).
Proof. apply harmonic_bound; vm_compute; discriminate. Qed.

(** The levels that [calculateVerificationLevel] can give to reports of
    confidence at most 1. *)
Lemma verification_level_cases (reports : list ReportEntry) :
  (forall r, r ∈ reports -> entry_confidence r <= 1) ->
  let level := calculateVerificationLevel reports in
  (level = "unverified" \/ level = "possible" \/ level = "likely") /\
  ((5 <= length reports)%nat -> level = "unverified") /\
  (level = "likely" -> length reports = 3%nat).
Proof.
  intros Hr. cbv zeta. unfold calculateVerificationLevel. cbv zeta.
  assert (0 <= 1) as H01 by lra.
  destruct (Nat.leb_spec 5 (length reports)) as [H5|H5].
  - pose proof (aggregate_le reports 1 0.49 ltac:(lia) H01 Hr (harmonic_5 _ H5)) as Ha.
    assert (Qle_bool 0.8 (calculateAggregateConfidence reports) = false) as ->
      by (apply not_true_is_false; intros Hb; apply Qle_bool_iff in Hb; lra).
    assert (Qle_bool 0.7 (calculateAggregateConfidence reports) = false) as ->
      by (apply not_true_is_false; intros Hb; apply Qle_bool_iff in Hb; lra).
    assert (Qle_bool 0.6 (calculateAggregateConfidence reports) = false) as ->
      by (apply not_true_is_false; intros Hb; apply Qle_bool_iff in Hb; lra).
    rewrite !andb_false_r. repeat split; auto. discriminate.
  - cbn [andb].
    destruct (Nat.leb_spec 3 (length reports)) as [H3|H3]; cbn [andb].
    + destruct (Qle_bool 0.7 (calculateAggregateConfidence reports)) eqn:E7.
      * repeat split; auto; [lia |]. intros _.
        destruct (Nat.eq_dec (length reports) 3%nat) as [He|He]; [exact He |]. exfalso.
        assert (4 <= length reports)%nat as H4 by lia.
        pose proof (aggregate_le reports 1 0.55 ltac:(lia) H01 Hr
                      (harmonic_4 (length reports) H4)) as Ha.
        apply Qle_bool_iff in E7. lra.
      * destruct ((2 <=? length reports)%nat && Qle_bool 0.6 _);
          repeat split; auto; try lia; discriminate.
    + destruct ((2 <=? length reports)%nat && Qle_bool 0.6 _);
        repeat split; auto; try lia; discriminate.
Qed.



Lemma createReportEntry_confidence (hazardReport : Report) (now : Z) :
  (forall c, report_confidence hazardReport = Some c -> c <= 1) ->
  entry_confidence (createReportEntry hazardReport now) <= 1.
Proof.
  intros Hc. cbn [createReportEntry entry_confidence]. unfold truthyNumber.
  destruct (report_confidence hazardReport) as [c|]; cbn [default]; [| lra].
  destruct (Qeq_bool c 0); cbn [default from_option id]; [lra | apply Hc; reflexivity].
Qed.

Lemma hazardStep_consistent (hazards : gmap HazardId HazardEntry) (request : HazardRequest) :
  atMostCertain request ->
  (forall k h, hazards !! k = Some h -> consistentHazard k h) ->
  forall k h, hazardStep hazards request !! k = Some h -> consistentHazard k h.
Proof.
  intros Hc Hinv k h.
  destruct request as [hazardReport now | hazardId note now | now]; cbn [hazardStep].
  - unfold reportHazardEntry.
    destruct (truthyString (report_type hazardReport)) as [type|]; [| apply Hinv].
    destruct (report_location hazardReport) as [location|]; [| apply Hinv].
    destruct (Qeq_bool (lat location) 0 || Qeq_bool (lng location) 0); [apply Hinv |].
    cbv zeta.
    destruct (hazards !! generateHazardId type location) as [existing|] eqn:Hex;
      cbn [fst]; rewrite lookup_insert;
      (destruct (decide (generateHazardId type location = k)) as [<-|Hne]; [| apply Hinv]);
      intros [= <-].
    + destruct (Hinv _ _ Hex) as (Hid & Hne & Hconf & Hlevel).
      repeat split; cbn [updateExistingHazard hz_id hz_reports verificationLevel].
      * exact Hid.
      * intros Happ. apply app_eq_nil in Happ as [_ Happ]. discriminate.
      * intros r Hin. apply elem_of_app in Hin as [Hin | Hin]; [apply Hconf, Hin |].
        apply list_elem_of_singleton in Hin as ->.
        apply createReportEntry_confidence, Hc.
    + repeat split; cbn [createNewHazard hz_id hz_reports verificationLevel].
      * discriminate.
      * intros r Hin. apply list_elem_of_singleton in Hin as ->.
        apply createReportEntry_confidence, Hc.
  - unfold resolveHazard.
    destruct (hazards !! hazardId) as [hazard|] eqn:Hex; cbn [fst]; [| apply Hinv].
    rewrite lookup_insert.
    destruct (decide (hazardId = k)) as [<-|Hne]; [| apply Hinv].
    intros [= <-]. exact (Hinv _ _ Hex).
  - unfold cleanupOldHazards. intros Hf.
    apply map_lookup_filter_Some in Hf as [Hf _]. exact (Hinv _ _ Hf).
Qed.

Lemma hazardRun_consistent (requests : list HazardRequest)
    (hazards : gmap HazardId HazardEntry) :
  (forall request, request ∈ requests -> atMostCertain request) ->
  (forall k h, hazards !! k = Some h -> consistentHazard k h) ->
  forall k h, fold_left hazardStep requests hazards !! k = Some h -> consistentHazard k h.
Proof.
  revert hazards. induction requests as [|request requests IH]; intros hazards Hc Hinv;
    cbn [fold_left]; [exact Hinv |].
  apply IH.
  - intros request' Hin. apply Hc, list_elem_of_further, Hin.
  - apply hazardStep_consistent; [apply Hc, list_elem_of_here | exact Hinv].
Qed.

(** X19. One step of the service never takes anything back from a hazard
    that stays in the Map: the level of its severity, its radius and the
    number of its reports do not fall, its first report time and its
    priority level are never written again, and a resolved hazard stays
    resolved, whatever is reported on it. *)
Theorem hazard_step_monotone (hazards : gmap HazardId HazardEntry)
    (request : HazardRequest) (k : HazardId) (h h' : HazardEntry) :
  hazards !! k = Some h -> hazardStep hazards request !! k = Some h' ->
  (getSeverityLevel (hz_severity h) <= getSeverityLevel (hz_severity h'))%Z /\
  affectedRadius h <= affectedRadius h' /\
  (length (hz_reports h) <= length (hz_reports h'))%nat /\
  firstReported h' = firstReported h /\
  priorityLevel h' = priorityLevel h /\
  (hz_status h = "resolved" -> hz_status h' = "resolved").
Proof.
  intros Hk.
  assert (h = h' ->
          (getSeverityLevel (hz_severity h) <= getSeverityLevel (hz_severity h'))%Z /\
          affectedRadius h <= affectedRadius h' /\
          (length (hz_reports h) <= length (hz_reports h'))%nat /\
          firstReported h' = firstReported h /\
          priorityLevel h' = priorityLevel h /\
          (hz_status h = "resolved" -> hz_status h' = "resolved")) as Hsame.
  { intros <-. repeat split; auto; try lia. lra. }
  assert (hazards !! k = Some h' ->
          (getSeverityLevel (hz_severity h) <= getSeverityLevel (hz_severity h'))%Z /\
          affectedRadius h <= affectedRadius h' /\
          (length (hz_reports h) <= length (hz_reports h'))%nat /\
          firstReported h' = firstReported h /\
          priorityLevel h' = priorityLevel h /\
          (hz_status h = "resolved" -> hz_status h' = "resolved")) as Hkeep.
  { intros Hk'. apply Hsame. congruence. }
  destruct request as [hazardReport now | hazardId note now | now]; cbn [hazardStep].
  - unfold reportHazardEntry.
    destruct (truthyString (report_type hazardReport)) as [type|]; [| exact Hkeep].
    destruct (report_location hazardReport) as [location|]; [| exact Hkeep].
    destruct (Qeq_bool (lat location) 0 || Qeq_bool (lng location) 0); [exact Hkeep |].
    cbv zeta.
    destruct (hazards !! generateHazardId type location) as [existing|] eqn:Hex;
      cbn [fst]; rewrite lookup_insert;
      (destruct (decide (generateHazardId type location = k)) as [Heq|Hne]; [| exact Hkeep]);
      rewrite Heq in Hex; rewrite Hk in Hex; [| discriminate].
    injection Hex as <-. intros [= <-].
    cbn [updateExistingHazard hz_severity affectedRadius hz_reports firstReported
         priorityLevel hz_status].
    split; [| split; [| split; [| auto]]].
    + destruct (getSeverityLevel (hz_severity h)
                <? getSeverityLevel (calculateSeverity hazardReport))%Z eqn:E; [| lia].
      apply Z.ltb_lt in E. lia.
    + apply Q.le_max_l.
    + rewrite length_app. lia.
  - unfold resolveHazard.
    destruct (hazards !! hazardId) as [hazard|] eqn:Hex; cbn [fst]; [| exact Hkeep].
    rewrite lookup_insert.
    destruct (decide (hazardId = k)) as [Heq|Hne]; [| exact Hkeep].
    rewrite Heq, Hk in Hex. injection Hex as <-. intros [= <-].
    cbn [hz_severity affectedRadius hz_reports firstReported priorityLevel hz_status].
    repeat split; auto; try lia. lra.
  - unfold cleanupOldHazards. intros Hf.
    apply map_lookup_filter_Some in Hf as [Hf _]. exact (Hkeep Hf).
Qed.

(** X20. No hazard is ever verified: in every state that the service
    reaches from its start through reports of confidence at most 1, a
    stored hazard carries its key and at least one report, its level is
    never 'verified', it is 'likely' only with exactly three reports, and
    from five reports on it is 'unverified'. *)
Theorem stored_hazards_never_verified (requests : list HazardRequest)
    (k : HazardId) (h : HazardEntry) :
  (forall request, request ∈ requests -> atMostCertain request) ->
  hazardRun requests !! k = Some h ->
  hz_id h = k /\ hz_reports h <> [] /\
  verificationLevel h <> "verified" /\
  (verificationLevel h = "likely" -> length (hz_reports h) = 3%nat) /\
  ((5 <= length (hz_reports h))%nat -> verificationLevel h = "unverified").
Proof.
  intros Hc Hk.
  destruct (hazardRun_consistent requests ∅ Hc
              ltac:(intros k0 h0 H0; rewrite lookup_empty in H0; discriminate) k h Hk)
    as (Hid & Hne & Hconf & Hlevel).
  destruct (verification_level_cases (hz_reports h) Hconf) as (Hcases & H5 & H3).
  rewrite <- Hlevel in Hcases, H5, H3.
  split; [exact Hid |]. split; [exact Hne |]. split; [| split; assumption].
  destruct Hcases as [-> | [-> | ->]]; discriminate.
Qed.

(** X21. A much-reported hazard expires: a stored hazard with five or more
    reports, none more than certain, is deleted by the first clean-up that
    runs more than 24 hours after its first report, however recent its
    last report is and whether or not it was resolved. *)
Theorem well_reported_hazard_expires (requests : list HazardRequest) (now : Z)
    (k : HazardId) (h : HazardEntry) :
  (forall request, request ∈ requests -> atMostCertain request) ->
  hazardRun requests !! k = Some h ->
  (5 <= length (hz_reports h))%nat ->
  (24 * 60 * 60 * 1000 < now - firstReported h)%Z ->
  hazardRun (requests ++ [CleanupIn now]) !! k = None.
Proof.
  intros Hc Hk H5 Hage.
  destruct (hazardRun_consistent requests ∅ Hc
              ltac:(intros k0 h0 H0; rewrite lookup_empty in H0; discriminate) k h Hk)
    as (_ & _ & Hconf & Hlevel).
  destruct (verification_level_cases (hz_reports h) Hconf) as (_ & Hun & _).
  unfold hazardRun in *. rewrite fold_left_app. cbn [fold_left hazardStep].
  unfold cleanupOldHazards. apply map_lookup_filter_None. right.
  intros x Hx. rewrite Hk in Hx. injection Hx as <-. cbn [snd].
  unfold cleanedUp. cbv zeta. rewrite Hlevel, (Hun H5).
  assert ((24 * 60 * 60 * 1000 <? now - firstReported h)%Z = true) as ->
    by (apply Z.ltb_lt; exact Hage).
  destruct (String.eqb (hz_status h) "resolved" && (60 * 60 * 1000 <? now - firstReported h)%Z);
    discriminate.
Qed.

(** ** The properties of the hazard service at sample reports *)


Lemma hazard_step_monotone_witness :
  let hazards := hazardRun [ReportIn (fireReport 0.8) 0] in
  exists k h h',
    hazards !! k = Some h /\
    hazardStep hazards (ReportIn (fireReport 0.9) 10) !! k = Some h' /\
    (length (hz_reports h) <= length (hz_reports h'))%nat /\
    priorityLevel h' = priorityLevel h.
Proof.
  cbv zeta.
  exists (generateHazardId "fire" origin).
  destruct (hazardRun [ReportIn (fireReport 0.8) 0] !! generateHazardId "fire" origin)
    as [h|] eqn:E; [| vm_compute in E; discriminate].
  destruct (hazardStep (hazardRun [ReportIn (fireReport 0.8) 0]) (ReportIn (fireReport 0.9) 10)
              !! generateHazardId "fire" origin) as [h'|] eqn:E';
    [| vm_compute in E'; discriminate].
  exists h, h'.
  destruct (hazard_step_monotone _ _ _ h h' E E') as (_ & _ & H3 & _ & H5 & _).
  exact (conj eq_refl (conj eq_refl (conj H3 H5))).
Defined.

Lemma fiveFires_certain request :
  request ∈ [ReportIn (fireReport 1) 1; ReportIn (fireReport 1) 2; ReportIn (fireReport 1) 3;
             ReportIn (fireReport 1) 4; ReportIn (fireReport 1) 5] ->
  atMostCertain request.
Proof.
  intros Hin.
  repeat (apply elem_of_cons in Hin as [-> | Hin];
          [intros c [= <-]; vm_compute; discriminate |]).
  inversion Hin.
Qed.

Lemma stored_hazards_never_verified_witness :
  exists h,
    hazardRun [ReportIn (fireReport 1) 1; ReportIn (fireReport 1) 2; ReportIn (fireReport 1) 3;
               ReportIn (fireReport 1) 4; ReportIn (fireReport 1) 5]
      !! generateHazardId "fire" origin = Some h /\
    length (hz_reports h) = 5%nat /\ verificationLevel h = "unverified".
Proof.
  destruct (hazardRun _ !! generateHazardId "fire" origin) as [h|] eqn:E;
    [| vm_compute in E; discriminate].
  exists h. split; [reflexivity |].
  assert (length (hz_reports h) = 5%nat) as H5.
  { vm_compute in E. injection E as <-. reflexivity. }
  split; [exact H5 |].
  destruct (stored_hazards_never_verified _ _ h fiveFires_certain E) as (_ & _ & _ & _ & Hun).
  apply Hun. rewrite H5. lia.
Defined.

Lemma well_reported_hazard_expires_witness :
  hazardRun ([ReportIn (fireReport 1) 1; ReportIn (fireReport 1) 2; ReportIn (fireReport 1) 3;
              ReportIn (fireReport 1) 4; ReportIn (fireReport 1) 5]
             ++ [CleanupIn 90000000])
    !! generateHazardId "fire" origin = None.
Proof.
  destruct (hazardRun [ReportIn (fireReport 1) 1; ReportIn (fireReport 1) 2;
                       ReportIn (fireReport 1) 3; ReportIn (fireReport 1) 4;
                       ReportIn (fireReport 1) 5] !! generateHazardId "fire" origin)
    as [h|] eqn:E; [| vm_compute in E; discriminate].
  refine (well_reported_hazard_expires _ 90000000 _ h fiveFires_certain E _ _);
    vm_compute in E; injection E as <-; cbn [length hz_reports firstReported]; lia.
Defined.


(** * The earthquake feed *)

Lemma insertByTime_perm x l : insertByTime x l ≡ₚ x :: l.
Proof.
  induction l as [|y l IH]; cbn [insertByTime]; [reflexivity |].
  destruct (time (feature_quake y) <=? time (feature_quake x))%Z; [reflexivity |].
  rewrite IH. apply Permutation_swap.
Qed.

Lemma insertByTime_sorted x l : newestFirst l -> newestFirst (insertByTime x l).
Proof.
  induction l as [|y l IH]; cbn [insertByTime newestFirst].
  - intros _. split; [intros z Hz; inversion Hz | exact I].
  - intros [Hy Hl].
    destruct (time (feature_quake y) <=? time (feature_quake x))%Z eqn:E.
    + apply Z.leb_le in E. cbn [newestFirst]. split; [| split; assumption].
      intros z Hz. apply elem_of_cons in Hz as [-> | Hz]; [exact E |].
      specialize (Hy z Hz). lia.
    + apply Z.leb_gt in E. cbn [newestFirst]. split; [| exact (IH Hl)].
      intros z Hz. rewrite insertByTime_perm in Hz.
      apply elem_of_cons in Hz as [-> | Hz]; [lia | exact (Hy z Hz)].
Qed.

Lemma sortByTime_perm l : sortByTime l ≡ₚ l.
Proof.
  induction l as [|x l IH]; [reflexivity |].
  cbn [sortByTime fold_right]. rewrite insertByTime_perm. constructor. exact IH.
Qed.

Lemma sortByTime_sorted l : newestFirst (sortByTime l).
Proof.
  induction l as [|x l IH]; [exact I |].
  cbn [sortByTime fold_right]. apply insertByTime_sorted, IH.
Qed.

Lemma mergeDataset_flat datasets acc :
  fold_left mergeDataset datasets acc = fold_left mergeFeature (allFeatures datasets) acc.
Proof.
  unfold allFeatures. revert acc.
  induction datasets as [|[features|] datasets IH]; intros acc; cbn [fold_left]; auto.
  change (omap (fun dataset => dataset) (Some features :: datasets))
    with (features :: omap (fun dataset => dataset) datasets).
  cbn [concat mergeDataset]. rewrite fold_left_app. apply IH.
Qed.

Lemma mergeFeature_spec features seen merged :
  seen = map featureKey merged -> NoDup seen ->
  let r := fold_left mergeFeature features (seen, merged) in
  fst r = map featureKey (snd r) /\ NoDup (fst r) /\
  forall f, f ∈ snd r <->
            f ∈ merged \/
            exists l1 l2, features = l1 ++ f :: l2 /\ (featureKey f ∉ seen) /\
                          (featureKey f ∉ map featureKey l1).
Proof.
  revert seen merged. induction features as [|x xs IH]; intros seen merged Hs Hn; cbv zeta.
  - cbn [fold_left fst snd]. split; [exact Hs |]. split; [exact Hn |].
    intros f. split; [auto |]. intros [Hf | (l1 & l2 & Hl & _)]; [exact Hf |].
    destruct l1; discriminate.
  - cbn [fold_left].
    assert (mergeFeature (seen, merged) x
            = if bool_decide (featureKey x ∈ seen) then (seen, merged)
              else (seen ++ [featureKey x], merged ++ [x])) as -> by reflexivity.
    destruct (bool_decide (featureKey x ∈ seen)) eqn:E.
    + apply bool_decide_eq_true in E.
      destruct (IH seen merged Hs Hn) as (H1 & H2 & H3). cbv zeta in H1, H2, H3.
      split; [exact H1 |]. split; [exact H2 |]. intros f. rewrite H3. split.
      * intros [Hf | (l1 & l2 & -> & Hk & Hl)]; [left; exact Hf | right].
        exists (x :: l1), l2. split; [reflexivity |]. split; [exact Hk |].
        cbn [map]. intros Hin. apply elem_of_cons in Hin as [Heq | Hin]; [| exact (Hl Hin)].
        apply Hk. rewrite Heq. exact E.
      * intros [Hf | (l1 & l2 & Hl & Hk & Hl1)]; [left; exact Hf |].
        destruct l1 as [|y l1]; cbn [app] in Hl; injection Hl as <- ->.
        -- exfalso. exact (Hk E).
        -- right. exists l1, l2. split; [reflexivity |]. split; [exact Hk |].
           intros Hin. apply Hl1. cbn [map]. apply list_elem_of_further, Hin.
    + apply bool_decide_eq_false in E.
      assert (seen ++ [featureKey x] = map featureKey (merged ++ [x])) as Hs'
        by (rewrite map_app, Hs; reflexivity).
      assert (NoDup (seen ++ [featureKey x])) as Hn'.
      { apply NoDup_app. split; [exact Hn |]. split; [| apply NoDup_singleton].
        intros k Hk Hk'. apply list_elem_of_singleton in Hk' as ->. exact (E Hk). }
      destruct (IH _ _ Hs' Hn') as (H1 & H2 & H3). cbv zeta in H1, H2, H3.
      split; [exact H1 |]. split; [exact H2 |]. intros f. rewrite H3. split.
      * intros [Hf | (l1 & l2 & -> & Hk & Hl)].
        -- apply elem_of_app in Hf as [Hf | Hf]; [left; exact Hf | right].
           apply list_elem_of_singleton in Hf as ->.
           exists [], xs. split; [reflexivity |]. split; [exact E |].
           intros Hin. inversion Hin.
        -- right. exists (x :: l1), l2. split; [reflexivity |].
           split; [intros Hin; apply Hk, elem_of_app; left; exact Hin |].
           cbn [map]. intros Hin. apply elem_of_cons in Hin as [Heq | Hin]; [| exact (Hl Hin)].
           apply Hk, elem_of_app. right. rewrite Heq. apply list_elem_of_here.
      * intros [Hf | (l1 & l2 & Hl & Hk & Hl1)];
          [left; apply elem_of_app; left; exact Hf |].
        destruct l1 as [|y l1]; cbn [app] in Hl; injection Hl as <- ->.
        -- left. apply elem_of_app. right. apply list_elem_of_here.
        -- right. exists l1, l2. split; [reflexivity |]. split.
           ++ intros Hin. apply elem_of_app in Hin as [Hin | Hin]; [exact (Hk Hin) |].
              apply list_elem_of_singleton in Hin. apply Hl1. cbn [map].
              rewrite Hin. apply list_elem_of_here.
           ++ intros Hin. apply Hl1. cbn [map]. apply list_elem_of_further, Hin.
Qed.

(** X22. [mergeEarthquakeData] keeps, of the features of the feeds in
    their order, the first under every identifier, and puts them newest
    first: no identifier occurs twice in the result, and a feature is in
    it exactly when no feature before it has its identifier. *)
Theorem merged_feed_first_copy_newest_first (datasets : list (option (list Feature))) :
  let merged := mergeEarthquakeData datasets in
  NoDup (map featureKey merged) /\ newestFirst merged /\
  forall f, f ∈ merged <->
            exists l1 l2, allFeatures datasets = l1 ++ f :: l2 /\
                          (featureKey f ∉ map featureKey l1).
Proof.
  cbv zeta. unfold mergeEarthquakeData. rewrite mergeDataset_flat.
  destruct (mergeFeature_spec (allFeatures datasets) [] [] eq_refl (NoDup_nil_2))
    as (H1 & H2 & H3).
  cbv zeta in H1, H2, H3. split; [| split].
  - rewrite sortByTime_perm, <- H1. exact H2.
  - apply sortByTime_sorted.
  - intros f. rewrite sortByTime_perm, H3. split.
    + intros [Hf | (l1 & l2 & Hl & _ & Hk)]; [inversion Hf |]. exists l1, l2. auto.
    + intros (l1 & l2 & Hl & Hk). right. exists l1, l2.
      split; [exact Hl |]. split; [intros Hin; inversion Hin | exact Hk].
Qed.

Section FeedProperties.
Context `{Geo} `{Exponential}.

Lemma urgent_spec now f :
  urgent (enhance now f) = true <->
  5 <= mag (feature_quake f) /\ (now - 3600000 < time (feature_quake f))%Z.
Proof.
  cbn [enhance urgent]. rewrite andb_true_iff, Qle_bool_iff, Z.ltb_lt.
  split; intros [Hm Ht]; (split; [lra | lia]).
Qed.

Lemma urgent_significant now rawData :
  (0 < snd (processEarthquakeData now rawData))%nat ->
  existsb significant
    (getRecentEarthquakes (Some (map quakeOf (fst (processEarthquakeData now rawData)))) now 1)
  = true.
Proof.
  unfold processEarthquakeData. destruct rawData as [features|]; cbn [fst snd]; [| lia].
  intros Hc.
  destruct (filter (fun f => urgent f = true) (map (enhance now) features)) as [|p ps] eqn:E;
    [cbn [length] in Hc; lia |].
  assert (p ∈ filter (fun f => urgent f = true) (map (enhance now) features)) as Hp
    by (rewrite E; apply list_elem_of_here).
  apply list_elem_of_filter in Hp as [Hu Hp].
  apply list_elem_of_fmap in Hp as (f & -> & Hf).
  apply urgent_spec in Hu as [Hm Ht].
  apply hasSignificantActivity_spec. exists (feature_quake f). cbn [default].
  split; [| split; [lia | exact Hm]].
  apply list_elem_of_fmap. exists (enhance now f). split; [reflexivity |].
  apply list_elem_of_fmap. exists f. split; [reflexivity | exact Hf].
Qed.

(** X23. The flags that [processEarthquakeData] sets agree with the test
    of the server: a feature is urgent exactly when its magnitude is at
    least 5 and it is less than an hour old, its risk level is HIGH, SEVERE
    or EXTREME exactly when its magnitude is at least 5, and when the
    urgent count is not 0, the expression by which the recalculation check
    of the server tests for significant activity is true of these data at
    the same time. *)
Theorem urgent_count_triggers_recalculation (now : Z) (rawData : option (list Feature)) :
  let processed := fst (processEarthquakeData now rawData) in
  (forall p, p ∈ processed ->
     (urgent p = true <-> 5 <= mag (quakeOf p) /\ (timeSince p < 3600000)%Z) /\
     (5 <= mag (quakeOf p) <->
      eq_riskLevel p = "HIGH" \/ eq_riskLevel p = "SEVERE" \/ eq_riskLevel p = "EXTREME")) /\
  ((0 < snd (processEarthquakeData now rawData))%nat ->
   existsb significant (getRecentEarthquakes (Some (map quakeOf processed)) now 1) = true).
Proof.
  cbv zeta. split; [| apply urgent_significant].
  intros p Hp. unfold processEarthquakeData in Hp.
  destruct rawData as [features|]; cbn [fst] in Hp; [| inversion Hp].
  apply list_elem_of_fmap in Hp as (f & -> & _). split.
  - change (quakeOf (enhance now f)) with (feature_quake f).
    cbn [enhance urgent timeSince].
    rewrite andb_true_iff, Qle_bool_iff, Z.ltb_lt.
    split; intros [Hm Ht]; (split; [lra | exact Ht]).
  - change (quakeOf (enhance now f)) with (feature_quake f).
    cbn [enhance eq_riskLevel]. unfold calculateRiskLevel.
    destruct (Qle_bool 7.0 (mag (feature_quake f))) eqn:E7;
      [apply Qle_bool_iff in E7; split; [auto | intros _; lra] |].
    destruct (Qle_bool 6.0 (mag (feature_quake f))) eqn:E6;
      [apply Qle_bool_iff in E6; split; [auto | intros _; lra] |].
    destruct (Qle_bool 5.0 (mag (feature_quake f))) eqn:E5;
      [apply Qle_bool_iff in E5; split; [auto | intros _; lra] |].
    assert (~ 5.0 <= mag (feature_quake f)) as Hn
      by (intros Hle; apply Qle_bool_iff in Hle; congruence).
    destruct (Qle_bool 4.0 (mag (feature_quake f)));
      (split; [intros Hle; exfalso; apply Hn; lra
              | intros [Hx | [Hx | Hx]]; discriminate]).
Qed.

End FeedProperties.

Section FeedToServerProperties.
Context `{Geo} `{Exponential} `{Services}.

Lemma existsb_active ss :
  existsb (fun kv : string * Session => String.eqb (status (snd kv)) "active") ss = true
  <-> exists k s, (k, s) ∈ ss /\ status s = "active".
Proof.
  rewrite existsb_exists. split.
  - intros ([k s] & Hin & Hs). exists k, s.
    split; [apply list_elem_of_In, Hin | apply String.eqb_eq, Hs].
  - intros (k & s & Hin & Hs). exists (k, s).
    split; [apply list_elem_of_In, Hin | apply String.eqb_eq, Hs].
Qed.

(** X24. A poll of the feed reroutes nobody, however urgent its events.
    The poll stores the processed data, broadcasts them and sweeps the
    sessions; at the first active session the sweep asks the trigger, the
    trigger throws, and the sweep ends there with a TypeError: nothing is
    calculated, no route is sent and nothing is logged, and the engine, the
    hazards and the sessions are as before the poll. Without an active
    session the sweep ends without an exception. *)
Theorem urgent_feed_recalculates_nothing (hub : Hub) (now : Z)
    (feeds : list (option (list Feature))) :
  let processedData := map quakeOf (fst (fetchAllEarthquakeData now feeds)) in
  let polled := pollFeed hub now feeds in
  let stored :=
    {| routeEngine := routeEngine (hub_server hub); usgsCache := Some processedData;
       currentHazards := currentHazards (hub_server hub);
       activeSessions := sessionsOf hub |} in
  snd polled = [EarthquakeBroadcast processedData] /\
  hub_server (fst polled) = stored /\
  (snd (checkAllRoutesForRecalculation stored now processedData) = Err TypeError
   <-> exists k s, (k, s) ∈ sessionsOf hub /\ status s = "active") /\
  (snd (checkAllRoutesForRecalculation stored now processedData) = Ok tt
   <-> forall k s, (k, s) ∈ sessionsOf hub -> status s <> "active").
Proof.
  cbv zeta. unfold pollFeed. cbv zeta.
  rewrite !checkAllRoutesForRecalculation_throws.
  cbn [fst snd setServer hub_server routeEngine usgsCache currentHazards activeSessions
       setSessions setEngine sessionsOf].
  split; [reflexivity |]. split; [reflexivity |]. unfold sessionsOf.
  pose proof (existsb_active (activeSessions (hub_server hub))) as Hact.
  destruct (existsb _ (activeSessions (hub_server hub))).
  - split; [split; [intros _; apply Hact; reflexivity | reflexivity] |].
    split; [discriminate |]. intros Hnone. exfalso.
    destruct (proj1 Hact eq_refl) as (k & s & Hin & Hs). exact (Hnone k s Hin Hs).
  - split; [split; [discriminate | intros Hsome; apply Hact in Hsome; discriminate] |].
    split; [intros _ | reflexivity]. intros k s Hin Hs.
    assert (false = true) as Hf by (apply Hact; eauto). discriminate.
Qed.

End FeedToServerProperties.

Section SubscriberProperties.
Context {Callback : Type} `{EqDecision Callback}.

Lemma unsubscribe_missing (callback : Callback) subscribers :
  callback ∉ subscribers -> unsubscribe callback subscribers = subscribers.
Proof.
  induction subscribers as [|c subscribers IH]; intros Hn; [reflexivity |].
  cbn [unsubscribe]. destruct (decide (c = callback)) as [->|Hne].
  - exfalso. apply Hn, list_elem_of_here.
  - f_equal. apply IH. intros Hin. apply Hn, list_elem_of_further, Hin.
Qed.


End SubscriberProperties.


(** ** The feed at a sample poll *)

Lemma urgent_feed_at_sample_hub :
  let feeds := [Some [feature "us1" 6 1000];
                Some [feature "us1" 6 1000; feature "us2" 3 500]; None; None] in
  (0 < snd (@fetchAllEarthquakeData planar whole_pow10 2000 feeds))%nat /\
  snd (@pollFeed planar whole_pow10 sampleHub 2000 feeds)
  = [EarthquakeBroadcast [quake 6 1000; quake 3 500]] /\
  sessionsOf (fst (@pollFeed planar whole_pow10 sampleHub 2000 feeds)) = sessionsOf sampleHub.
Proof. cbv zeta. split; [vm_compute; lia |]. split; reflexivity. Qed.


(** * What the answers of the search say about the graph *)

Section Completeness.
Context `{Geo}.

Lemma pq_pop_None q : pq_pop q = None -> q = [].
Proof.
  destruct q as [|x q]; [reflexivity |]. cbn [pq_pop].
  destruct (pq_pop q) as [[y r]|]; [| discriminate].
  destruct (Qle_bool (item_fScore x) (item_fScore y)); discriminate.
Qed.

Lemma aStarInit_reach e s goalNode cur : aStarReachInv e s goalNode cur [] (aStarInit s goalNode).
Proof.
  split; cbn [aStarInit openSet closedSet gScore pq_push app itemIds map item_node].
  - right. apply list_elem_of_here.
  - intros c n nb Hc. inversion Hc.
  - intros Hin. inversion Hin.
  - intros x [Hx | Hx]; [inversion Hx |]. apply list_elem_of_singleton in Hx as ->.
    rewrite lookup_singleton_eq. eauto.
  - intros x [g Hx]. right. apply lookup_singleton_Some in Hx as [<- _].
    apply list_elem_of_here.
  - intros x [Hx | Hx]; [inversion Hx |]. apply list_elem_of_singleton in Hx as ->.
    apply rtc_refl.
Qed.

Lemma relax_reach e s goalNode current st nb pending st' :
  nodesKeyed (cityGraph e) ->
  aStarReachInv e s goalNode (node_id current) (nb :: pending) st ->
  node_id current ∈ closedSet st ->
  getNode e (node_id current) = Some (NodeEntry current) ->
  nb ∈ neighbors current ->
  relax e goalNode current st nb = Ok st' ->
  aStarReachInv e s goalNode (node_id current) pending st' /\ closedSet st' = closedSet st.
Proof.
  intros Hk Hr Hsettled Hnode Hnbr. unfold relax.
  assert (reachable e (node_id s) nb) as Hreach.
  { eapply rtc_r; [apply (reach_linked _ _ _ _ _ _ Hr); left; exact Hsettled |].
    exists current. split; assumption. }
  assert (forall st0,
            closedSet st0 = closedSet st ->
            (forall x, x ∈ itemIds (openSet st) -> x ∈ itemIds (openSet st0)) ->
            (forall x, x ∈ itemIds (openSet st0) -> x ∈ itemIds (openSet st) \/ x = nb) ->
            nb ∈ closedSet st0 \/ nb ∈ itemIds (openSet st0) ->
            (forall x, x ∈ closedSet st0 \/ x ∈ itemIds (openSet st0) ->
                       is_Some (gScore st0 !! x)) ->
            (forall x, is_Some (gScore st0 !! x) ->
                       x ∈ closedSet st0 \/ x ∈ itemIds (openSet st0)) ->
            aStarReachInv e s goalNode (node_id current) pending st0 /\
            closedSet st0 = closedSet st) as Hbuild.
  { intros st0 Hc Ho Ho' Hnb Hsc Hkn. split; [| exact Hc]. split.
    - rewrite Hc. destruct (reach_start _ _ _ _ _ _ Hr) as [Hs | Hs]; auto.
    - intros c n x Hcl Hn Hx. rewrite Hc in Hcl |- *.
      destruct (reach_closed _ _ _ _ _ _ Hr c n x Hcl Hn Hx) as [Hin | [Hin | [Hcur Hin]]];
        [auto | auto |].
      apply elem_of_cons in Hin as [-> | Hin]; [| auto].
      rewrite <- Hc. destruct Hnb; auto.
    - rewrite Hc. apply (reach_goal _ _ _ _ _ _ Hr).
    - exact Hsc.
    - exact Hkn.
    - rewrite Hc. intros x [Hx | Hx]; [apply (reach_linked _ _ _ _ _ _ Hr); auto |].
      destruct (Ho' x Hx) as [Hx' | ->]; [| exact Hreach].
      apply (reach_linked _ _ _ _ _ _ Hr). auto. }
  destruct (set_has nb (closedSet st)) eqn:Hclosed.
  { intros [= <-]. apply set_has_true in Hclosed. apply Hbuild; auto.
    - apply (reach_scored _ _ _ _ _ _ Hr).
    - apply (reach_known _ _ _ _ _ _ Hr). }
  apply set_has_false in Hclosed.
  destruct (weightOf (getEdge e (node_id current) nb)) as [w|x]; [| discriminate].
  cbn [mbind Result_bind].
  destruct (gScore st !! node_id current) as [g|]; [| discriminate].
  cbv zeta.
  destruct (gScore st !! nb) as [old|] eqn:Hold.
  - destruct (Qltb (g + w) old).
    + destruct (asNode (getNode e nb)) as [nbn|x] eqn:Hnb; [| discriminate].
      cbn [mbind Result_bind openSet closedSet gScore fScore cameFrom].
      assert (nb ∈ itemIds (openSet st)) as Hopen.
      { destruct (reach_known _ _ _ _ _ _ Hr nb) as [Hc | Ho]; [rewrite Hold; eauto | | exact Ho].
        contradiction. }
      apply pq_some_true in Hopen as Hsome. rewrite Hsome. intros [= <-].
      apply Hbuild; cbn [openSet closedSet gScore]; auto.
      * intros x Hx. rewrite lookup_insert. case_decide; [eauto |].
        apply (reach_scored _ _ _ _ _ _ Hr), Hx.
      * intros x. rewrite lookup_insert. case_decide as Hx; [subst x; auto |].
        apply (reach_known _ _ _ _ _ _ Hr).
    + intros [= <-]. apply Hbuild; auto.
      * destruct (reach_known _ _ _ _ _ _ Hr nb) as [Hc | Ho]; [rewrite Hold; eauto | | auto].
        contradiction.
      * apply (reach_scored _ _ _ _ _ _ Hr).
      * apply (reach_known _ _ _ _ _ _ Hr).
  - destruct (asNode (getNode e nb)) as [nbn|x] eqn:Hnb; [| discriminate].
    cbn [mbind Result_bind openSet closedSet gScore fScore cameFrom].
    destruct (asNode_keyed e nb nbn Hk Hnb) as [Hid _].
    destruct (pq_some nb (openSet st)) eqn:Hsome; intros [= <-].
    + apply pq_some_true in Hsome.
      apply Hbuild; cbn [openSet closedSet gScore]; auto.
      * intros x Hx. rewrite lookup_insert. case_decide; [eauto |].
        apply (reach_scored _ _ _ _ _ _ Hr), Hx.
      * intros x. rewrite lookup_insert. case_decide as Hx; [subst x; auto |].
        apply (reach_known _ _ _ _ _ _ Hr).
    + assert (forall x, x ∈ itemIds (pq_push {| item_node := nbn;
                                                item_fScore := g + w + heuristic nbn goalNode |}
                                             (openSet st))
                        <-> x ∈ itemIds (openSet st) \/ x = nb) as Hpush.
      { intros x. unfold pq_push, itemIds. rewrite map_app, elem_of_app. cbn [map item_node].
        rewrite list_elem_of_singleton, Hid. reflexivity. }
      apply Hbuild; cbn [openSet closedSet gScore]; auto.
      * intros x Hx. apply Hpush. auto.
      * intros x Hx. apply Hpush, Hx.
      * right. apply Hpush. auto.
      * intros x Hx. rewrite lookup_insert. case_decide as Hn; [eauto |].
        apply (reach_scored _ _ _ _ _ _ Hr). rewrite Hpush in Hx.
        destruct Hx as [Hx | [Hx | Hx]]; [auto | auto | congruence].
      * intros x. rewrite lookup_insert, Hpush. case_decide as Hx; [subst x; auto |].
        intros Hs. destruct (reach_known _ _ _ _ _ _ Hr x Hs); auto.
Qed.

Lemma relaxAll_reach e s goalNode current ns st st' :
  nodesKeyed (cityGraph e) ->
  aStarReachInv e s goalNode (node_id current) ns st ->
  node_id current ∈ closedSet st ->
  getNode e (node_id current) = Some (NodeEntry current) ->
  (forall n, n ∈ ns -> n ∈ neighbors current) ->
  relaxAll e goalNode current st ns = Ok st' ->
  aStarReachInv e s goalNode (node_id current) [] st' /\ closedSet st' = closedSet st.
Proof.
  intros Hk. revert st. induction ns as [|n ns IH]; intros st Hr Hcur Hnode Hns;
    cbn [relaxAll].
  - intros [= <-]. auto.
  - destruct (relax e goalNode current st n) as [st1|x] eqn:E; cbn [mbind Result_bind];
      [| discriminate].
    destruct (relax_reach e s goalNode current st n ns st1 Hk Hr Hcur Hnode
                (Hns n (list_elem_of_here _ _)) E) as [Hr1 Hc1].
    intros Hrest.
    destruct (IH st1 Hr1 ltac:(rewrite Hc1; exact Hcur) Hnode
                (fun n' Hin => Hns n' (list_elem_of_further _ _ _ Hin)) Hrest) as [Hr2 Hc2].
    split; [exact Hr2 | congruence].
Qed.

Lemma settle_reach e s goalNode cur st item rest :
  aStarReachInv e s goalNode cur [] st ->
  pq_pop (openSet st) = Some (item, rest) ->
  node_id (item_node item) <> node_id goalNode ->
  getNode e (node_id (item_node item)) = Some (NodeEntry (item_node item)) ->
  let current := item_node item in
  let st1 := {| openSet := rest;
                closedSet := set_add (node_id current) (closedSet st);
                gScore := gScore st; fScore := fScore st; cameFrom := cameFrom st |} in
  aStarReachInv e s goalNode (node_id current) (neighbors current) st1.
Proof.
  intros Hr Hpop Hgoal Hnode. cbv zeta. apply pq_pop_perm in Hpop.
  assert (forall x, x ∈ itemIds (openSet st) <->
                    x = node_id (item_node item) \/ x ∈ itemIds rest) as Hperm.
  { intros x. unfold itemIds. rewrite Hpop. cbn [map]. apply elem_of_cons. }
  assert (forall x, x ∈ closedSet st \/ x ∈ itemIds (openSet st) <->
                    x ∈ set_add (node_id (item_node item)) (closedSet st) \/ x ∈ itemIds rest)
    as Hmet.
  { intros x. rewrite Hperm, set_add_elem. tauto. }
  split; cbn [openSet closedSet gScore].
  - apply Hmet, (reach_start _ _ _ _ _ _ Hr).
  - intros c n nb Hc Hn Hnb. apply set_add_elem in Hc as [Hc | ->].
    + destruct (reach_closed _ _ _ _ _ _ Hr c n nb Hc Hn Hnb) as [Hin | [Hin | [_ Hin]]];
        [| | inversion Hin].
      * destruct (proj1 (Hmet nb) (or_introl Hin)); auto.
      * destruct (proj1 (Hmet nb) (or_intror Hin)); auto.
    + right. right. split; [reflexivity |]. rewrite Hnode in Hn. injection Hn as <-.
      exact Hnb.
  - intros Hin. apply set_add_elem in Hin as [Hin | Hin]; [| congruence].
    exact (reach_goal _ _ _ _ _ _ Hr Hin).
  - intros x Hx. apply (reach_scored _ _ _ _ _ _ Hr), Hmet, Hx.
  - intros x Hx. apply Hmet, (reach_known _ _ _ _ _ _ Hr), Hx.
  - intros x Hx. apply (reach_linked _ _ _ _ _ _ Hr), Hmet, Hx.
Qed.

Lemma relax_throws e goalNode current st n x :
  relax e goalNode current st n = Err x ->
  x = TypeError \/ x = NotANumber \/ x = InvalidCoordinates.
Proof.
  unfold relax. destruct (set_has n (closedSet st)); [discriminate |].
  destruct (getEdge e (node_id current) n) as [[|edge]|]; cbn; try (intros [= <-]; auto).
  destruct (weight edge); cbn; [| intros [= <-]; auto].
  destruct (gScore st !! node_id current); [| intros [= <-]; auto].
  match goal with |- (if ?b then _ else _) = _ -> _ => destruct b end; [| discriminate].
  destruct (getNode e n) as [[|]|]; cbn; try (intros [= <-]; auto).
  destruct (pq_some n (openSet st)); discriminate.
Qed.

Lemma relaxAll_throws e goalNode current ns st x :
  relaxAll e goalNode current st ns = Err x ->
  x = TypeError \/ x = NotANumber \/ x = InvalidCoordinates.
Proof.
  revert st. induction ns as [|n ns IH]; intros st; cbn [relaxAll]; [discriminate |].
  destruct (relax e goalNode current st n) as [st'|y] eqn:E; cbn [mbind Result_bind].
  - apply IH.
  - intros [= <-]. exact (relax_throws _ _ _ _ _ _ E).
Qed.

Lemma reconstructPath_throws fuel e from current path x :
  reconstructPath fuel e from current path = Err x ->
  x = TypeError \/ x = InvalidCoordinates \/ x = OutOfFuel.
Proof.
  revert current path. induction fuel as [|fuel IH]; intros current path;
    cbn [reconstructPath]; destruct (from !! node_id current) as [p|]; try discriminate.
  - intros [= <-]. auto.
  - destruct (getNode e p) as [[m|edge]|]; cbn; try (intros [= <-]; auto).
    apply IH.
Qed.

(** A search does not throw 'No safe zones available'. *)
Lemma aStarLoop_throws fuel e goalNode st x :
  aStarLoop fuel e goalNode st = Err x -> x <> NoSafeZonesAvailable.
Proof.
  revert st. induction fuel as [|fuel IH]; intros st; cbn [aStarLoop].
  - intros [= <-]. discriminate.
  - destruct (pq_pop (openSet st)) as [[item rest]|]; [| intros [= <-]; discriminate].
    cbv zeta. destruct (String.eqb _ _).
    + intros Hp. destruct (reconstructPath_throws _ _ _ _ _ _ Hp) as [-> | [-> | ->]];
        discriminate.
    + destruct (relaxAll e goalNode (item_node item) _ _) as [st2|y] eqn:Hr;
        cbn [mbind Result_bind]; [apply IH |].
      intros [= <-]. destruct (relaxAll_throws _ _ _ _ _ _ Hr) as [-> | [-> | ->]];
        discriminate.
Qed.

Lemma aStarAlgorithm_throws e start goal x :
  aStarAlgorithm e start goal = Err x -> x <> NoSafeZonesAvailable.
Proof.
  unfold aStarAlgorithm.
  destruct (findNearestNode e start) as [s|]; [| intros [= <-]; discriminate].
  destruct (findNearestNode e goal) as [t|]; [| intros [= <-]; discriminate].
  apply aStarLoop_throws.
Qed.

(** On a well-formed graph the loop finds the objects it reads: it throws
    only over a weight that is NaN, or 'No path found'. *)
Lemma relax_wellFormed e goalNode current st nb x :
  wellFormedGraph e ->
  getNode e (node_id current) = Some (NodeEntry current) ->
  nb ∈ neighbors current ->
  relax e goalNode current st nb = Err x -> x = NotANumber.
Proof.
  intros (Hk & Hnd & Hwf) Hnode Hnb. unfold relax.
  destruct (set_has nb (closedSet st)); [discriminate |].
  destruct (Hwf _ _ _ Hnode Hnb) as [[m Hm] [edge Hedge]].
  rewrite Hedge. cbn [weightOf].
  destruct (weight edge); cbn [mbind Result_bind]; [| intros [= <-]; reflexivity].
  destruct (gScore st !! node_id current); [| intros [= <-]; reflexivity].
  cbv zeta. rewrite Hm. cbn [asNode mbind Result_bind].
  match goal with |- (if ?b then _ else _) = _ -> _ => destruct b end; [| discriminate].
  destruct (pq_some nb (openSet st)); discriminate.
Qed.

Lemma relaxAll_wellFormed e goalNode current ns st x :
  wellFormedGraph e ->
  getNode e (node_id current) = Some (NodeEntry current) ->
  (forall n, n ∈ ns -> n ∈ neighbors current) ->
  relaxAll e goalNode current st ns = Err x -> x = NotANumber.
Proof.
  intros Hwf Hnode. revert st. induction ns as [|n ns IH]; intros st Hns; cbn [relaxAll];
    [discriminate |].
  destruct (relax e goalNode current st n) as [st'|y] eqn:E; cbn [mbind Result_bind].
  - apply IH. intros m Hm. apply Hns, list_elem_of_further, Hm.
  - intros [= <-].
    exact (relax_wellFormed _ _ _ _ _ _ Hwf Hnode (Hns n (list_elem_of_here _ _)) E).
Qed.

Lemma reconstructPath_wellFormed e s st fuel current path x :
  aStarWalkInv e s st ->
  reconstructPath fuel e (cameFrom st) current path = Err x -> x = OutOfFuel.
Proof.
  intros Hw. revert current path.
  induction fuel as [|fuel IH]; intros current path; cbn [reconstructPath];
    destruct (cameFrom st !! node_id current) as [p|] eqn:Hp; try discriminate.
  - intros [= <-]. reflexivity.
  - destruct (walk_from e s st Hw _ _ Hp) as (pn & Hpn & _).
    rewrite Hpn. cbn [asNode mbind Result_bind]. apply IH.
Qed.

Lemma aStarLoop_wellFormed e s goalNode fuel st x :
  wellFormedGraph e -> aStarInv e st -> aStarWalkInv e s st ->
  aStarLoop fuel e goalNode st = Err x ->
  x = NotANumber \/ x = OutOfFuel \/ x = NoPathFound.
Proof.
  intros Hwf. pose proof (proj1 Hwf) as Hk. revert st.
  induction fuel as [|fuel IH]; intros st Hi Hw; cbn [aStarLoop].
  - intros [= <-]. auto.
  - destruct (pq_pop (openSet st)) as [[item rest]|] eqn:Hpop; [| intros [= <-]; auto].
    cbv zeta.
    destruct (String.eqb (node_id (item_node item)) (node_id goalNode)).
    + intros Hp. rewrite (reconstructPath_wellFormed _ _ _ _ _ _ _ Hw Hp). auto.
    + destruct (settle_inv e st item rest Hi Hpop) as (Hi1 & Hcur & _).
      destruct (settle_walk e s st item rest Hw Hpop) as (Hw1 & Hs1 & Hnode).
      cbv zeta in Hi1, Hcur, Hw1, Hs1, Hnode.
      destruct (relaxAll e goalNode (item_node item) _ (neighbors (item_node item)))
        as [st2|y] eqn:Hrelax; cbn [mbind Result_bind].
      * destruct (relaxAll_inv e goalNode (item_node item) _ _ st2 Hk Hi1 Hcur Hrelax)
          as [Hi2 _].
        apply IH; [exact Hi2 |].
        refine (relaxAll_walk e s goalNode (item_node item) (neighbors (item_node item)) _ st2
                  Hk Hi1 Hw1 Hs1 Hcur Hnode _ Hrelax). auto.
      * intros [= <-]. left.
        exact (relaxAll_wellFormed e goalNode (item_node item) (neighbors (item_node item))
                 _ _ Hwf Hnode (fun n Hn => Hn) Hrelax).
Qed.

Lemma aStarAlgorithm_wellFormed e start goal x :
  wellFormedGraph e ->
  aStarAlgorithm e start goal = Err x -> x <> InvalidCoordinates.
Proof.
  intros Hwf. unfold aStarAlgorithm.
  destruct (findNearestNode e start) as [s|] eqn:Hs; [| intros [= <-]; discriminate].
  destruct (findNearestNode e goal) as [t|]; [| intros [= <-]; discriminate].
  intros Hloop. destruct Hwf as (Hk & Hnd & Hwf).
  assert (getNode e (node_id s) = Some (NodeEntry s)) as Hnode.
  { apply nearestBy_elem, nodesOf_elem in Hs as [k Hin].
    rewrite (Hk k s Hin). apply graph_get_NoDup; assumption. }
  destruct (aStarLoop_wellFormed e s t _ _ x (conj Hk (conj Hnd Hwf))
              (aStarInit_inv e s t (findNearestNode_keyed e start s Hk Hs))
              (aStarInit_walk e s t Hnode) Hloop) as [-> | [-> | ->]]; discriminate.
Qed.

Lemma closed_reachable e s goalNode cur st x :
  aStarReachInv e s goalNode cur [] st -> openSet st = [] ->
  reachable e (node_id s) x -> x ∈ closedSet st.
Proof.
  intros Hr Hopen. unfold reachable. revert x.
  apply (rtc_ind_r (fun x => x ∈ closedSet st)).
  - destruct (reach_start _ _ _ _ _ _ Hr) as [Hs | Hs]; [exact Hs |].
    rewrite Hopen in Hs. inversion Hs.
  - intros y z _ Hyz IH. destruct Hyz as (n & Hn & Hz).
    destruct (reach_closed _ _ _ _ _ _ Hr y n z IH Hn Hz) as [Hin | [Hin | [_ Hin]]];
      [exact Hin | | inversion Hin].
    rewrite Hopen in Hin. inversion Hin.
Qed.

(** What the end of the loop tells about the graph. *)
Lemma aStarLoop_outcome e s goalNode fuel st cur :
  nodesKeyed (cityGraph e) -> aStarInv e st -> aStarWalkInv e s st ->
  aStarReachInv e s goalNode cur [] st ->
  match aStarLoop fuel e goalNode st with
  | Ok _ => reachable e (node_id s) (node_id goalNode)
  | Err NoPathFound => ~ reachable e (node_id s) (node_id goalNode)
  | Err _ => True
  end.
Proof.
  intros Hk. revert st cur.
  induction fuel as [|fuel IH]; intros st cur Hi Hw Hr; [exact I |].
  cbn [aStarLoop].
  destruct (pq_pop (openSet st)) as [[item rest]|] eqn:Hpop.
  - cbv zeta.
    destruct (String.eqb (node_id (item_node item)) (node_id goalNode)) eqn:Hgoal.
    + apply String.eqb_eq in Hgoal.
      destruct (reconstructPath _ e (cameFrom st) (item_node item) [item_node item])
        as [path|x] eqn:Hpath.
      * rewrite <- Hgoal. apply (reach_linked _ _ _ _ _ _ Hr). right.
        apply pq_pop_perm in Hpop. unfold itemIds. rewrite Hpop. apply list_elem_of_here.
      * destruct (reconstructPath_throws _ _ _ _ _ _ Hpath) as [-> | [-> | ->]]; exact I.
    + apply String.eqb_neq in Hgoal.
      destruct (settle_inv e st item rest Hi Hpop) as (Hi1 & Hcur & Hlen).
      destruct (settle_walk e s st item rest Hw Hpop) as (Hw1 & Hs1 & Hnode).
      pose proof (settle_reach e s goalNode cur st item rest Hr Hpop Hgoal Hnode) as Hr1.
      cbv zeta in Hi1, Hcur, Hlen, Hw1, Hs1, Hnode, Hr1.
      destruct (relaxAll e goalNode (item_node item) _ (neighbors (item_node item)))
        as [st2|x] eqn:Hrelax; cbn [mbind Result_bind].
      2:{ destruct (relaxAll_throws _ _ _ _ _ _ Hrelax) as [-> | [-> | ->]]; exact I. }
      destruct (relaxAll_inv e goalNode (item_node item) _ _ st2 Hk Hi1 Hcur Hrelax)
        as [Hi2 Hc2].
      destruct (relaxAll_reach e s goalNode (item_node item) _ _ st2 Hk Hr1 Hcur Hnode
                  ltac:(auto) Hrelax) as [Hr2 _].
      apply (IH st2 (node_id (item_node item))); [exact Hi2 | | exact Hr2].
      refine (relaxAll_walk e s goalNode (item_node item) (neighbors (item_node item)) _ st2
                Hk Hi1 Hw1 Hs1 Hcur Hnode _ Hrelax). auto.
  - intros Hreach. apply pq_pop_None in Hpop.
    exact (reach_goal _ _ _ _ _ _ Hr (closed_reachable e s goalNode cur st _ Hr Hpop Hreach)).
Qed.

Lemma aStarAlgorithm_outcome (e : Engine) (start goal : LatLng) (s t : Node) :
  nodesKeyed (cityGraph e) -> NoDup (map fst (cityGraph e)) ->
  findNearestNode e start = Some s -> findNearestNode e goal = Some t ->
  match aStarAlgorithm e start goal with
  | Ok _ => reachable e (node_id s) (node_id t)
  | Err NoPathFound => ~ reachable e (node_id s) (node_id t)
  | Err _ => True
  end.
Proof.
  intros Hk Hnd Hs Ht. unfold aStarAlgorithm. rewrite Hs, Ht.
  assert (getNode e (node_id s) = Some (NodeEntry s)) as Hnode.
  { apply nearestBy_elem, nodesOf_elem in Hs as [k Hin].
    rewrite (Hk k s Hin). apply graph_get_NoDup; assumption. }
  apply (aStarLoop_outcome e s t _ _ "").
  - exact Hk.
  - apply aStarInit_inv, (findNearestNode_keyed e start s Hk Hs).
  - apply aStarInit_walk, Hnode.
  - apply aStarInit_reach.
Qed.

(** X26. What the search answers is true of the graph: on a graph that
    stores every node once, under its identifier, a route is returned only
    if the goal node can be reached from the start node along neighbour
    lists, and 'No path found' is thrown only if it cannot. *)
Theorem aStar_answers_reachability (e : Engine) (start goal : LatLng) (s t : Node) :
  nodesKeyed (cityGraph e) -> NoDup (map fst (cityGraph e)) ->
  findNearestNode e start = Some s -> findNearestNode e goal = Some t ->
  ((exists path, aStarAlgorithm e start goal = Ok path) ->
   reachable e (node_id s) (node_id t)) /\
  (aStarAlgorithm e start goal = Err NoPathFound ->
   ~ reachable e (node_id s) (node_id t)).
Proof.
  intros Hk Hnd Hs Ht.
  pose proof (aStarAlgorithm_outcome e start goal s t Hk Hnd Hs Ht) as Hout.
  split.
  - intros [path Hp]. rewrite Hp in Hout. exact Hout.
  - intros Hp. rewrite Hp in Hout. exact Hout.
Qed.

(** *** The graph after the weight update *)

Lemma graph_get_updateEntries e g k :
  match graph_get g k with
  | Some (NodeEntry n) => graph_get (fst (updateEntries e g)) k = Some (NodeEntry n)
  | Some (EdgeEntry _) => exists edge, graph_get (fst (updateEntries e g)) k = Some (EdgeEntry edge)
  | None => graph_get (fst (updateEntries e g)) k = None
  end.
Proof.
  induction g as [|[k0 en] g IH]; [reflexivity |].
  cbn [updateEntries graph_get].
  destruct (updateEntry_cases e en) as [-> | (-> & _)]; cbn [fst snd graph_get].
  - destruct (String.eqb k k0); [| exact IH].
    destruct en as [n|edge]; cbn [writeWeight]; eauto.
  - destruct (String.eqb k k0).
    + destruct en as [n|edge]; eauto.
    + destruct (graph_get g k) as [[n|edge]|]; eauto.
Qed.

Lemma getNode_update e k n :
  getNode (fst (updateEdgeWeights e)) k = Some (NodeEntry n)
  <-> getNode e k = Some (NodeEntry n).
Proof.
  unfold getNode, updateEdgeWeights. cbn [cityGraph setGraph fst].
  pose proof (graph_get_updateEntries e (cityGraph e) k) as Hg.
  destruct (graph_get (cityGraph e) k) as [[m|edge]|].
  - rewrite Hg. reflexivity.
  - destruct Hg as [edge' ->]. split; discriminate.
  - rewrite Hg. reflexivity.
Qed.

Lemma nodesOf_updateEntries e g : nodesOf (fst (updateEntries e g)) = nodesOf g.
Proof.
  unfold nodesOf. induction g as [|[k en] g IH]; [reflexivity |].
  cbn [updateEntries].
  destruct (updateEntry_cases e en) as [-> | (-> & _)]; cbn [fst snd]; [| reflexivity].
  change (omap ?f (?x :: ?l)) with (match f x with Some y => y :: omap f l
                                             | None => omap f l end).
  cbn [fst snd]. rewrite IH. destruct en; reflexivity.
Qed.

Lemma nodesOf_update e :
  nodesOf (cityGraph (fst (updateEdgeWeights e))) = nodesOf (cityGraph e).
Proof.
  unfold updateEdgeWeights. cbn [cityGraph setGraph fst]. apply nodesOf_updateEntries.
Qed.

Lemma keys_updateEntries e g : map fst (fst (updateEntries e g)) = map fst g.
Proof.
  induction g as [|[k en] g IH]; [reflexivity |].
  cbn [updateEntries].
  destruct (updateEntry e en); cbn [fst snd map]; [f_equal; exact IH | reflexivity].
Qed.

Lemma reachable_update e seismic hazards a b :
  reachable (fst (updateEdgeWeights (setInputs seismic hazards e))) a b <-> reachable e a b.
Proof.
  unfold reachable.
  assert (forall x y, linked (fst (updateEdgeWeights (setInputs seismic hazards e))) x y
                      <-> linked e x y) as Hl.
  { intros x y. unfold linked. split; intros (n & Hn & Hy); exists n; (split; [| exact Hy]).
    - apply (proj1 (getNode_update (setInputs seismic hazards e) x n)) in Hn. exact Hn.
    - apply (proj2 (getNode_update (setInputs seismic hazards e) x n)). exact Hn. }
  split; intros Hr; induction Hr as [|x y z Hxy _ IH]; try apply rtc_refl;
    (eapply rtc_l; [apply Hl, Hxy | exact IH]).
Qed.

Lemma getEdge_update e a b :
  (exists edge, getEdge e a b = Some (EdgeEntry edge)) ->
  exists edge, getEdge (fst (updateEdgeWeights e)) a b = Some (EdgeEntry edge).
Proof.
  unfold getEdge, updateEdgeWeights. cbn [cityGraph setGraph fst].
  pose proof (graph_get_updateEntries e (cityGraph e) (edgeKey a b)) as H1.
  pose proof (graph_get_updateEntries e (cityGraph e) (edgeKey b a)) as H2.
  destruct (graph_get (cityGraph e) (edgeKey a b)) as [[m|edge]|].
  - intros [edge [=]].
  - intros _. destruct H1 as [edge' ->]. eauto.
  - rewrite H1. destruct (graph_get (cityGraph e) (edgeKey b a)) as [[m|edge]|].
    + intros [edge [=]].
    + intros _. destruct H2 as [edge' ->]. eauto.
    + intros [edge [=]].
Qed.

Lemma wellFormedGraph_update e seismic hazards :
  wellFormedGraph e ->
  wellFormedGraph (fst (updateEdgeWeights (setInputs seismic hazards e))).
Proof.
  intros (Hk & Hnd & Hwf). split; [| split].
  - exact (nodesKeyed_sameBase _ _ (sameBase_inputs e seismic hazards) Hk).
  - unfold updateEdgeWeights. cbn [cityGraph setGraph setInputs fst].
    rewrite keys_updateEntries. exact Hnd.
  - intros k n nb Hn Hnb.
    apply (proj1 (getNode_update (setInputs seismic hazards e) k n)) in Hn.
    destruct (Hwf k n nb Hn Hnb) as [[m Hm] Hedge]. split.
    + exists m. apply (proj2 (getNode_update (setInputs seismic hazards e) nb m)). exact Hm.
    + apply (getEdge_update (setInputs seismic hazards e)). exact Hedge.
Qed.

(** X27. What a calculation throws tells how far it came. On a graph that
    stores every node once under its identifier, with every listed
    neighbour and the edge to it, it throws 'coordinates must contain
    numbers' exactly when the snapshot has an event and the graph a node:
    that is the weight update, at the first node. Failing that, it throws
    'No safe zones available' exactly when there is none. 'No path found'
    is thrown only if the node nearest to the nearest safe zone cannot be
    reached from the node nearest to the user, and a route is returned
    only if it can. *)
Theorem calculation_outcomes (e : Engine) (userLocation : LatLng)
    (seismic : option SeismicData) (hazards : gmap string (list Hazard)) :
  wellFormedGraph e ->
  let outcome := snd (calculateSafeRoute e userLocation seismic hazards) in
  let stopped := hasFeature seismic = true /\ nodesOf (cityGraph e) <> [] in
  (outcome = Err InvalidCoordinates <-> stopped) /\
  (outcome = Err NoSafeZonesAvailable <-> ~ stopped /\ safeZones e = []) /\
  match outcome with
  | Ok _ | Err NoPathFound =>
    exists z s t,
      findNearestSafeZone e userLocation = Some z /\
      findNearestNode e userLocation = Some s /\
      findNearestNode e (zonePoint z) = Some t /\
      (reachable e (node_id s) (node_id t) <-> outcome <> Err NoPathFound)
  | Err _ => True
  end.
Proof.
  intros Hwf. pose proof (proj1 Hwf) as Hk. pose proof (proj1 (proj2 Hwf)) as Hnd. cbv zeta.
  remember (snd (calculateSafeRoute e userLocation seismic hazards)) as outcome eqn:Hout.
  destruct (snd (updateEdgeWeights (setInputs seismic hazards e))) as [[]|x] eqn:Hu.
  2:{ rewrite (calculateSafeRoute_throws e userLocation seismic hazards x Hu) in Hout.
      cbn [snd] in Hout. subst outcome.
      unfold updateEdgeWeights in Hu. cbn [snd cityGraph setInputs] in Hu.
      destruct (updateEntries_throws _ _ _ Hu) as (-> & Hf & Hn).
      cbn [seismicData setInputs] in Hf.
      split; [split; [intros _; split; assumption | reflexivity] |].
      split; [split; [discriminate | intros [Hns _]; exfalso; apply Hns; split; assumption] |].
      exact I. }
  assert (~ (hasFeature seismic = true /\ nodesOf (cityGraph e) <> [])) as Hquiet.
  { intros [Hf Hn]. unfold updateEdgeWeights in Hu. cbn [snd cityGraph setInputs] in Hu.
    rewrite (updateEntries_stops (setInputs seismic hazards e) (cityGraph e) Hf Hn) in Hu.
    discriminate. }
  pose proof (wellFormedGraph_update e seismic hazards Hwf) as Hwf1.
  pose proof (proj1 Hwf1) as Hk1. pose proof (proj1 (proj2 Hwf1)) as Hnd1.
  unfold calculateSafeRoute in Hout. cbv zeta in Hout. rewrite Hu in Hout.
  change (findNearestSafeZone (fst (updateEdgeWeights (setInputs seismic hazards e)))
            userLocation)
    with (findNearestSafeZone e userLocation) in Hout.
  pose proof (nearestBy_spec (fun z => kilometers userLocation (zonePoint z)) (safeZones e))
    as Hz.
  fold (findNearestSafeZone e userLocation) in Hz.
  destruct (findNearestSafeZone e userLocation) as [z|] eqn:Ez.
  2:{ cbn [snd] in Hout. subst outcome.
      split; [split; [discriminate | intros Hs; contradiction] |].
      split; [split; [intros _; split; assumption | reflexivity] | exact I]. }
  assert (safeZones e <> []) as Hzones.
  { destruct Hz as (l1 & l2 & -> & _). destruct l1; discriminate. }
  assert (forall p, findNearestNode (fst (updateEdgeWeights (setInputs seismic hazards e))) p
                    = findNearestNode e p) as Hnear.
  { intros p. unfold findNearestNode. rewrite nodesOf_update. reflexivity. }
  pose proof (aStarAlgorithm_outcome (fst (updateEdgeWeights (setInputs seismic hazards e)))
                userLocation (zonePoint z)) as Hsearch.
  unfold generateAlternativeRoutes in Hout.
  destruct (aStarAlgorithm _ userLocation (zonePoint z)) as [path|x] eqn:Hp.
  - cbn [fst snd] in Hout. subst outcome.
    split; [split; [discriminate | intros Hs; contradiction] |].
    split; [split; [discriminate | intros [_ Hs]; contradiction] |].
    unfold aStarAlgorithm in Hp. rewrite !Hnear in Hp.
    destruct (findNearestNode e userLocation) as [s|] eqn:Es; [| discriminate].
    destruct (findNearestNode e (zonePoint z)) as [t|] eqn:Et; [| discriminate].
    exists z, s, t. split; [reflexivity |]. split; [reflexivity |]. split; [exact Et |].
    split; [discriminate |].
    intros _. apply (reachable_update e seismic hazards).
    apply (Hsearch s t Hk1 Hnd1); rewrite Hnear; assumption.
  - cbn [snd] in Hout. subst outcome.
    pose proof (aStarAlgorithm_throws _ _ _ _ Hp) as Hx1.
    pose proof (aStarAlgorithm_wellFormed _ _ _ _ Hwf1 Hp) as Hx2.
    split; [split; [intros [= ->]; contradiction | intros Hs; contradiction] |].
    split; [split; [intros [= ->]; contradiction | intros [_ Hs]; contradiction] |].
    destruct x; try exact I.
    unfold aStarAlgorithm in Hp. rewrite !Hnear in Hp.
    destruct (findNearestNode e userLocation) as [s|] eqn:Es; [| discriminate].
    destruct (findNearestNode e (zonePoint z)) as [t|] eqn:Et; [| discriminate].
    exists z, s, t. split; [reflexivity |]. split; [reflexivity |]. split; [exact Et |].
    split.
    + intros Hr Hne. revert Hr. rewrite <- (reachable_update e seismic hazards).
      apply (Hsearch s t Hk1 Hnd1); rewrite Hnear; assumption.
    + intros Hne. exfalso. apply Hne. reflexivity.
Qed.

End Completeness.


(** ** The answers of the search at the sample maps *)

Lemma blocked_nodesKeyed : nodesKeyed (cityGraph blocked).
Proof.
  intros k n Hin. cbn in Hin.
  repeat (apply elem_of_cons in Hin as [Hin | Hin];
          [try discriminate; try (injection Hin as -> ->; reflexivity) |]).
  inversion Hin.
Qed.

Lemma blocked_NoDup : NoDup (map fst (cityGraph blocked)).
Proof. apply (bool_decide_unpack _). vm_compute. exact I. Qed.

Lemma blocked_wellFormed : wellFormedGraph blocked.
Proof.
  split; [exact blocked_nodesKeyed |]. split; [exact blocked_NoDup |].
  intros k n nb Hn Hnb. exfalso. apply graph_get_elem in Hn. cbn in Hn.
  repeat (apply elem_of_cons in Hn as [Hn | Hn];
          [try discriminate; try (injection Hn as -> ->; inversion Hnb) |]).
  inversion Hn.
Qed.

Lemma noZones_wellFormed : wellFormedGraph noZones.
Proof.
  split; [| split].
  - intros k n Hin. cbn in Hin.
    repeat (apply elem_of_cons in Hin as [Hin | Hin];
            [try discriminate; try (injection Hin as -> ->; reflexivity) |]).
    inversion Hin.
  - apply (bool_decide_unpack _). vm_compute. exact I.
  - intros k n nb Hn Hnb. apply graph_get_elem in Hn. cbn in Hn.
    repeat (apply elem_of_cons in Hn as [Hn | Hn]; [try discriminate |]);
      try (inversion Hn; fail);
      injection Hn as -> ->; cbn [neighbors mkNode] in Hnb;
      apply list_elem_of_singleton in Hnb as ->;
      (split; [eexists; vm_compute; reflexivity | eexists; vm_compute; reflexivity]).
Qed.

Lemma aStar_answers_reachability_witness :
  exists s t,
    @findNearestNode planar blocked origin = Some s /\
    @findNearestNode planar blocked roadGoal = Some t /\
    @aStarAlgorithm planar blocked origin roadGoal = Err NoPathFound /\
    ~ reachable blocked (node_id s) (node_id t).
Proof.
  destruct (@findNearestNode planar blocked origin) as [s|] eqn:Es;
    [| vm_compute in Es; discriminate].
  destruct (@findNearestNode planar blocked roadGoal) as [t|] eqn:Et;
    [| vm_compute in Et; discriminate].
  exists s, t.
  destruct (@aStar_answers_reachability planar blocked origin roadGoal s t
              blocked_nodesKeyed blocked_NoDup Es Et) as [_ Hun].
  assert (@aStarAlgorithm planar blocked origin roadGoal = Err NoPathFound) as Hp
    by (vm_compute; reflexivity).
  exact (conj eq_refl (conj eq_refl (conj Hp (Hun Hp)))).
Defined.

Lemma calculation_outcomes_witness :
  snd (@calculateSafeRoute planar blocked origin (Some (collection [quake 6 1000])) ∅)
  = Err InvalidCoordinates /\
  snd (@calculateSafeRoute planar noZones origin None ∅) = Err NoSafeZonesAvailable.
Proof.
  destruct (@calculation_outcomes planar blocked origin (Some (collection [quake 6 1000])) ∅
              blocked_wellFormed) as ([_ H1] & _).
  destruct (@calculation_outcomes planar noZones origin None ∅ noZones_wellFormed)
    as (_ & [_ H2] & _).
  split.
  - apply H1. split; [reflexivity | discriminate].
  - apply H2. split; [intros [Hf _]; discriminate | reflexivity].
Defined.


(** * The map under the requests *)

Section MapUnderRequests.
Context `{Geo} `{Services}.

Lemma handle_sameBase hub request :
  sameBase (routeEngine (hub_server hub)) (routeEngine (hub_server (handle hub request))) /\
  usgsCache (hub_server (handle hub request)) = usgsCache (hub_server hub).
Proof.
  destruct request as [now suffix userLocation | now sid l reports | report | now data
                      | sock now | sock sid l | sock l now | sock now]; cbn [handle].
  - unfold routeCalculate.
    destruct userLocation as [l|]; [| split; [apply sameBase_refl | reflexivity]].
    destruct (falsyNumber (lat l) || falsyNumber (lng l));
      [split; [apply sameBase_refl | reflexivity] |].
    cbv zeta.
    pose proof (sameBase_calculateSafeRoute (routeEngine (hub_server hub)) l
                  (collection <$> usgsCache (hub_server hub))
                  (currentHazards (hub_server hub))) as Hb.
    destruct (snd (calculateSafeRoute (routeEngine (hub_server hub)) l _ _));
      split; (exact Hb || reflexivity).
  - unfold routeUpdate.
    destruct (sessions_get (activeSessions (hub_server hub)) sid) as [s0|];
      [| split; [apply sameBase_refl | reflexivity]].
    cbv zeta.
    destruct (reportAll reports _) as [h [x|]];
      cbn [fst snd setHazards setSessions setEngine routeEngine usgsCache hub_server setServer];
      [split; [apply sameBase_refl | reflexivity] |].
    destruct (checkRouteRecalculation _ _ h now _) as [[|]|y];
      [| split; [apply sameBase_refl | reflexivity]
       | split; [apply sameBase_refl | reflexivity]].
    pose proof (sameBase_calculateSafeRoute (routeEngine (hub_server hub)) l
                  (collection <$> usgsCache (hub_server hub)) h) as Hb.
    destruct (snd (calculateSafeRoute (routeEngine (hub_server hub)) l _ h));
      split; (exact Hb || reflexivity).
  - destruct (reportHazard report _); split; (apply sameBase_refl || reflexivity).
  - rewrite checkAllRoutesForRecalculation_throws.
    split; [apply sameBase_refl | reflexivity].
  - split; [apply sameBase_refl | reflexivity].
  - unfold onJoinEvacuation. destruct (clients_get _ sock);
      split; (apply sameBase_refl || reflexivity).
  - unfold onLocationUpdate. destruct (joinedSession hub sock) as [k|];
      [| split; [apply sameBase_refl | reflexivity]].
    destruct (sessions_get _ k); split; (apply sameBase_refl || reflexivity).
  - unfold onDisconnect. cbv zeta. destruct (joinedSession hub sock) as [k|];
      [| split; [apply sameBase_refl | reflexivity]].
    destruct (sessions_get _ k); split; (apply sameBase_refl || reflexivity).
Qed.

(** X28. The answer to a calculation does not depend on what the server
    has served: over any sequence of requests the engine changes only in
    the weights and the two input fields that a calculation overwrites,
    the nodes, base distances, safe zones, densities and structural data
    stay as they were, and with the same hazards (the cache of the feed is
    written by no request) a calculation request is answered as it would
    have been at the start. *)
Theorem answers_do_not_depend_on_history (hub : Hub) (requests : list Request)
    (now : Z) (suffix : string) (userLocation : option LatLng) :
  let hub' := serve hub requests in
  sameBase (routeEngine (hub_server hub)) (routeEngine (hub_server hub')) /\
  (currentHazards (hub_server hub') = currentHazards (hub_server hub) ->
   snd (fst (routeCalculate (hub_server hub') now suffix userLocation))
   = snd (fst (routeCalculate (hub_server hub) now suffix userLocation))).
Proof.
  cbv zeta.
  assert (sameBase (routeEngine (hub_server hub))
                   (routeEngine (hub_server (serve hub requests))) /\
          usgsCache (hub_server (serve hub requests)) = usgsCache (hub_server hub))
    as [Hb Hc].
  { unfold serve. revert hub. induction requests as [|request requests IH]; intros hub;
      cbn [fold_left]; [split; [apply sameBase_refl | reflexivity] |].
    destruct (handle_sameBase hub request) as [H1 H2].
    destruct (IH (handle hub request)) as [H3 H4].
    split; [exact (sameBase_trans _ _ _ H1 H3) | congruence]. }
  split; [exact Hb |]. intros Hh. unfold routeCalculate.
  destruct userLocation as [l|]; [| reflexivity].
  destruct (falsyNumber (lat l) || falsyNumber (lng l)); [reflexivity |].
  cbv zeta. rewrite Hc, Hh.
  rewrite <- (calculateSafeRoute_sameBase _ _ l (collection <$> usgsCache (hub_server hub))
                (currentHazards (hub_server hub)) Hb).
  destruct (snd (calculateSafeRoute (routeEngine (hub_server hub)) l _ _)); reflexivity.
Qed.

End MapUnderRequests.


(** * Sockets and sessions *)

Lemma clients_get_put k c cs : clients_get (clients_put k c cs) k = Some c.
Proof.
  induction cs as [|[k0 c0] cs IH]; cbn [clients_put clients_get].
  - rewrite String.eqb_refl. reflexivity.
  - destruct (String.eqb k k0) eqn:E; cbn [clients_get]; rewrite E; [reflexivity | exact IH].
Qed.

(** X29. Joining is all it takes to move a session: once a connected
    socket has joined under the identifier of a session, whoever created
    it and whoever else has joined, its next location update sets the
    current location and the update time of that session and hands the
    location to the emergency service; a socket that has joined nothing
    moves nothing and tells nobody. *)
Theorem joined_socket_moves_its_session (hub : Hub) (socketId sid : string)
    (location : option LatLng) (l : LatLng) (now : Z) (s : Session) :
  is_Some (clients_get (connectedClients hub) socketId) ->
  sid <> "" ->
  sessions_get (sessionsOf hub) sid = Some s ->
  let joined := onJoinEvacuation hub socketId (Some sid) location in
  let moved := onLocationUpdate joined socketId l now in
  let idle := onLocationUpdate (onJoinEvacuation hub socketId None location) socketId l now in
  snd moved = Some (sid, l) /\
  sessions_get (sessionsOf (fst moved)) sid = Some (moveSession l now s) /\
  idle = (onJoinEvacuation hub socketId None location, None).
Proof.
  intros [client Hc] Hsid Hs. cbv zeta.
  unfold onJoinEvacuation. rewrite Hc.
  assert (String.eqb sid "" = false) as Hne by (apply String.eqb_neq; exact Hsid).
  split; [| split].
  - unfold onLocationUpdate, joinedSession. cbn [setClients connectedClients hub_server].
    rewrite clients_get_put. cbn [client_sessionId]. rewrite Hne.
    unfold sessionsOf in Hs. rewrite Hs. reflexivity.
  - unfold onLocationUpdate, joinedSession. cbn [setClients connectedClients hub_server].
    rewrite clients_get_put. cbn [client_sessionId]. rewrite Hne.
    unfold sessionsOf in Hs. rewrite Hs. cbn [fst].
    unfold sessionsOf. cbn [setServer hub_server activeSessions].
    exact (sessions_set_get _ _ _ _ Hs).
  - unfold onLocationUpdate, joinedSession. cbn [setClients connectedClients hub_server].
    rewrite clients_get_put. reflexivity.
Qed.

Lemma joined_socket_moves_its_session_witness :
  let joined := onJoinEvacuation sampleHub "s1" (Some "evac_1") None in
  let moved := onLocationUpdate joined "s1" roadGoal 50 in
  snd moved = Some ("evac_1", roadGoal) /\
  sessions_get (sessionsOf (fst moved)) "evac_1" = Some (moveSession roadGoal 50 sampleSession).
Proof.
  cbv zeta.
  destruct (joined_socket_moves_its_session sampleHub "s1" "evac_1" None roadGoal 50
              sampleSession (mk_is_Some _ _ eq_refl) ltac:(discriminate) eq_refl)
    as (H1 & H2 & _).
  exact (conj H1 H2).
Defined.


(** * Queries on the cache of the feed *)

(** X30. The two queries on the cache are filters that keep its order:
    they commute, a narrower time window is the wider one filtered again,
    and the test of the server for significant activity is the query for
    magnitude 5 within the window of one hour. *)
Theorem feed_queries_commute (cache : option (list Earthquake)) (now hoursBack hoursBack' : Z)
    (minMagnitude : Q) :
  getRecentEarthquakes cache now hoursBack `sublist_of` default [] cache /\
  getRecentEarthquakes (Some (getEarthquakesByMagnitude cache minMagnitude)) now hoursBack
  = getEarthquakesByMagnitude (Some (getRecentEarthquakes cache now hoursBack)) minMagnitude /\
  ((hoursBack <= hoursBack')%Z ->
   getRecentEarthquakes (Some (getRecentEarthquakes cache now hoursBack')) now hoursBack
   = getRecentEarthquakes cache now hoursBack) /\
  (existsb significant (getRecentEarthquakes cache now 1) = true <->
   getRecentEarthquakes (Some (getEarthquakesByMagnitude cache 5)) now 1 <> []).
Proof.
  split; [| split; [| split]].
  - unfold getRecentEarthquakes. destruct cache as [fs|]; cbn [default]; [| constructor].
    apply sublist_filter.
  - unfold getRecentEarthquakes, getEarthquakesByMagnitude.
    destruct cache as [fs|]; [| reflexivity]. cbv zeta.
    rewrite !list_filter_filter. apply list_filter_iff. intros q. tauto.
  - intros Hh. unfold getRecentEarthquakes. destruct cache as [fs|]; [| reflexivity].
    cbv zeta. apply list_filter_filter_l. intros q Hq. nia.
  - rewrite hasSignificantActivity_spec.
    unfold getRecentEarthquakes, getEarthquakesByMagnitude.
    destruct cache as [fs|]; cbn [default].
    + cbv zeta. split.
      * intros (q & Hq & Ht & Hm) Hnil.
        assert (q ∈ filter (fun feature => (now - 1 * 60 * 60 * 1000 <= time feature)%Z)
                      (filter (fun feature => Qle_bool 5 (mag feature) = true) fs)) as Hin.
        { apply list_elem_of_filter. split; [lia |].
          apply list_elem_of_filter. split; [apply Qle_bool_iff, Hm | exact Hq]. }
        rewrite Hnil in Hin. inversion Hin.
      * intros Hne.
        destruct (filter (fun feature => (now - 1 * 60 * 60 * 1000 <= time feature)%Z)
                    (filter (fun feature => Qle_bool 5 (mag feature) = true) fs))
          as [|q l] eqn:E; [contradiction |].
        assert (q ∈ filter (fun feature => (now - 1 * 60 * 60 * 1000 <= time feature)%Z)
                      (filter (fun feature => Qle_bool 5 (mag feature) = true) fs)) as Hin
          by (rewrite E; apply list_elem_of_here).
        apply list_elem_of_filter in Hin as [Ht Hin].
        apply list_elem_of_filter in Hin as [Hm Hin].
        exists q. split; [exact Hin |]. split; [lia | apply Qle_bool_iff, Hm].
    + split; [intros (q & Hq & _); inversion Hq | intros Hne; contradiction].
Qed.


(** ** Further runs on the samples *)

Lemma penalty_only_from_seismic_risk_witness :
  exists s w,
    @calculateSeismicRisk planar roadAB (seismicData crowded) = Some s /\
    @edgeWeight planar crowded roadAB = Some w /\
    w == 3 * specCost s (calculateStructuralRisk crowded roadAB)
                      (getCrowdDensity crowded roadAB) (getHazardReports crowded roadAB)
                      (baseDistance roadAB).
Proof.
  pose proof (@penalty_only_from_seismic_risk planar crowded roadAB) as Hw.
  destruct Hw as (_ & Hw). revert Hw.
  destruct (@calculateSeismicRisk planar roadAB (seismicData crowded)) as [s|] eqn:E;
    [| vm_compute in E; discriminate].
  cbv zeta. intros (w & Hw & H3 & _). exists s, w.
  split; [reflexivity |]. split; [exact Hw |]. apply H3.
  vm_compute in E. injection E as <-. reflexivity.
Defined.

Lemma penalty_doubles_per_step_witness :
  graph_get (cityGraph (penalizePreviousRoutes singleRoad [roadRoute; roadRoute])) "A-B"
  = Some (EdgeEntry (setWeight ((fun w => w * 2 * 2) <$> weight roadAB) roadAB)).
Proof.
  pose proof (penalty_doubles_per_step singleRoad [roadRoute; roadRoute] "A-B") as Hw.
  cbv zeta in Hw. destruct Hw as (Hw & _). exact (Hw roadAB eq_refl).
Defined.

Lemma calculate_rejects_zero_coordinate_witness :
  @routeCalculate planar (hub_server sampleHub) 5000 "k3x" (Some {| lat := 0; lng := 139 |})
  = (hub_server sampleHub, InvalidLocation400, []).
Proof.
  pose proof (@calculate_rejects_zero_coordinate planar (hub_server sampleHub) 5000 "k3x"
                {| lat := 0; lng := 139 |}) as Hw.
  cbv zeta in Hw. destruct Hw as (Hw & _). apply Hw. left. reflexivity.
Defined.

Lemma urgent_count_triggers_recalculation_witness :
  existsb significant
    (getRecentEarthquakes
       (Some (map quakeOf
                (fst (@processEarthquakeData planar whole_pow10 2000
                        (Some [feature "a" 6 1000; feature "b" 3 500])))))
       2000 1)
  = true.
Proof.
  pose proof (@urgent_count_triggers_recalculation planar whole_pow10 2000
                (Some [feature "a" 6 1000; feature "b" 3 500])) as Hw.
  cbv zeta in Hw. destruct Hw as (_ & Hw). apply Hw. vm_compute. lia.
Defined.


Lemma answers_do_not_depend_on_history_witness :
  let served := @serve planar sampleServices sampleHub
                  [Disconnect "s1" 10; EarthquakeUpdate 2000 [quake 6 1000]] in
  snd (fst (@routeCalculate planar (hub_server served) 5000 "k3x" (Some origin)))
  = snd (fst (@routeCalculate planar (hub_server sampleHub) 5000 "k3x" (Some origin))).
Proof.
  cbv zeta.
  pose proof (@answers_do_not_depend_on_history planar sampleServices sampleHub
                [Disconnect "s1" 10; EarthquakeUpdate 2000 [quake 6 1000]]
                5000 "k3x" (Some origin)) as Hw.
  cbv zeta in Hw. destruct Hw as (_ & Hw). apply Hw. vm_compute. reflexivity.
Defined.

Lemma feed_queries_commute_witness :
  getRecentEarthquakes (Some (getRecentEarthquakes (Some [quake 6 1000; quake 3 500]) 2000 24))
                       2000 1
  = getRecentEarthquakes (Some [quake 6 1000; quake 3 500]) 2000 1.
Proof.
  pose proof (feed_queries_commute (Some [quake 6 1000; quake 3 500]) 2000 1 24 5) as Hw.
  destruct Hw as (_ & _ & Hw & _). apply Hw. lia.
Defined.
